(** * RealTymTracker: the serialized audit-commit pipeline of server.js

    A shallow embedding of [server.js]: the [CommitQueue] class, the commit
    task built by [makeCommitTask], the three mutating REST handlers, and the
    properties the specification states about them. *)

From Stdlib Require Import ZArith Lia List Bool Ascii String.
From stdpp Require Import gmap strings list pretty.
Import ListNotations.

Local Open Scope string_scope.
Local Open Scope list_scope.

(** * JavaScript values the server handles *)

(** An [Error] object as the code reads it: [err.message], and [err.stderr]
    which [util.promisify(exec)] adds. A missing [stderr] and an empty one are
    both falsy for [err.stderr || err.message], so both are the empty string. *)
Record Err := { message : string; stderr : string }.

(** How a promise settles. *)
Inductive Outcome :=
| Fulfilled
| Rejected (err : Err).

(** What calling [task()] does before anything is awaited: it throws, or it
    returns a value (a promise, for an async function) that is then awaited. *)
Inductive Called :=
| Throws (err : Err)
| Returns.

(** Arguments of [console.log] and [console.error]. *)
Inductive Arg :=
| AStr (s : string)
| AErr (err : Err).

Inductive Line :=
| Log (args : list Arg)
| Error (args : list Arg).

(** * class CommitQueue *)

Module CommitQueue.

(** What can be seen of the worker: a task is called, the promise it
    returned settles (or the call threw). *)
Inductive Obs (T : Type) :=
| Started (task : T)
| Finished (task : T) (o : Outcome).
Arguments Started {T} task.
Arguments Finished {T} task o.

(** What happens to a queue: [push(task)] is called, or the promise awaited by
    the [i]-th suspended invocation of [_run] settles. *)
Inductive Event (T : Type) :=
| Push (task : T)
| Settle (i : nat) (o : Outcome).
Arguments Push {T} task.
Arguments Settle {T} i o.

Section Queue.
Context {T : Type}.

(** The behaviour of the task functions at the call [task()]. *)
Variable call : T -> Called.

(** [queue] and [running] are the two fields of the class. [awaiting] holds
    one entry for each invocation of [_run] that is suspended at
    [await task()], with the task it called: nothing in the type keeps it
    from holding several. [console] is what [console.error] printed,
    [trace] records calls and settlements, [entries] counts the invocations
    of [_run] that went past the guard [if (this.running) return]. *)
Record State := {
  queue : list T;
  running : bool;
  awaiting : list T;
  console : list Line;
  trace : list (Obs T);
  entries : nat
}.

(** [new CommitQueue()] *)
Definition init : State :=
  {| queue := []; running := false; awaiting := [];
     console := []; trace := []; entries := 0 |}.

(** The [catch (err)] of [_run]. *)
Definition caught (err : Err) : Line :=
  Error [AStr "Commit task error:"; AErr err].

(** [while (this.queue.length) { const task = this.queue.shift(); try {
    await task(); } catch (err) { console.error(...) } }
    this.running = false;] run from the loop test until the invocation
    suspends at [await] or returns. [q] is [this.queue]. *)
Fixpoint loop (q : list T) (s : State) : State :=
  match q with
  | [] =>
      {| queue := []; running := false; awaiting := awaiting s;
         console := console s; trace := trace s; entries := entries s |}
  | task :: q' =>
      match call task with
      | Throws err =>
          loop q'
            {| queue := q'; running := running s; awaiting := awaiting s;
               console := console s ++ [caught err];
               trace := trace s ++ [Started task; Finished task (Rejected err)];
               entries := entries s |}
      | Returns =>
          {| queue := q'; running := running s;
             awaiting := awaiting s ++ [task];
             console := console s;
             trace := trace s ++ [Started task];
             entries := entries s |}
      end
  end.

(** [async _run()] up to its first suspension. *)
Definition _run (s : State) : State :=
  if running s then s
  else
    loop (queue s)
      {| queue := queue s; running := true; awaiting := awaiting s;
         console := console s; trace := trace s;
         entries := S (entries s) |}.

(** [push(task)] *)
Definition push (task : T) (s : State) : State :=
  _run
    {| queue := queue s ++ [task]; running := running s;
       awaiting := awaiting s; console := console s; trace := trace s;
       entries := entries s |}.

(** The promise awaited by the [i]-th suspended invocation settles: that
    invocation resumes after [await], runs the [catch] on a rejection, and
    goes back to the loop test. It does not pass the guard again. *)
Definition settle (i : nat) (o : Outcome) (s : State) : State :=
  match awaiting s !! i with
  | None => s
  | Some task =>
      loop (queue s)
        {| queue := queue s; running := running s;
           awaiting := take i (awaiting s) ++ drop (S i) (awaiting s);
           console :=
             match o with
             | Fulfilled => console s
             | Rejected err => console s ++ [caught err]
             end;
           trace := trace s ++ [Finished task o];
           entries := entries s |}
  end.

Definition step (s : State) (e : Event T) : State :=
  match e with
  | Push task => push task s
  | Settle i o => settle i o s
  end.

Definition run (s : State) (evs : list (Event T)) : State :=
  fold_left step evs s.

(** The tasks that were called, oldest first, and those that settled. *)
Fixpoint calls (tr : list (Obs T)) : list T :=
  match tr with
  | [] => []
  | Started t :: tr => t :: calls tr
  | Finished _ _ :: tr => calls tr
  end.

Fixpoint settlements (tr : list (Obs T)) : list (T * Outcome) :=
  match tr with
  | [] => []
  | Started _ :: tr => settlements tr
  | Finished t o :: tr => (t, o) :: settlements tr
  end.

Definition started (s : State) : list T := calls (trace s).

Definition finished (s : State) : list (T * Outcome) := settlements (trace s).

(** Between two events: at most one invocation of [_run] is suspended,
    [running] tells whether one is, and an idle queue is empty. *)
Definition stable (s : State) : Prop :=
  length (awaiting s) <= 1 /\
  (running s = true <-> awaiting s <> []) /\
  (running s = false -> queue s = []).

(** The trace of tasks run one after the other, each settled before the
    next is called. *)
Definition one_by_one (done : list (T * Outcome)) : list (Obs T) :=
  flat_map (fun d => [Started (fst d); Finished (fst d) (snd d)]) done.

End Queue.

Arguments State : clear implicits.

(** The task functions of a queue whose tasks carry tickets. *)
Definition with_ticket {X : Type} (call : X -> Called) (t : nat * X) : Called :=
  call (snd t).

(** The state of a queue whose tasks carry tickets, after [n] calls of
    [push]: the trace is a run of tasks one by one, then the task being
    awaited if there is one; and the tickets of the tasks settled, awaited
    and queued are [0], [1], ... [n - 1] in this order. *)
Definition ticketed {X : Type} (n : nat) (s : State (nat * X)) : Prop :=
  exists done : list ((nat * X) * Outcome),
    trace s = one_by_one done ++ map Started (awaiting s) /\
    map fst (map fst done ++ awaiting s ++ queue s) = seq 0 n /\
    stable s.

(** Tickets: the [n]-th call of [push] is given the number [n]. The queue
    never looks at it: see [forget]. *)
Fixpoint number {X : Type} (n : nat) (evs : list (Event X))
  : list (Event (nat * X)) :=
  match evs with
  | [] => []
  | Push x :: evs => Push (n, x) :: number (S n) evs
  | Settle i o :: evs => Settle i o :: number n evs
  end.

Definition forget_obs {X : Type} (ob : Obs (nat * X)) : Obs X :=
  match ob with
  | Started t => Started (snd t)
  | Finished t o => Finished (snd t) o
  end.

(** A state without its tickets. *)
Definition forget {X : Type} (s : State (nat * X)) : State X :=
  {| queue := map snd (queue s); running := running s;
     awaiting := map snd (awaiting s); console := console s;
     trace := map forget_obs (trace s); entries := entries s |}.

Fixpoint pushes {X : Type} (evs : list (Event X)) : nat :=
  match evs with
  | [] => 0
  | Push _ :: evs => S (pushes evs)
  | Settle _ _ :: evs => pushes evs
  end.

(** How many times the promise awaited by the first suspended invocation is
    settled. *)
Fixpoint settles {X : Type} (evs : list (Event X)) : nat :=
  match evs with
  | [] => 0
  | Settle 0 _ :: evs => S (settles evs)
  | _ :: evs => settles evs
  end.

End CommitQueue.

(** * Dates and their two renderings *)

(** A point in time by its UTC fields, to the millisecond: what [new Date()]
    and SQLite's ['now'] read from the clock. [month] and [day] count from 1. *)
Record Date := {
  year : N; month : N; day : N;
  hours : N; minutes : N; seconds : N; milliseconds : N
}.

(** The fields of a real instant in the years 0 to 9999. *)
Definition valid_date (d : Date) : Prop :=
  (year d <= 9999 /\ 1 <= month d <= 12 /\ 1 <= day d <= 31 /\ hours d < 24 /\
   minutes d < 60 /\ seconds d < 60 /\ milliseconds d < 1000)%N.

Definition digit (n : N) : ascii := ascii_of_N (48 + n mod 10).

Definition pad2 (n : N) (rest : string) : string :=
  String (digit (n / 10)) (String (digit n) rest).

Definition pad3 (n : N) (rest : string) : string :=
  String (digit (n / 100)) (pad2 n rest).

Definition pad4 (n : N) (rest : string) : string :=
  String (digit (n / 1000)) (pad3 n rest).

Definition pad6 (n : N) (rest : string) : string :=
  String (digit (n / 100000)) (String (digit (n / 10000)) (pad4 n rest)).

(** [Date.prototype.toISOString]: [YYYY-MM-DDTHH:mm:ss.sssZ], with a signed
    six-digit year beyond 9999. *)
Definition toISOString (d : Date) : string :=
  let tail :=
    String "-" (pad2 (month d) (String "-" (pad2 (day d) (String "T"
      (pad2 (hours d) (String ":" (pad2 (minutes d) (String ":"
        (pad2 (seconds d) (String "." (pad3 (milliseconds d) "Z"))))))))))) in
  if (year d <=? 9999)%N then pad4 (year d) tail
  else String "+" (pad6 (year d) tail).

(** SQLite's [datetime('now')]: [YYYY-MM-DD HH:MM:SS]. *)
Definition datetime (d : Date) : string :=
  pad4 (year d) (String "-" (pad2 (month d) (String "-" (pad2 (day d)
    (String " " (pad2 (hours d) (String ":" (pad2 (minutes d) (String ":"
      (pad2 (seconds d) "")))))))))).

(** [s.replace(/[:.]/g, '-')], one character at a time. *)
Definition dash (c : ascii) : ascii :=
  if (Ascii.eqb c ":" || Ascii.eqb c ".")%bool then "-"%char else c.

Fixpoint replace_colon_dot (s : string) : string :=
  match s with
  | EmptyString => EmptyString
  | String c s' => String (dash c) (replace_colon_dot s')
  end.

(** The double quote character. *)
Definition dq : ascii := ascii_of_N 34.

(** [s.replace(/"/g, '\\"')]: a backslash before every double quote. *)
Fixpoint escape_dq (s : string) : string :=
  match s with
  | EmptyString => EmptyString
  | String c s' =>
      if Ascii.eqb c dq then String "\" (String dq (escape_dq s'))
      else String c (escape_dq s')
  end.

(** * JSON *)

#[local] Unset Elimination Schemes.
Inductive JSON :=
| JNull
| JNum (n : Z)
| JStr (s : string)
| JArr (items : list JSON)
| JObj (props : list (string * JSON)).
#[local] Set Elimination Schemes.

Definition hex_digit (n : N) : ascii :=
  if (n <? 10)%N then ascii_of_N (48 + n) else ascii_of_N (87 + n).

(** [QuoteJSONString] of ECMA-262, on the bytes of a UTF-8 string. *)
Fixpoint escape_json (s : string) : string :=
  match s with
  | EmptyString => EmptyString
  | String c s' =>
      let n := N_of_ascii c in
      (if (n =? 8)%N then "\b"
       else if (n =? 9)%N then "\t"
       else if (n =? 10)%N then "\n"
       else if (n =? 12)%N then "\f"
       else if (n =? 13)%N then "\r"
       else if (n =? 34)%N then String "\" (String dq "")
       else if (n =? 92)%N then "\\"
       else if (n <? 32)%N then
         "\u00" +:+ String (hex_digit (n / 16)) (String (hex_digit (n mod 16)) "")
       else String c "")
      +:+ escape_json s'
  end.

Definition quote_json (s : string) : string :=
  String dq (escape_json s +:+ String dq "").

Definition newline : string := String (ascii_of_N 10) "".

(** [JSON.stringify(value, null, 2)], for the values above: [indent] is the
    current indentation, the gap is two spaces. *)
Fixpoint stringify (indent : string) (v : JSON) : string :=
  match v with
  | JNull => "null"
  | JNum n => pretty n
  | JStr s => quote_json s
  | JArr [] => "[]"
  | JArr items =>
      let inner := indent +:+ "  " in
      "[" +:+ newline +:+ inner
      +:+ String.concat ("," +:+ newline +:+ inner) (map (stringify inner) items)
      +:+ newline +:+ indent +:+ "]"
  | JObj [] => "{}"
  | JObj props =>
      let inner := indent +:+ "  " in
      "{" +:+ newline +:+ inner
      +:+ String.concat ("," +:+ newline +:+ inner)
           (map (fun kv => quote_json (fst kv) +:+ ": " +:+ stringify inner (snd kv))
                props)
      +:+ newline +:+ indent +:+ "}"
  end.

Definition JSON_stringify (v : JSON) : string := stringify "" v.

(** * The SQLite store (issues.sqlite) *)

(** A field of [req.body] as the handlers read it: absent, [null] or a
    string. *)
Inductive JsVal :=
| undefined
| null
| str (s : string).

(** JavaScript truthiness, as in [!title] and [a || b]. *)
Definition truthy (v : JsVal) : bool :=
  match v with
  | str s => negb (String.eqb s "")
  | _ => false
  end.

(** [a || b] *)
Definition js_or (a b : JsVal) : JsVal := if truthy a then a else b.

(** A value bound to a [?] of a statement: [undefined] and [null] bind NULL. *)
Definition sql_param (v : JsVal) : option string :=
  match v with
  | str s => Some s
  | _ => None
  end.

Definition js_of_sql (v : option string) : JsVal :=
  match v with
  | Some s => str s
  | None => null
  end.

(** [COALESCE(?, column)] for a nullable column and for a NOT NULL one. *)
Definition COALESCE (p col : option string) : option string :=
  match p with
  | Some _ => p
  | None => col
  end.

Definition COALESCE_text (p : option string) (col : string) : string :=
  match p with
  | Some s => s
  | None => col
  end.

(** A row of [issues]. *)
Record Issue := {
  id : Z;
  title : string;
  description : option string;
  status : string;
  assignee : option string;
  created_at : string;
  updated_at : string
}.

(** A row of [comments]. *)
Record Comment := {
  c_id : Z;
  c_issue_id : Z;
  c_author : option string;
  c_text : option string;
  c_created_at : string
}.

(** The two tables. [issues_seq] and [comments_seq] are the largest row ids
    handed out so far (AUTOINCREMENT); [comments] is kept in row-id order. *)
Record Db := {
  issues : gmap Z Issue;
  issues_seq : Z;
  comments : list Comment;
  comments_seq : Z
}.

Definition json_of_sql (v : option string) : JSON :=
  match v with
  | Some s => JStr s
  | None => JNull
  end.

Definition comment_json (c : Comment) : JSON :=
  JObj [("id", JNum (c_id c)); ("issue_id", JNum (c_issue_id c));
        ("author", json_of_sql (c_author c)); ("text", json_of_sql (c_text c));
        ("created_at", JStr (c_created_at c))].

(** The object [db.get] returns for a row of [issues]. *)
Definition row_props (r : Issue) : list (string * JSON) :=
  [("id", JNum (id r)); ("title", JStr (title r));
   ("description", json_of_sql (description r)); ("status", JStr (status r));
   ("assignee", json_of_sql (assignee r));
   ("created_at", JStr (created_at r)); ("updated_at", JStr (updated_at r))].

Definition row_json (r : Issue) : JSON := JObj (row_props r).

(** The same object after [issue.comments = cs]. *)
Definition issue_json (r : Issue) (cs : list Comment) : JSON :=
  JObj (row_props r ++ [("comments", JArr (map comment_json cs))]).

(** [ORDER BY created_at]: rows with equal keys stay in row-id order. *)
Fixpoint insert_by_created_at (c : Comment) (l : list Comment) : list Comment :=
  match l with
  | [] => [c]
  | x :: l' =>
      if String.ltb (c_created_at x) (c_created_at c)
      then x :: insert_by_created_at c l'
      else c :: x :: l'
  end.

Definition order_by_created_at (l : list Comment) : list Comment :=
  fold_right insert_by_created_at [] l.

(** [SELECT * FROM comments WHERE issue_id = ? ORDER BY created_at] *)
Definition select_comments (i : Z) (d : Db) : list Comment :=
  order_by_created_at (List.filter (fun c => Z.eqb (c_issue_id c) i) (comments d)).

(** [SELECT * FROM comments WHERE id = ?] *)
Definition select_comment (i : Z) (d : Db) : option Comment :=
  List.find (fun c => Z.eqb (c_id c) i) (comments d).

(** [INSERT INTO issues (title, description, assignee) VALUES (?, ?, ?)];
    [None] when the NOT NULL constraint on [title] rejects the row. *)
Definition insert_issue (now : Date) (p_title p_description p_assignee : option string)
    (d : Db) : option (Z * Db) :=
  match p_title with
  | None => None
  | Some t =>
      let i := (issues_seq d + 1)%Z in
      Some (i,
            {| issues :=
                 <[ i := {| id := i; title := t; description := p_description;
                            status := "open"; assignee := p_assignee;
                            created_at := datetime now;
                            updated_at := datetime now |} ]> (issues d);
               issues_seq := i;
               comments := comments d;
               comments_seq := comments_seq d |})
  end.

(** [UPDATE issues SET title = COALESCE(?, title), description =
    COALESCE(?, description), status = COALESCE(?, status), assignee =
    COALESCE(?, assignee), updated_at = datetime('now') WHERE id = ?] *)
Definition update_issue (now : Date)
    (p_title p_description p_status p_assignee : option string) (i : Z)
    (d : Db) : Db :=
  match issues d !! i with
  | None => d
  | Some r =>
      {| issues :=
           <[ i := {| id := id r;
                      title := COALESCE_text p_title (title r);
                      description := COALESCE p_description (description r);
                      status := COALESCE_text p_status (status r);
                      assignee := COALESCE p_assignee (assignee r);
                      created_at := created_at r;
                      updated_at := datetime now |} ]> (issues d);
         issues_seq := issues_seq d;
         comments := comments d;
         comments_seq := comments_seq d |}
  end.

(** [UPDATE issues SET updated_at = datetime('now') WHERE id = ?] *)
Definition touch_issue (now : Date) (i : Z) (d : Db) : Db :=
  update_issue now None None None None i d.

(** [INSERT INTO comments (issue_id, author, text) VALUES (?, ?, ?)] *)
Definition insert_comment (now : Date) (i : Z) (p_author p_text : option string)
    (d : Db) : Z * Db :=
  let c := (comments_seq d + 1)%Z in
  (c,
   {| issues := issues d;
      issues_seq := issues_seq d;
      comments :=
        comments d ++
        [{| c_id := c; c_issue_id := i; c_author := p_author; c_text := p_text;
            c_created_at := datetime now |}];
      comments_seq := c |}).

(** * Commit tasks *)

(** Paths are written relative to [REPO_DIR] (the directory of server.js,
    known at run time only), so [path.relative(REPO_DIR, p)] is [p]. *)
Definition LOGS_DIR : string := "issue_logs".

Definition path_join (dir name : string) : string := dir +:+ "/" +:+ name.

Definition path_relative_REPO_DIR (p : string) : string := p.

(** The closure [makeCommitTask(filename, content, message)] returns. *)
Record CommitTask := {
  task_filename : string;
  task_content : JSON;
  task_message : string
}.

Definition makeCommitTask (filename : string) (content : JSON) (message : string)
  : CommitTask :=
  {| task_filename := filename; task_content := content;
     task_message := message |}.

(** An async function does not throw at the call: it returns a promise. *)
Definition call_task (t : CommitTask) : Called := Returns.

(** What a task works on: the files under [REPO_DIR], the commands
    [execAsync] has run to completion, and the console. *)
Record Repo := {
  files : gmap string string;
  shell : list string;
  out : list Line
}.

(** The environment of one execution of a task: which file writes and which
    commands fail, and with what error. *)
Record Faults := {
  fs_fault : string -> option Err;
  exec_fault : string -> option Err
}.

Definition no_faults : Faults :=
  {| fs_fault := fun _ => None; exec_fault := fun _ => None |}.

(** Code that awaits promises which may reject. *)
Definition IO (A : Type) : Type := Faults -> Repo -> (Err + A) * Repo.

Definition io_ret {A} (a : A) : IO A := fun _ r => (inr a, r).

Definition io_bind {A B} (m : IO A) (k : A -> IO B) : IO B :=
  fun f r =>
    match m f r with
    | (inl e, r') => (inl e, r')
    | (inr a, r') => k a f r'
    end.

(** [try { body } catch (err) { handler }] *)
Definition try_catch {A} (body : IO A) (handler : Err -> IO A) : IO A :=
  fun f r =>
    match body f r with
    | (inl e, r') => handler e f r'
    | (inr a, r') => (inr a, r')
    end.

Declare Scope io_scope.
Delimit Scope io_scope with io.
Notation "m ;; k" := (io_bind m (fun _ => k))
  (at level 100, k at level 200, right associativity) : io_scope.

(** [fs.writeFile(path, data, 'utf8')]: the default flag ['w'] creates the
    file or replaces what it held. *)
Definition fs_writeFile (path data : string) : IO unit :=
  fun f r =>
    match fs_fault f path with
    | Some e => (inl e, r)
    | None =>
        (inr tt, {| files := <[ path := data ]> (files r);
                    shell := shell r; out := out r |})
    end.

(** [execAsync(command, { cwd: REPO_DIR })] *)
Definition execAsync (command : string) : IO unit :=
  fun f r =>
    match exec_fault f command with
    | Some e => (inl e, r)
    | None =>
        (inr tt, {| files := files r; shell := shell r ++ [command];
                    out := out r |})
    end.

Definition console_print (l : Line) : IO unit :=
  fun _ r =>
    (inr tt, {| files := files r; shell := shell r; out := out r ++ [l] |}).

(** [`git add "${path.relative(REPO_DIR, filePath)}"`] *)
Definition git_add (filePath : string) : string :=
  "git add " +:+ String dq (path_relative_REPO_DIR filePath) +:+ String dq "".

(** [`git commit -m "${message.replace(/"/g, '\\"')}" --no-verify`] *)
Definition git_commit (message_ : string) : string :=
  "git commit -m " +:+ String dq (escape_dq message_) +:+ String dq " --no-verify".

(** [err.stderr || err.message] *)
Definition stderr_or_message (err : Err) : string :=
  if String.eqb (stderr err) "" then message err else stderr err.

(** The body of the async function [makeCommitTask] returns. *)
Definition task_body (t : CommitTask) : IO unit :=
  (let filePath := path_join LOGS_DIR (task_filename t) in
   fs_writeFile filePath (JSON_stringify (task_content t)) ;;
   try_catch
     (execAsync (git_add filePath) ;;
      execAsync (git_commit (task_message t)) ;;
      console_print (Log [AStr "Committed"; AStr filePath]))
     (fun err =>
        console_print (Error [AStr "Git error:"; AStr (stderr_or_message err)])))%io.


(** How the promise of a task settles. *)
Definition outcome {A} (r : Err + A) : Outcome :=
  match r with
  | inl e => Rejected e
  | inr _ => Fulfilled
  end.

(** * The server *)

(** What a handler does to the outside, in the order it does it. The
    database calls carry the text of their statement. *)
Inductive Effect :=
| DbRun (sql : string)
| DbGet (sql : string)
| DbAll (sql : string)
| Emit (event : string) (payload : JSON)
| Enqueue (task : CommitTask)
| Respond (status_code : nat) (body : JSON)
| Unhandled (what : string).

(** The process: the database, the clock, the one [commitQueue] (whose
    console is the console of the process), the files under [REPO_DIR], the
    commands run there, and the journal of the handlers' effects. *)
Record World := {
  db : Db;
  clock : Date;
  commitQueue : CommitQueue.State CommitTask;
  disk : gmap string string;
  commands : list string;
  journal : list Effect
}.

(** The fields of [req.body] the handlers destructure. *)
Record Body := {
  body_title : JsVal;
  body_description : JsVal;
  body_status : JsVal;
  body_assignee : JsVal;
  body_author : JsVal;
  body_text : JsVal
}.

(** A handler: it changes the world and either runs to its end or stops at an
    exception nobody catches ([None]). A handler runs from its first line to
    its last without another handler or the worker in between. *)
Definition H (A : Type) : Type := World -> option A * World.

Definition h_ret {A} (a : A) : H A := fun w => (Some a, w).

Definition h_bind {A B} (m : H A) (k : A -> H B) : H B :=
  fun w =>
    match m w with
    | (Some a, w') => k a w'
    | (None, w') => (None, w')
    end.

Declare Scope handler_scope.
Delimit Scope handler_scope with handler.
Notation "x <- m ;; k" := (h_bind m (fun x => k))
  (at level 100, m at next level, k at level 200, right associativity)
  : handler_scope.
Notation "m ;; k" := (h_bind m (fun _ => k))
  (at level 100, k at level 200, right associativity) : handler_scope.

Definition record (e : Effect) : H unit :=
  fun w =>
    (Some tt,
     {| db := db w; clock := clock w; commitQueue := commitQueue w;
        disk := disk w; commands := commands w;
        journal := journal w ++ [e] |}).

Definition with_db (d : Db) : H unit :=
  fun w =>
    (Some tt,
     {| db := d; clock := clock w; commitQueue := commitQueue w;
        disk := disk w; commands := commands w; journal := journal w |}).

Definition throw {A} (what : string) : H A :=
  fun w =>
    (None,
     {| db := db w; clock := clock w; commitQueue := commitQueue w;
        disk := disk w; commands := commands w;
        journal := journal w ++ [Unhandled what] |}).

Definition INSERT_issue : string :=
  "INSERT INTO issues (title, description, assignee) VALUES (?, ?, ?)".
Definition SELECT_issue : string := "SELECT * FROM issues WHERE id = ?".
Definition UPDATE_issue : string :=
  "UPDATE issues SET title = COALESCE(?, title), description = COALESCE(?, description), status = COALESCE(?, status), assignee = COALESCE(?, assignee), updated_at = datetime('now') WHERE id = ?".
Definition SELECT_comments : string :=
  "SELECT * FROM comments WHERE issue_id = ? ORDER BY created_at".
Definition INSERT_comment : string :=
  "INSERT INTO comments (issue_id, author, text) VALUES (?, ?, ?)".
Definition SELECT_comment : string := "SELECT * FROM comments WHERE id = ?".
Definition TOUCH_issue : string :=
  "UPDATE issues SET updated_at = datetime('now') WHERE id = ?".

(** [await db.run(INSERT_issue, [title, description, assignee])], giving
    [result.lastID]. *)
Definition db_run_INSERT_issue (p_title p_description p_assignee : JsVal) : H Z :=
  (record (DbRun INSERT_issue) ;;
   fun w =>
     match insert_issue (clock w) (sql_param p_title) (sql_param p_description)
                        (sql_param p_assignee) (db w) with
     | Some (i, d) => (with_db d ;; h_ret i) w
     | None => throw "SQLITE_CONSTRAINT: NOT NULL constraint failed: issues.title" w
     end)%handler.

(** [await db.get(SELECT_issue, [id])] *)
Definition db_get_issue (i : Z) : H (option Issue) :=
  (record (DbGet SELECT_issue) ;; fun w => (Some (issues (db w) !! i), w))%handler.

(** [await db.run(UPDATE_issue, [title, description, status, assignee, id])] *)
Definition db_run_UPDATE_issue (p_title p_description p_status p_assignee : JsVal)
    (i : Z) : H unit :=
  (record (DbRun UPDATE_issue) ;;
   fun w =>
     with_db (update_issue (clock w) (sql_param p_title) (sql_param p_description)
                           (sql_param p_status) (sql_param p_assignee) i (db w)) w)%handler.

(** [await db.all(SELECT_comments, [id])] *)
Definition db_all_comments (i : Z) : H (list Comment) :=
  (record (DbAll SELECT_comments) ;;
   fun w => (Some (select_comments i (db w)), w))%handler.

(** [await db.run(INSERT_comment, [id, author, text])], giving
    [result.lastID]. *)
Definition db_run_INSERT_comment (i : Z) (p_author p_text : JsVal) : H Z :=
  (record (DbRun INSERT_comment) ;;
   fun w =>
     let '(c, d) := insert_comment (clock w) i (sql_param p_author)
                                   (sql_param p_text) (db w) in
     (with_db d ;; h_ret c) w)%handler.

(** [await db.get(SELECT_comment, [commentId])] *)
Definition db_get_comment (c : Z) : H (option Comment) :=
  (record (DbGet SELECT_comment) ;;
   fun w => (Some (select_comment c (db w)), w))%handler.

(** [await db.run(TOUCH_issue, [id])] *)
Definition db_run_TOUCH_issue (i : Z) : H unit :=
  (record (DbRun TOUCH_issue) ;;
   fun w => with_db (touch_issue (clock w) i (db w)) w)%handler.

(** [io.emit(event, payload)] *)
Definition io_emit (event : string) (payload : JSON) : H unit :=
  record (Emit event payload).

(** [new Date().toISOString().replace(/[:.]/g,'-')] *)
Definition timestamp : H string :=
  fun w => (Some (replace_colon_dot (toISOString (clock w))), w).

(** [commitQueue.push(task)] *)
Definition commitQueue_push (task : CommitTask) : H unit :=
  (record (Enqueue task) ;;
   fun w =>
     (Some tt,
      {| db := db w; clock := clock w;
         commitQueue := CommitQueue.push call_task task (commitQueue w);
         disk := disk w; commands := commands w; journal := journal w |}))%handler.

(** [res.status(code).json(body)] *)
Definition res_status_json (code : nat) (body : JSON) : H unit :=
  record (Respond code body).

(** Reading a property of, or assigning one on, what [db.get] returned:
    a TypeError when it returned [undefined]. *)
Definition object {A} (o : option A) : H A :=
  match o with
  | Some r => h_ret r
  | None => throw "TypeError: Cannot read properties of undefined"
  end.

Definition error_json (text : string) : JSON := JObj [("error", JStr text)].

(** [String(v)] inside a template literal. *)
Definition template (v : JsVal) : string :=
  match v with
  | undefined => "undefined"
  | null => "null"
  | str s => s
  end.

(** The names of the log files. [ts] is the timestamp with its colons and
    dot replaced. *)
Definition create_filename (issueId : Z) (ts : string) : string :=
  "create-issue-" +:+ pretty issueId +:+ "-" +:+ ts +:+ ".json".

Definition update_filename (id : Z) (ts : string) : string :=
  "update-issue-" +:+ pretty id +:+ "-" +:+ ts +:+ ".json".

Definition comment_filename (id commentId : Z) (ts : string) : string :=
  "comment-issue-" +:+ pretty id +:+ "-" +:+ pretty commentId +:+ "-" +:+ ts
  +:+ ".json".

(** [app.post('/api/issues', ...)] *)
Definition post_issues (body : Body) : H unit :=
  (let title_ := body_title body in
   let description_ := body_description body in
   let assignee_ := body_assignee body in
   if negb (truthy title_) then
     res_status_json 400 (error_json "title required")
   else
     issueId <- db_run_INSERT_issue title_ (js_or description_ (str ""))
                                    (js_or assignee_ null) ;;
     got <- db_get_issue issueId ;;
     row <- object got ;;
     let issue := issue_json row [] in
     io_emit "issue:created" issue ;;
     ts <- timestamp ;;
     let filename := create_filename issueId ts in
     let message_ :=
       "Create issue #" +:+ pretty issueId +:+ ": " +:+ title row in
     commitQueue_push
       (makeCommitTask filename
          (JObj [("action", JStr "create"); ("issue", issue)]) message_) ;;
     res_status_json 201 issue)%handler.

(** [app.put('/api/issues/:id', ...)]; [id] is [Number(req.params.id)].
    A parameter that is not the number of a row (a fraction, NaN) behaves as
    an integer that is no row's id. *)
Definition put_issue (id_ : Z) (body : Body) : H unit :=
  (let title_ := body_title body in
   let description_ := body_description body in
   let status_ := body_status body in
   let assignee_ := body_assignee body in
   existing <- db_get_issue id_ ;;
   match existing with
   | None => res_status_json 404 (error_json "Issue not found")
   | Some existing =>
       db_run_UPDATE_issue title_ description_ status_ assignee_ id_ ;;
       got <- db_get_issue id_ ;;
       cs <- db_all_comments id_ ;;
       row <- object got ;;
       let updated := issue_json row cs in
       io_emit "issue:updated" updated ;;
       ts <- timestamp ;;
       let filename := update_filename id_ ts in
       let message_ :=
         "Update issue #" +:+ pretty id_ +:+ ": set "
         +:+ template (js_or status_ (str "no-status-change")) in
       commitQueue_push
         (makeCommitTask filename
            (JObj [("action", JStr "update"); ("before", row_json existing);
                   ("after", updated)]) message_) ;;
       res_status_json 200 updated
   end)%handler.

(** A property holding [undefined] is left out of the JSON. *)
Definition optional_prop (key : string) (c : option Comment)
  : list (string * JSON) :=
  match c with
  | Some c => [(key, comment_json c)]
  | None => []
  end.

(** [app.post('/api/issues/:id/comments', ...)] *)
Definition post_comments (id_ : Z) (body : Body) : H unit :=
  (let author_ := body_author body in
   let text_ := body_text body in
   if negb (truthy text_) then
     res_status_json 400 (error_json "text required")
   else
     issue <- db_get_issue id_ ;;
     match issue with
     | None => res_status_json 404 (error_json "Issue not found")
     | Some _ =>
         commentId <- db_run_INSERT_comment id_ (js_or author_ (str "anonymous"))
                                            text_ ;;
         comment <- db_get_comment commentId ;;
         db_run_TOUCH_issue id_ ;;
         got <- db_get_issue id_ ;;
         cs <- db_all_comments id_ ;;
         row <- object got ;;
         let updatedIssue := issue_json row cs in
         io_emit "issue:comment"
           (JObj (("issue", updatedIssue) :: optional_prop "comment" comment)) ;;
         ts <- timestamp ;;
         let filename := comment_filename id_ commentId ts in
         c <- object comment ;;
         let message_ :=
           "Comment on issue #" +:+ pretty id_ +:+ " by "
           +:+ template (js_or (js_of_sql (c_author c)) (str "anon")) in
         commitQueue_push
           (makeCommitTask filename
              (JObj [("action", JStr "comment"); ("issue", updatedIssue);
                     ("comment", comment_json c)]) message_) ;;
         res_status_json 201 (comment_json c)
     end)%handler.

(** What happens to the process: a request is handled, the clock moves, or
    the task awaited by the [i]-th suspended worker runs its file write and
    its two git commands in the environment [f] and its promise settles. *)
Inductive Input :=
| POST_issues (body : Body)
| PUT_issue (id_ : Z) (body : Body)
| POST_comments (id_ : Z) (body : Body)
| Tick (d : Date)
| TaskDone (i : nat) (f : Faults).

Definition handle (h : H unit) (w : World) : World := snd (h w).

Definition task_settles (i : nat) (f : Faults) (w : World) : World :=
  let cq := commitQueue w in
  match CommitQueue.awaiting cq !! i with
  | None => w
  | Some task =>
      let '(r, repo) :=
        task_body task f
          {| files := disk w; shell := commands w;
             out := CommitQueue.console cq |} in
      {| db := db w; clock := clock w;
         commitQueue :=
           CommitQueue.settle call_task i (outcome r)
             {| CommitQueue.queue := CommitQueue.queue cq;
                CommitQueue.running := CommitQueue.running cq;
                CommitQueue.awaiting := CommitQueue.awaiting cq;
                CommitQueue.console := out repo;
                CommitQueue.trace := CommitQueue.trace cq;
                CommitQueue.entries := CommitQueue.entries cq |};
         disk := files repo; commands := shell repo; journal := journal w |}
  end.

Definition serve (w : World) (i : Input) : World :=
  match i with
  | POST_issues body => handle (post_issues body) w
  | PUT_issue id_ body => handle (put_issue id_ body) w
  | POST_comments id_ body => handle (post_comments id_ body) w
  | Tick d =>
      {| db := db w; clock := d; commitQueue := commitQueue w;
         disk := disk w; commands := commands w; journal := journal w |}
  | TaskDone i f => task_settles i f w
  end.

Definition serve_all (w : World) (inputs : list Input) : World :=
  fold_left serve inputs w.

(** The process after start-up on a fresh database, at time [d]. *)
Definition boot (d : Date) : World :=
  {| db := {| issues := ∅; issues_seq := 0; comments := []; comments_seq := 0 |};
     clock := d; commitQueue := CommitQueue.init;
     disk := ∅; commands := []; journal := [] |}.

(** What AUTOINCREMENT and the handlers keep true of the tables: no row has
    an id beyond the last one handed out, and a comment belongs to an issue
    that was created. *)
Definition db_ok (d : Db) : Prop :=
  (forall i r, issues d !! i = Some r -> (i <= issues_seq d)%Z) /\
  Forall (fun c => (c_id c <= comments_seq d)%Z /\
                   (c_issue_id c <= issues_seq d)%Z) (comments d).

(** What [SELECT_issue] and [SELECT_comments] give for issue [i]: the row with
    its comments. *)
Definition snapshot (d : Db) (i : Z) : option JSON :=
  match issues d !! i with
  | Some r => Some (issue_json r (select_comments i d))
  | None => None
  end.

(** The naming scheme in the words of the specification:
    [{kind}-{subjectId}-{timestamp}.json]. *)
Definition spec_entry_name (kind : string) (subjectId : Z) (ts : string) : string :=
  kind +:+ "-" +:+ pretty subjectId +:+ "-" +:+ ts +:+ ".json".

(** The tasks the handlers pushed, oldest first. *)
Fixpoint enqueued (j : list Effect) : list CommitTask :=
  match j with
  | [] => []
  | Enqueue task :: j => task :: enqueued j
  | _ :: j => enqueued j
  end.

(** * A sample run *)

Module Sample.

Definition t0 : Date :=
  {| year := 2024; month := 3; day := 9;
     hours := 7; minutes := 5; seconds := 59; milliseconds := 42 |}.

(** One millisecond later. *)
Definition t1 : Date :=
  {| year := 2024; month := 3; day := 9;
     hours := 7; minutes := 5; seconds := 59; milliseconds := 43 |}.

Definition no_body : Body :=
  {| body_title := undefined; body_description := undefined;
     body_status := undefined; body_assignee := undefined;
     body_author := undefined; body_text := undefined |}.

Definition new_issue : Body :=
  {| body_title := str "x"; body_description := undefined;
     body_status := undefined; body_assignee := undefined;
     body_author := undefined; body_text := undefined |}.

Definition close : Body :=
  {| body_title := undefined; body_description := undefined;
     body_status := str "closed"; body_assignee := undefined;
     body_author := undefined; body_text := undefined |}.

Definition reopen : Body :=
  {| body_title := undefined; body_description := undefined;
     body_status := str "open"; body_assignee := undefined;
     body_author := undefined; body_text := undefined |}.

Definition hello : Body :=
  {| body_title := undefined; body_description := undefined;
     body_status := undefined; body_assignee := undefined;
     body_author := undefined; body_text := str "hi" |}.

(** A body with a title, a status and a text, for any of the handlers. *)
Definition full : Body :=
  {| body_title := str "hi"; body_description := undefined;
     body_status := str "closed"; body_assignee := null;
     body_author := undefined; body_text := str "hi" |}.

Definition disk_full : Err := {| message := "ENOSPC"; stderr := "" |}.

Definition locked : Err :=
  {| message := "Command failed"; stderr := "fatal: index.lock exists" |}.


(** Every git command fails. *)
Definition git_down : Faults :=
  {| fs_fault := fun _ => None; exec_fault := fun _ => Some locked |}.

(** An issue is created; the task that records it is being awaited. *)
Definition created : World := serve (boot t0) (POST_issues new_issue).

Definition create_task : CommitTask :=
  Eval vm_compute in
    match CommitQueue.awaiting (commitQueue created) with
    | t :: _ => t
    | [] => makeCommitTask "" JNull ""
    end.

(** The row of that issue. *)
Definition issue1 : Issue :=
  {| id := 1; title := "x"; description := Some ""; status := "open";
     assignee := None; created_at := "2024-03-09 07:05:59";
     updated_at := "2024-03-09 07:05:59" |}.



(** An issue is created and updated twice within one millisecond. *)
Definition two_updates : World :=
  serve_all (boot t0) [POST_issues new_issue; PUT_issue 1 close; PUT_issue 1 reopen].

(** An issue is created and commented on twice. *)
Definition two_comments : World :=
  serve_all (boot t0) [POST_issues new_issue; POST_comments 1 hello;
                       POST_comments 1 hello].

End Sample.

(** * More of the queue and of the server *)

From Stdlib Require Import Sorted Permutation.

Section QueueViews.
Import CommitQueue.
Context {T : Type}.

(** The tasks handed to [push], in the order of the calls. *)
Fixpoint pushed (evs : list (Event T)) : list T :=
  match evs with
  | [] => []
  | Push task :: evs => task :: pushed evs
  | Settle _ _ :: evs => pushed evs
  end.

(** Every task the queue knows of: those settled, the one awaited, those
    waiting, in this order. *)
Definition all_tasks (s : State T) : list T :=
  map fst (finished s) ++ awaiting s ++ queue s.

(** What the [catch] of [_run] prints for a list of settlements. *)
Fixpoint logged (fin : list (T * Outcome)) : list Line :=
  match fin with
  | [] => []
  | (_, Rejected err) :: fin => caught err :: logged fin
  | (_, Fulfilled) :: fin => logged fin
  end.

(** The shape of a queue that holds the tasks [ps]: its trace is a run of
    tasks one by one, then the task awaited if there is one. *)
Definition orderly (s : State T) (ps : list T) : Prop :=
  exists done : list (T * Outcome),
    trace s = one_by_one done ++ map Started (awaiting s) /\
    map fst done ++ awaiting s ++ queue s = ps /\
    stable s.

End QueueViews.

(** Whether a string holds a double quote that has no backslash right before
    it; [escaped] tells whether the character before the string is a
    backslash. *)
Fixpoint has_bare_quote (escaped : bool) (s : string) : bool :=
  match s with
  | EmptyString => false
  | String c s' =>
      if Ascii.eqb c dq then negb escaped || has_bare_quote false s'
      else has_bare_quote (Ascii.eqb c "\") s'
  end.

(** Whether a string holds the character [c]. *)
Fixpoint holds (c : ascii) (s : string) : bool :=
  match s with
  | EmptyString => false
  | String c' s' => Ascii.eqb c' c || holds c s'
  end.

(** The status codes of the responses sent, oldest first. *)
Fixpoint responses (j : list Effect) : list nat :=
  match j with
  | [] => []
  | Respond code _ :: j => code :: responses j
  | _ :: j => responses j
  end.

(** The exceptions no handler caught. *)
Fixpoint unhandled (j : list Effect) : list string :=
  match j with
  | [] => []
  | Unhandled what :: j => what :: unhandled j
  | _ :: j => unhandled j
  end.

Definition is_request (i : Input) : bool :=
  match i with
  | POST_issues _ | PUT_issue _ _ | POST_comments _ _ => true
  | Tick _ | TaskDone _ _ => false
  end.

(** A response that reports a mutation done. *)
Definition success (code : nat) : bool := Nat.eqb code 200 || Nat.eqb code 201.

(** What the handlers keep true of the tables from start-up on: a row
    carries its own id; the issues are those numbered 1 to [issues_seq]; the
    comments are numbered 1 to [comments_seq] in the order of the table; and
    every comment belongs to an issue that is there. *)
Definition intact (d : Db) : Prop :=
  (forall i r, issues d !! i = Some r -> id r = i) /\
  (0 <= issues_seq d)%Z /\
  (forall i, is_Some (issues d !! i) <-> (1 <= i <= issues_seq d)%Z) /\
  map c_id (comments d) = map Z.of_nat (seq 1 (length (comments d))) /\
  comments_seq d = Z.of_nat (length (comments d)) /\
  Forall (fun c => is_Some (issues d !! c_issue_id c)) (comments d).

(** * GET /api/issues *)

Definition SELECT_issues : string :=
  "SELECT * FROM issues ORDER BY updated_at DESC".

(** [ORDER BY updated_at DESC]; rows with equal keys come in the order of the
    table scan. *)
Fixpoint insert_by_updated_at (r : Issue) (l : list Issue) : list Issue :=
  match l with
  | [] => [r]
  | x :: l' =>
      if String.ltb (updated_at r) (updated_at x)
      then x :: insert_by_updated_at r l'
      else r :: x :: l'
  end.

Definition order_by_updated_at_desc (l : list Issue) : list Issue :=
  fold_right insert_by_updated_at [] l.

(** An issue that was not updated before the other. *)
Definition not_older (a b : Issue) : Prop :=
  String.ltb (updated_at a) (updated_at b) = false.

(** [SELECT * FROM issues ORDER BY updated_at DESC] *)
Definition select_issues (d : Db) : list Issue :=
  order_by_updated_at_desc (map snd (map_to_list (issues d))).

(** [await db.all(SELECT_issues)] *)
Definition db_all_issues : H (list Issue) :=
  (record (DbAll SELECT_issues) ;;
   fun w => (Some (select_issues (db w)), w))%handler.

(** [for (const issue of issues) { issue.comments = await db.all(
    SELECT_comments, [issue.id]); }] *)
Fixpoint attach_comments (rows : list Issue) : H (list JSON) :=
  match rows with
  | [] => h_ret []
  | issue :: rows =>
      (cs <- db_all_comments (id issue) ;;
       rest <- attach_comments rows ;;
       h_ret (issue_json issue cs :: rest))%handler
  end.

(** [app.get('/api/issues', ...)]; [res.json] answers with status 200. *)
Definition get_issues : H unit :=
  (rows <- db_all_issues ;;
   issues_ <- attach_comments rows ;;
   res_status_json 200 (JArr issues_))%handler.

(** * More sample data *)

Module MoreSamples.

(** An update that sends the empty string as status. *)
Definition blank_status : Body :=
  {| body_title := undefined; body_description := undefined;
     body_status := str ""; body_assignee := undefined;
     body_author := undefined; body_text := undefined |}.

(** The comment that [Sample.hello] adds to issue 1 of [Sample.created]. *)
Definition first_comment : Comment :=
  {| c_id := 1; c_issue_id := 1; c_author := Some "anonymous";
     c_text := Some "hi"; c_created_at := "2024-03-09 07:05:59" |}.

End MoreSamples.

(** * Requests in flight *)

(** The handlers are [async] functions: at every [await] a handler hands the
    turn back to the event loop, and other handlers and the worker run before
    it is resumed. [Async] is a handler as the event loop holds it: at its
    end, or suspended with what it does in its next turn. A turn is one
    awaited database call taking effect, with the statements up to the next
    call, which touch nothing shared; or the statements that run when the
    handler is resumed after its last call, which emit, push and respond.
    What [H] describes, code run without interruption, is here one turn. *)
#[local] Unset Elimination Schemes.
Inductive Async :=
| Ended
| Await (next : H Async).
#[local] Set Elimination Schemes.

(** [const x = await op; rest]: the call takes effect in a turn of its own
    and the handler is suspended again with [rest x]. *)
Definition await {A} (op : H A) (rest : A -> Async) : Async :=
  Await (x <- op ;; h_ret (rest x))%handler.

(** The statements from a resumption to the [return] or to the end of the
    handler. *)
Definition finally (h : H unit) : Async :=
  Await (h ;; h_ret Ended)%handler.

(** [const { ... } = req.body]: a TypeError when no body was parsed and
    [req.body] is [undefined]. *)
Definition req_body (b : option Body) : H Body :=
  match b with
  | Some body => h_ret body
  | None => throw "TypeError: Cannot destructure property of req.body as it is undefined"
  end.

(** [app.post('/api/issues', ...)] with its awaits. What [H Async] runs is
    the part up to the first [await], in the turn in which the request
    arrives. *)
Definition post_issues_async (req : option Body) : H Async :=
  (body <- req_body req ;;
   let title_ := body_title body in
   let description_ := body_description body in
   let assignee_ := body_assignee body in
   if negb (truthy title_) then
     res_status_json 400 (error_json "title required") ;; h_ret Ended
   else
     h_ret
       (await (db_run_INSERT_issue title_ (js_or description_ (str ""))
                                   (js_or assignee_ null)) (fun issueId =>
        await (db_get_issue issueId) (fun got =>
        finally
          (row <- object got ;;
           let issue := issue_json row [] in
           io_emit "issue:created" issue ;;
           ts <- timestamp ;;
           let filename := create_filename issueId ts in
           let message_ :=
             "Create issue #" +:+ pretty issueId +:+ ": " +:+ title row in
           commitQueue_push
             (makeCommitTask filename
                (JObj [("action", JStr "create"); ("issue", issue)]) message_) ;;
           res_status_json 201 issue)))))%handler.

(** [app.put('/api/issues/:id', ...)] with its awaits. *)
Definition put_issue_async (id_ : Z) (req : option Body) : H Async :=
  (body <- req_body req ;;
   let title_ := body_title body in
   let description_ := body_description body in
   let status_ := body_status body in
   let assignee_ := body_assignee body in
   h_ret
     (await (db_get_issue id_) (fun existing =>
      match existing with
      | None => finally (res_status_json 404 (error_json "Issue not found"))
      | Some existing =>
          await (db_run_UPDATE_issue title_ description_ status_ assignee_ id_)
            (fun _ =>
          await (db_get_issue id_) (fun got =>
          await (db_all_comments id_) (fun cs =>
          finally
            (row <- object got ;;
             let updated := issue_json row cs in
             io_emit "issue:updated" updated ;;
             ts <- timestamp ;;
             let filename := update_filename id_ ts in
             let message_ :=
               "Update issue #" +:+ pretty id_ +:+ ": set "
               +:+ template (js_or status_ (str "no-status-change")) in
             commitQueue_push
               (makeCommitTask filename
                  (JObj [("action", JStr "update"); ("before", row_json existing);
                         ("after", updated)]) message_) ;;
             res_status_json 200 updated))))
      end)))%handler.

(** [app.post('/api/issues/:id/comments', ...)] with its awaits. *)
Definition post_comments_async (id_ : Z) (req : option Body) : H Async :=
  (body <- req_body req ;;
   let author_ := body_author body in
   let text_ := body_text body in
   if negb (truthy text_) then
     res_status_json 400 (error_json "text required") ;; h_ret Ended
   else
     h_ret
       (await (db_get_issue id_) (fun issue =>
        match issue with
        | None => finally (res_status_json 404 (error_json "Issue not found"))
        | Some _ =>
            await (db_run_INSERT_comment id_ (js_or author_ (str "anonymous")) text_)
              (fun commentId =>
            await (db_get_comment commentId) (fun comment =>
            await (db_run_TOUCH_issue id_) (fun _ =>
            await (db_get_issue id_) (fun got =>
            await (db_all_comments id_) (fun cs =>
            finally
              (row <- object got ;;
               let updatedIssue := issue_json row cs in
               io_emit "issue:comment"
                 (JObj (("issue", updatedIssue) :: optional_prop "comment" comment)) ;;
               ts <- timestamp ;;
               let filename := comment_filename id_ commentId ts in
               c <- object comment ;;
               let message_ :=
                 "Comment on issue #" +:+ pretty id_ +:+ " by "
                 +:+ template (js_or (js_of_sql (c_author c)) (str "anon")) in
               commitQueue_push
                 (makeCommitTask filename
                    (JObj [("action", JStr "comment"); ("issue", updatedIssue);
                           ("comment", comment_json c)]) message_) ;;
               res_status_json 201 (comment_json c)))))))
        end)))%handler.

(** The three routes that change the store. *)
Inductive Route :=
| POST_api_issues
| PUT_api_issues_id (id_ : Z)
| POST_api_issues_id_comments (id_ : Z).

Definition route (r : Route) (req : option Body) : H Async :=
  match r with
  | POST_api_issues => post_issues_async req
  | PUT_api_issues_id id_ => put_issue_async id_ req
  | POST_api_issues_id_comments id_ => post_comments_async id_ req
  end.

(** The same request as an input of the server that handles one request at a
    time. *)
Definition alone (r : Route) (body : Body) : Input :=
  match r with
  | POST_api_issues => POST_issues body
  | PUT_api_issues_id id_ => PUT_issue id_ body
  | POST_api_issues_id_comments id_ => POST_comments id_ body
  end.

(** The process with the handlers it has started, in the order the requests
    arrived; a handler stays in the list when it is over. *)
Record Server := {
  world : World;
  handlers : list Async
}.

(** One turn of the event loop: a request arrives and its handler runs to
    its first [await]; the [n]-th handler is resumed; the clock moves; the
    task awaited by the worker settles. *)
Inductive Turn :=
| Arrives (r : Route) (req : option Body)
| Resumes (n : nat)
| Ticks (d : Date)
| Settles (i : nat) (f : Faults).

(** A handler that threw is over: its promise is rejected and nothing
    resumes it. *)
Definition after_turn (r : option Async) : Async :=
  match r with
  | Some p => p
  | None => Ended
  end.

Definition resume (p : Async) (w : World) : option Async * World :=
  match p with
  | Ended => (Some Ended, w)
  | Await next => next w
  end.

Definition turn (s : Server) (t : Turn) : Server :=
  match t with
  | Arrives r req =>
      let '(p, w) := route r req (world s) in
      {| world := w; handlers := handlers s ++ [after_turn p] |}
  | Resumes n =>
      match handlers s !! n with
      | Some p =>
          let '(p', w) := resume p (world s) in
          {| world := w; handlers := <[ n := after_turn p' ]> (handlers s) |}
      | None => s
      end
  | Ticks d => {| world := serve (world s) (Tick d); handlers := handlers s |}
  | Settles i f =>
      {| world := serve (world s) (TaskDone i f); handlers := handlers s |}
  end.

Definition play (s : Server) (ts : list Turn) : Server := fold_left turn ts s.

(** The server after start-up, no request yet. *)
Definition listening (d : Date) : Server :=
  {| world := boot d; handlers := [] |}.

(** A handler resumed [k] times with nothing else in between. *)
Fixpoint resumed (k : nat) (p : Async) (w : World) : Async * World :=
  match k with
  | 0 => (p, w)
  | S k =>
      let '(p', w') := resume p w in
      resumed k (after_turn p') w'
  end.

(** The world after a turn of a handler that leaves the tables as [d] and
    has the effects [es]: the journal grows by them and the tasks among them
    are pushed. Clock, files and commands are not the handler's. *)
Definition after (w : World) (d : Db) (es : list Effect) : World :=
  {| db := d; clock := clock w;
     commitQueue :=
       fold_left (fun q task => CommitQueue.push call_task task q) (enqueued es)
                 (commitQueue w);
     disk := disk w; commands := commands w;
     journal := journal w ++ es |}.

Definition suspended (p : Async) : bool :=
  match p with
  | Await _ => true
  | Ended => false
  end.

(** The handlers that are suspended at an [await]. *)
Definition pending (l : list Async) : nat :=
  length (List.filter suspended l).

(** The requests that came with a parsed body, and those that came
    without. *)
Fixpoint parsed (ts : list Turn) : nat :=
  match ts with
  | [] => 0
  | Arrives _ (Some _) :: ts => S (parsed ts)
  | _ :: ts => parsed ts
  end.

Fixpoint unparsed (ts : list Turn) : nat :=
  match ts with
  | [] => 0
  | Arrives _ None :: ts => S (unparsed ts)
  | _ :: ts => unparsed ts
  end.

(** No statement of the server deletes: a row of [issues] that can be read
    stays readable, and so does a comment. *)
Definition grows (d d' : Db) : Prop :=
  (forall i, is_Some (issues d !! i) -> is_Some (issues d' !! i)) /\
  (forall c, is_Some (select_comment c d) -> is_Some (select_comment c d')).

(** The effects of a turn in which a database call takes effect. *)
Inductive quiet : list Effect -> Prop :=
| quiet_run sql : quiet [DbRun sql]
| quiet_get sql : quiet [DbGet sql]
| quiet_all sql : quiet [DbAll sql].

(** The effects of the last turn of a handler: the request is turned down,
    or its change is broadcast, its task pushed and the response sent. *)
Inductive answer : list Effect -> Prop :=
| turned_down code body :
    code = 400 \/ code = 404 -> answer [Respond code body]
| carried_out event payload task code body :
    code = 200 \/ code = 201 ->
    answer [Emit event payload; Enqueue task; Respond code body].

(** A suspended handler that goes on to answer its request, whatever the
    other handlers did to the tables [d] it last saw, as long as they
    deleted nothing: each of its turns is a database call that deletes
    nothing and keeps the tables intact, up to the turn that answers. *)
#[local] Unset Elimination Schemes.
Inductive sound (d : Db) : Async -> Prop :=
| sound_finished : sound d Ended
| sound_await next :
    (forall w, grows d (db w) ->
       exists p d' es,
         next w = (Some p, after w d' es) /\ grows (db w) d' /\
         (intact (db w) -> intact d') /\
         (quiet es /\ suspended p = true /\ sound d' p \/
          answer es /\ p = Ended)) ->
    sound d (Await next).
#[local] Set Elimination Schemes.

(** What holds of the server after every turn, with [thrown] requests that
    came without a body and [accepted] that came with one: every handler in
    flight will answer, the tables are intact, the queue holds the tasks
    pushed, and the journal has one uncaught exception for each request of
    the first kind and one response for each of the second whose handler is
    over. *)
Definition steady (s : Server) (thrown accepted : nat) : Prop :=
  let j := journal (world s) in
  Forall (sound (db (world s))) (handlers s) /\
  intact (db (world s)) /\
  orderly (commitQueue (world s)) (enqueued j) /\
  length (unhandled j) = thrown /\
  length (responses j) + pending (handlers s) = accepted /\
  length (enqueued j) = length (List.filter success (responses j)) /\
  Forall (fun c => c = 200 \/ c = 201 \/ c = 400 \/ c = 404) (responses j).

(** * Two updates in flight *)

Module Overlap.

Definition retitle : Body :=
  {| body_title := str "new"; body_description := undefined;
     body_status := undefined; body_assignee := undefined;
     body_author := undefined; body_text := undefined |}.

(** Issue 1 is created by handler 0. Then handler 1 (closing it) and handler
    2 (giving it a new title) take their turns one after the other: both
    read the row, both run their UPDATE, both read the issue back, both
    answer. *)
Definition schedule : list Turn :=
  [Arrives POST_api_issues (Some Sample.new_issue);
   Resumes 0; Resumes 0; Resumes 0;
   Arrives (PUT_api_issues_id 1) (Some Sample.close);
   Arrives (PUT_api_issues_id 1) (Some retitle);
   Resumes 1; Resumes 2; Resumes 1; Resumes 2; Resumes 1; Resumes 2;
   Resumes 1; Resumes 2; Resumes 1; Resumes 2].

(** The process when the turn of number [n] (from 0) begins. *)
Definition at_turn (n : nat) : World :=
  world (play (listening Sample.t0) (firstn n schedule)).

(** Issue 1 once handler 1 has closed it, and once handler 2 has given it
    its new title as well. *)
Definition closed : Issue :=
  {| id := 1; title := "x"; description := Some ""; status := "closed";
     assignee := None; created_at := "2024-03-09 07:05:59";
     updated_at := "2024-03-09 07:05:59" |}.

Definition both : Issue :=
  {| id := 1; title := "new"; description := Some ""; status := "closed";
     assignee := None; created_at := "2024-03-09 07:05:59";
     updated_at := "2024-03-09 07:05:59" |}.

End Overlap.

(** * Facts about the queue *)

Section QueueFacts.
Import CommitQueue.
Context {T : Type}.
Variable call : T -> Called.

Lemma loop_entries q (s : State T) : entries (loop call q s) = entries s.
Proof.
  revert s; induction q as [|t q IH]; intros s; simpl; [reflexivity|].
  destruct (call t); [rewrite IH|]; reflexivity.
Qed.

Lemma loop_trace q (s : State T) :
  exists l, trace (loop call q s) = trace s ++ l.
Proof.
  revert s; induction q as [|t q IH]; intros s; simpl.
  - exists []. now rewrite app_nil_r.
  - destruct (call t).
    + destruct (IH {| queue := q; running := running s; awaiting := awaiting s;
                      console := console s ++ [caught err];
                      trace := trace s ++ [Started t; Finished t (Rejected err)];
                      entries := entries s |}) as [l Hl].
      rewrite Hl. simpl. rewrite <- app_assoc. eauto.
    + simpl. eauto.
Qed.

Lemma loop_stable q (s : State T) :
  awaiting s = [] -> running s = true -> stable (loop call q s).
Proof.
  revert s; induction q as [|t q IH]; intros s Ha Hr; simpl.
  - unfold stable; simpl. rewrite Ha. split; [simpl; lia|].
    split; [split; congruence | reflexivity].
  - destruct (call t).
    + apply IH; assumption.
    + unfold stable; simpl. rewrite Ha, Hr. simpl.
      split; [lia|]. split; [split; congruence | congruence].
Qed.

Lemma stable_init : stable (@init T).
Proof.
  unfold stable; simpl. split; [lia|]. split; [split; congruence | reflexivity].
Qed.

Lemma stable_awaiting (s : State T) :
  stable s -> awaiting s = [] \/ exists t, awaiting s = [t].
Proof.
  intros (Hl & _ & _). destruct (awaiting s) as [|t [|u l]]; simpl in Hl;
    [left; reflexivity | right; eauto | lia].
Qed.

Lemma stable_idle (s : State T) :
  stable s -> running s = false -> awaiting s = [] /\ queue s = [].
Proof.
  intros (_ & Hr & Hq) Hf. split; [|auto].
  destruct (awaiting s) eqn:E; [reflexivity|].
  assert (running s = true) by (apply Hr; congruence). congruence.
Qed.

Lemma stable_busy (s : State T) :
  stable s -> running s = true -> exists t, awaiting s = [t].
Proof.
  intros Hs Ht. destruct (stable_awaiting s Hs) as [E|E]; [|assumption].
  destruct Hs as (_ & Hr & _). apply Hr in Ht. contradiction.
Qed.

Lemma push_busy task (s : State T) :
  running s = true ->
  push call task s =
    {| queue := queue s ++ [task]; running := true; awaiting := awaiting s;
       console := console s; trace := trace s; entries := entries s |}.
Proof. intros Hr. unfold push, _run. simpl. rewrite Hr. reflexivity. Qed.

Lemma push_idle task (s : State T) :
  running s = false ->
  push call task s =
    loop call (queue s ++ [task])
      {| queue := queue s ++ [task]; running := true; awaiting := awaiting s;
         console := console s; trace := trace s; entries := S (entries s) |}.
Proof. intros Hr. unfold push, _run. simpl. rewrite Hr. reflexivity. Qed.

Lemma stable_push task (s : State T) : stable s -> stable (push call task s).
Proof.
  intros Hs. destruct (running s) eqn:Hr.
  - rewrite push_busy by assumption.
    destruct Hs as (Hl & Hrun & Hq). unfold stable; simpl.
    split; [assumption|]. split; [|congruence].
    rewrite <- Hrun. split; congruence.
  - rewrite push_idle by assumption.
    apply loop_stable; simpl; [|reflexivity].
    apply (stable_idle s Hs Hr).
Qed.

Lemma stable_settle i o (s : State T) : stable s -> stable (settle call i o s).
Proof.
  intros Hs. unfold settle.
  destruct (awaiting s !! i) as [t|] eqn:E; [|assumption].
  destruct (stable_awaiting s Hs) as [Ha|[u Ha]]; rewrite Ha in E.
  - discriminate.
  - destruct i as [|i]; [|discriminate].
    apply loop_stable; simpl.
    + rewrite Ha. reflexivity.
    + destruct Hs as (_ & Hr & _). apply Hr. congruence.
Qed.

Lemma stable_step (s : State T) e : stable s -> stable (step call s e).
Proof. destruct e; simpl; auto using stable_push, stable_settle. Qed.

Lemma stable_run evs (s : State T) : stable s -> stable (run call s evs).
Proof.
  revert s; induction evs as [|e evs IH]; intros s Hs; simpl; [assumption|].
  apply IH, stable_step, Hs.
Qed.

Lemma one_by_one_app (d1 d2 : list (T * Outcome)) :
  one_by_one (d1 ++ d2) = one_by_one d1 ++ one_by_one d2.
Proof. unfold one_by_one. apply flat_map_app. Qed.

Lemma loop_one_by_one q (s : State T) done :
  awaiting s = [] -> trace s = one_by_one done ->
  exists done',
    trace (loop call q s)
    = one_by_one done' ++ map Started (awaiting (loop call q s)) /\
    map fst done' ++ awaiting (loop call q s) ++ queue (loop call q s)
    = map fst done ++ q.
Proof.
  revert s done; induction q as [|t q IH]; intros s done Ha Htr; simpl.
  - exists done. rewrite Ha, Htr. simpl. now rewrite !app_nil_r.
  - destruct (call t) as [err|].
    + destruct (IH {| queue := q; running := running s; awaiting := awaiting s;
                      console := console s ++ [caught err];
                      trace := trace s ++ [Started t; Finished t (Rejected err)];
                      entries := entries s |} (done ++ [(t, Rejected err)]))
        as (done' & H1 & H2); simpl; [assumption | |].
      * rewrite Htr, one_by_one_app. reflexivity.
      * exists done'. split; [assumption|].
        rewrite H2, map_app, <- app_assoc. reflexivity.
    + exists done. simpl. rewrite Ha, Htr. simpl. split; reflexivity.
Qed.

(** Where a call can stand in a run of tasks one by one. *)
Lemma one_by_one_call (done : list (T * Outcome)) aw pre b post :
  length aw <= 1 ->
  one_by_one done ++ map Started aw = pre ++ Started b :: post ->
  (exists d1 o d2,
      done = d1 ++ (b, o) :: d2 /\ pre = one_by_one d1 /\
      post = Finished b o :: one_by_one d2 ++ map Started aw) \/
  (aw = [b] /\ pre = one_by_one done /\ post = []).
Proof.
  intros Haw. revert pre.
  induction done as [|[t o] done IH]; intros pre E; simpl in E.
  - right. destruct aw as [|u [|v aw]]; simpl in *; [| |lia].
    + destruct pre; discriminate.
    + destruct pre as [|p pre]; simpl in E.
      * injection E as -> <-. auto.
      * injection E as _ E. destruct pre; discriminate.
  - destruct pre as [|p1 [|p2 pre]]; simpl in E.
    + injection E as -> <-. left. exists [], o, done. auto.
    + injection E as _ E _. discriminate.
    + injection E as <- <- E.
      destruct (IH pre E) as [(d1 & o' & d2 & -> & -> & ->)|(-> & -> & ->)].
      * left. exists ((t, o) :: d1), o', d2. auto.
      * right. auto.
Qed.

Lemma calls_app (l1 l2 : list (Obs T)) : calls (l1 ++ l2) = calls l1 ++ calls l2.
Proof. induction l1 as [|[t|t o] l1 IH]; simpl; congruence. Qed.

Lemma settlements_app (l1 l2 : list (Obs T)) :
  settlements (l1 ++ l2) = settlements l1 ++ settlements l2.
Proof. induction l1 as [|[t|t o] l1 IH]; simpl; congruence. Qed.

Lemma trace_one_by_one (s : State T) done :
  trace s = one_by_one done ++ map Started (awaiting s) ->
  started s = map fst done ++ awaiting s /\ finished s = done.
Proof.
  unfold started, finished. intros ->. rewrite calls_app, settlements_app.
  assert (H1 : forall aw : list T, calls (map Started aw) = aw)
    by (induction aw; simpl; congruence).
  assert (H2 : forall aw : list T, settlements (map Started aw) = [])
    by (induction aw; simpl; congruence).
  rewrite H1, H2, app_nil_r. clear.
  induction done as [|[t o] done [IH1 IH2]]; [split; reflexivity|].
  split; simpl; congruence.
Qed.

Lemma step_trace (s : State T) e : exists l, trace (step call s e) = trace s ++ l.
Proof.
  destruct e as [task|i o]; simpl.
  - destruct (running s) eqn:Hr.
    + rewrite push_busy by assumption. exists []. simpl. now rewrite app_nil_r.
    + rewrite push_idle by assumption.
      match goal with |- context [loop call ?q ?s0] =>
        destruct (loop_trace q s0) as [l Hl] end.
      rewrite Hl. simpl. eauto.
  - unfold settle. destruct (awaiting s !! i) as [t|].
    + match goal with |- context [loop call ?q ?s0] =>
        destruct (loop_trace q s0) as [l Hl] end.
      rewrite Hl. simpl. rewrite <- app_assoc. eauto.
    + exists []. now rewrite app_nil_r.
Qed.

Lemma finished_step (s : State T) e :
  length (finished s) <= length (finished (step call s e)).
Proof.
  destruct (step_trace s e) as [l Hl]. unfold finished. rewrite Hl, settlements_app.
  rewrite length_app. lia.
Qed.

Lemma finished_settle (s : State T) t o :
  awaiting s = [t] ->
  S (length (finished s)) <= length (finished (settle call 0 o s)).
Proof.
  intros Ha. unfold settle. rewrite Ha. simpl lookup. cbv iota.
  match goal with |- context [loop call ?q ?s0] =>
    destruct (loop_trace q s0) as [l Hl] end.
  unfold finished. rewrite Hl. simpl trace. rewrite !settlements_app, !length_app.
  simpl. lia.
Qed.

(** C2. At most one worker loop is active at any time. After any history
    of pushes and settlements at most one invocation of [_run] is
    suspended in the loop. A push on an idle queue ([running] false, no
    invocation suspended) lets exactly one more invocation past the guard;
    a push while [running] is true lets none past: it only appends the task
    to the FIFO and changes nothing else. *)
Theorem at_most_one_worker (evs : list (Event T)) (task : T) :
  let s := run call init evs in
  length (awaiting s) <= 1 /\
  (running s = false ->
     awaiting s = [] /\
     entries (push call task s) = S (entries s) /\
     length (awaiting (push call task s)) <= 1) /\
  (running s = true ->
     length (awaiting s) = 1 /\
     push call task s =
       {| queue := queue s ++ [task]; running := true;
          awaiting := awaiting s; console := console s; trace := trace s;
          entries := entries s |}).
Proof.
  intros s. assert (Hs : stable s) by apply stable_run, stable_init.
  split; [apply Hs|]. split.
  - intros Hr. split; [apply (stable_idle s Hs Hr)|]. split.
    + rewrite push_idle by assumption. rewrite loop_entries. reflexivity.
    + apply (stable_push task s Hs).
  - intros Hr. split; [|apply push_busy, Hr].
    destruct (stable_busy s Hs Hr) as [t ->]. reflexivity.
Qed.

End QueueFacts.

(** Lists that make up an interval of numbers. *)
Lemma seq_app_inv (l1 l2 : list nat) : forall k n,
  l1 ++ l2 = seq k n ->
  l1 = seq k (length l1) /\ l2 = seq (k + length l1) (n - length l1).
Proof.
  induction l1 as [|x l1 IH]; intros k n E; simpl in *.
  - rewrite Nat.add_0_r, Nat.sub_0_r. auto.
  - destruct n as [|n]; [discriminate|]. simpl in E. injection E as Ex E. subst x.
    destruct (IH _ _ E) as [H1 H2].
    split; [f_equal; exact H1|].
    etransitivity; [exact H2|]. f_equal; lia.
Qed.

Lemma seq_app_length (l1 l2 : list nat) k n :
  l1 ++ l2 = seq k n -> length l1 + length l2 = n.
Proof.
  intros E. apply (f_equal length) in E.
  rewrite length_app, length_seq in E. exact E.
Qed.

Section Tickets.
Import CommitQueue.
Context {X : Type}.
Variable call : X -> Called.

(** A ticketed task behaves as the task does. *)
Local Abbreviation call' := (with_ticket call).

Lemma ticketed_init : ticketed 0 (@init (nat * X)).
Proof. exists []. split; [reflexivity|]. split; [reflexivity|]. apply stable_init. Qed.

Lemma ticketed_push n x (s : State (nat * X)) :
  ticketed n s -> ticketed (S n) (push call' (n, x) s).
Proof.
  intros (done & Htr & Htk & Hs).
  destruct (running s) eqn:Hr.
  - exists done. rewrite push_busy by assumption. cbn [trace awaiting queue].
    split; [assumption|]. split.
    + rewrite seq_S, <- Htk. rewrite !app_assoc, (map_app fst). reflexivity.
    + rewrite <- (push_busy call' (n, x) s Hr). now apply stable_push.
  - destruct (stable_idle s Hs Hr) as [Ha Hq].
    rewrite push_idle by assumption.
    rewrite Ha, Hq in *. simpl in Htr. rewrite app_nil_r in Htr, Htk.
    simpl app.
    set (s0 := {| queue := [(n, x)]; running := true; awaiting := [];
                  console := console s; trace := trace s;
                  entries := S (entries s) |}).
    destruct (loop_one_by_one call' [(n, x)] s0 done eq_refl Htr)
      as (done' & H1 & H2).
    exists done'. split; [exact H1|]. split.
    + rewrite H2, map_app, Htk, seq_S. reflexivity.
    + apply loop_stable; reflexivity.
Qed.

Lemma ticketed_settle n i o (s : State (nat * X)) :
  ticketed n s -> ticketed n (settle call' i o s).
Proof.
  intros (done & Htr & Htk & Hs). pose proof (stable_settle call' i o s Hs) as Hs'.
  unfold settle in *. destruct (awaiting s !! i) as [t|] eqn:E.
  2:{ exists done; auto. }
  destruct (stable_awaiting s Hs) as [Ha|[u Ha]]; rewrite Ha in E; [discriminate|].
  destruct i as [|i]; [|discriminate]. simpl in E. injection E as ->.
  rewrite Ha in *. simpl in Htr, Htk. simpl take in *. simpl drop in *. simpl app in *.
  set (s0 := {| queue := queue s; running := running s; awaiting := [];
                console := match o with
                           | Fulfilled => console s
                           | Rejected err => console s ++ [caught err]
                           end;
                trace := trace s ++ [Finished t o];
                entries := entries s |}) in *.
  assert (Htr0 : trace s0 = one_by_one (done ++ [(t, o)])).
  { simpl. rewrite Htr, <- app_assoc, one_by_one_app. reflexivity. }
  destruct (loop_one_by_one call' (queue s) s0 _ eq_refl Htr0)
    as (done' & H1 & H2).
  exists done'. split; [exact H1|]. split; [|exact Hs'].
  rewrite H2, (map_app fst done), <- app_assoc. exact Htk.
Qed.

Lemma ticketed_run evs : forall n (s : State (nat * X)),
  ticketed n s -> ticketed (n + pushes evs) (run call' s (number n evs)).
Proof.
  induction evs as [|[x|i o] evs IH]; intros n s Hs; simpl.
  - now rewrite Nat.add_0_r.
  - rewrite Nat.add_succ_r. apply (IH (S n)), ticketed_push, Hs.
  - apply IH, ticketed_settle, Hs.
Qed.

(** The tickets are only marks: a run of the ticketed events, its tickets
    forgotten, is the run of the events. *)
Lemma forget_loop q (s : State (nat * X)) :
  forget (loop call' q s) = loop call (map snd q) (forget s).
Proof.
  revert s; induction q as [|t q IH]; intros s; simpl; [reflexivity|].
  unfold with_ticket at 1. destruct (call (snd t)); [rewrite IH|];
    unfold forget; simpl; rewrite ?map_app; reflexivity.
Qed.

Lemma lookup_map_snd (l : list (nat * X)) i :
  map snd l !! i = option_map snd (l !! i).
Proof. revert i; induction l as [|x l IH]; intros [|i]; simpl; auto. Qed.

Lemma forget_step (s : State (nat * X)) n e :
  forget (step call' s (match e with
                        | Push x => Push (n, x)
                        | Settle i o => Settle i o
                        end))
  = step call (forget s) e.
Proof.
  destruct e as [x|i o]; simpl.
  - unfold push, _run. simpl. destruct (running s); simpl.
    + unfold forget; simpl. rewrite map_app. reflexivity.
    + rewrite forget_loop. unfold forget; simpl. rewrite map_app. reflexivity.
  - unfold settle. cbn [awaiting forget]. rewrite lookup_map_snd.
    destruct (awaiting s !! i) as [t|]; simpl; [|reflexivity].
    rewrite forget_loop. unfold forget; simpl.
    rewrite !map_app.
    rewrite <- (firstn_map snd i (awaiting s)), <- (skipn_map snd (S i) (awaiting s)).
    reflexivity.
Qed.

Lemma forget_run evs : forall n (s : State (nat * X)),
  forget (run call' s (number n evs)) = run call (forget s) evs.
Proof.
  induction evs as [|[x|i o] evs IH]; intros n s; simpl; [reflexivity| |].
  - rewrite IH. f_equal. apply (forget_step s n (Push x)).
  - rewrite IH. f_equal. apply (forget_step s n (Settle i o)).
Qed.

Lemma tickets_before (d1 : list ((nat * X) * Outcome)) : forall k b rest n,
  map fst (map fst d1 ++ b :: rest) = seq k n ->
  fst b = k + length d1 /\
  forall a, k <= a < k + length d1 ->
    exists d1a x o d1b, d1 = d1a ++ ((a, x), o) :: d1b.
Proof.
  induction d1 as [|[[j x] o] d1 IH]; intros k b rest n E; simpl in E.
  - destruct n as [|n]; [discriminate|]. simpl in E. injection E as E _.
    simpl. split; [lia|]. intros a Ha. lia.
  - destruct n as [|n]; [discriminate|]. simpl in E. injection E as Ej E.
    subst j. destruct (IH _ _ _ _ E) as [Hb Hbefore].
    simpl. split; [lia|]. intros a Ha.
    destruct (Nat.eq_dec a k) as [->|Hne].
    + exists [], x, o, d1. reflexivity.
    + destruct (Hbefore a) as (d1a & y & o' & d1b & ->); [lia|].
      exists (((k, x), o) :: d1a), y, o', d1b. reflexivity.
Qed.

(** C1. Tasks run one at a time, in the order of their pushes. Give the
    [n]-th call of [push] the ticket [n], and take any history of pushes and
    settlements. Wherever the call of a task B stands in the trace, either
    nothing follows it yet or the very next entry is B's own settlement: no
    other task is called while B runs. And every task A with a smaller
    ticket was called and settled (resolved or rejected, or thrown at the
    call) earlier in the trace, its settlement next to its call. *)
Theorem tasks_run_one_at_a_time (evs : list (Event X)) pre (b : nat * X) post :
  trace (run call' init (number 0 evs)) = pre ++ Started b :: post ->
  (post = [] \/ exists o post', post = Finished b o :: post') /\
  forall a, a < fst b ->
    exists x o p1 p2, pre = p1 ++ Started (a, x) :: Finished (a, x) o :: p2.
Proof.
  intros E.
  destruct (ticketed_run evs 0 init ticketed_init) as (done & Htr & Htk & Hs).
  rewrite Htr in E.
  destruct (one_by_one_call _ _ _ _ _ (proj1 Hs) E)
    as [(d1 & o & d2 & -> & -> & ->)|(Ha & -> & ->)].
  - split; [right; eauto|]. intros a Ha.
    rewrite (map_app _ d1), <- app_assoc in Htk. simpl in Htk.
    destruct (tickets_before d1 0 _ _ _ Htk) as [Hb Hbefore].
    destruct (Hbefore a) as (d1a & x & o' & d1b & ->); [lia|].
    exists x, o', (one_by_one d1a), (one_by_one d1b).
    rewrite one_by_one_app. reflexivity.
  - split; [left; reflexivity|]. intros a Hlt.
    rewrite Ha in Htk. simpl in Htk.
    destruct (tickets_before done 0 _ _ _ Htk) as [Hb Hbefore].
    destruct (Hbefore a) as (d1a & x & o' & d1b & ->); [lia|].
    exists x, o', (one_by_one d1a), (one_by_one d1b).
    rewrite one_by_one_app. reflexivity.
Qed.

Lemma busy_while_unfinished n (s : State (nat * X)) :
  ticketed n s -> length (finished s) < n -> exists t, awaiting s = [t].
Proof.
  intros (done & Htr & Htk & Hs) Hlt.
  destruct (trace_one_by_one s done Htr) as [_ Hfin]. rewrite Hfin in Hlt.
  destruct (running s) eqn:Hr; [apply (stable_busy s Hs Hr)|].
  destruct (stable_idle s Hs Hr) as [Ha Hq]. rewrite Ha, Hq in Htk.
  simpl in Htk. rewrite app_nil_r in Htk.
  apply (f_equal length) in Htk. rewrite !length_map, length_seq in Htk. lia.
Qed.

Lemma started_tickets n (s : State (nat * X)) a :
  ticketed n s -> a < n -> a <= length (finished s) ->
  (exists k, map fst (started s) = seq 0 k /\ a < k) /\
  ~ In a (map fst (queue s)).
Proof.
  intros Ht Han Hfin.
  assert (Hbusy := busy_while_unfinished n s Ht).
  destruct Ht as (done & Htr & Htk & Hs).
  destruct (trace_one_by_one s done Htr) as [Hst Hfi].
  rewrite Hfi in *. rewrite app_assoc, map_app, <- Hst in Htk.
  destruct (seq_app_inv _ _ _ _ Htk) as [H1 H2].
  pose proof (seq_app_length _ _ _ _ Htk) as Hlen.
  assert (Hk : a < length (map fst (started s))).
  { rewrite length_map, Hst, length_app, length_map.
    destruct (Nat.eq_dec (length done) a) as [E|E]; [|lia].
    destruct Hbusy as [t ->]; [lia|]. simpl. lia. }
  split; [eauto|]. rewrite H2. rewrite in_seq. lia.
Qed.

Lemma settlements_suffice evs : forall n (s : State (nat * X)) a,
  ticketed n s -> a < n -> a - length (finished s) <= settles evs ->
  a <= length (finished (run call' s (number n evs))).
Proof.
  induction evs as [|[x|i o] evs IH]; intros n s a Ht Han Hle; simpl in *.
  - lia.
  - apply (IH (S n)); [apply ticketed_push, Ht | lia |].
    pose proof (finished_step call' s (Push (n, x))) as Hm. simpl in Hm. lia.
  - pose proof (finished_step call' s (Settle i o)) as Hm. simpl in Hm.
    apply IH; [apply ticketed_settle, Ht | assumption |].
    destruct i as [|i]; [|lia].
    destruct (Nat.le_gt_cases a (length (finished s))) as [Hdone|Hnot]; [lia|].
    destruct (busy_while_unfinished n s Ht) as [t Ha]; [lia|].
    pose proof (finished_settle call' s t o Ha). lia.
Qed.

(** C8. Every pushed task is attempted exactly once, in push order, and
    waits only for the tasks ahead of it. Take any history [evs] and a task
    with ticket [a] pushed in it. Let the history go on with any events
    [evs'] (more pushes, settlements with any outcome) among which the
    awaited promise settles at least as often as there are tasks ahead of
    [a] still unsettled. Then the tickets of the tasks called so far are
    [0, 1, ..., k - 1] in this order with [a] among them: none skipped, none
    twice, none out of order; [a] itself was called exactly once and is no
    longer in the queue. *)
Theorem every_task_attempted_once (evs evs' : list (Event X)) (a : nat) :
  a < pushes evs ->
  a - length (finished (run call' init (number 0 evs))) <= settles evs' ->
  let s' := run call' (run call' init (number 0 evs))
                (number (pushes evs) evs') in
  (exists k, map fst (started s') = seq 0 k /\ a < k) /\
  count_occ Nat.eq_dec (map fst (started s')) a = 1 /\
  ~ In a (map fst (queue s')).
Proof.
  intros Ha Hle s'.
  pose proof (ticketed_run evs 0 init ticketed_init) as Ht. simpl in Ht.
  pose proof (settlements_suffice evs' _ _ a Ht Ha Hle) as Hfin.
  pose proof (ticketed_run evs' _ _ Ht) as Ht'. fold s' in Hfin, Ht'.
  destruct (started_tickets _ s' a Ht') as [(k & Hk & Hak) Hq]; [lia|assumption|].
  split; [eauto|]. split; [|assumption].
  rewrite Hk. apply NoDup_count_occ'; [apply seq_NoDup|]. apply in_seq. lia.
Qed.

End Tickets.

(** * Facts about commit tasks and the server *)

Section ServerFacts.
Import CommitQueue.

Lemma task_body_cases (t : CommitTask) (f : Faults) (r : Repo) :
  let filePath := path_join LOGS_DIR (task_filename t) in
  let written := <[ filePath := JSON_stringify (task_content t) ]> (files r) in
  task_body t f r =
    match fs_fault f filePath with
    | Some e => (inl e, r)
    | None =>
        match exec_fault f (git_add filePath) with
        | Some e =>
            (inr tt,
             {| files := written; shell := shell r;
                out := out r ++ [Error [AStr "Git error:";
                                        AStr (stderr_or_message e)]] |})
        | None =>
            match exec_fault f (git_commit (task_message t)) with
            | Some e =>
                (inr tt,
                 {| files := written; shell := shell r ++ [git_add filePath];
                    out := out r ++ [Error [AStr "Git error:";
                                            AStr (stderr_or_message e)]] |})
            | None =>
                (inr tt,
                 {| files := written;
                    shell := (shell r ++ [git_add filePath])
                             ++ [git_commit (task_message t)];
                    out := out r ++ [Log [AStr "Committed"; AStr filePath]] |})
            end
        end
    end.
Proof.
  intros filePath written.
  unfold task_body, io_bind, try_catch, fs_writeFile, execAsync, console_print.
  fold filePath.
  destruct (fs_fault f filePath); [reflexivity|]. simpl.
  destruct (exec_fault f (git_add filePath)); [reflexivity|]. simpl.
  destruct (exec_fault f (git_commit (task_message t))); reflexivity.
Qed.

End ServerFacts.

(** * What each handler does to the world *)

Section HandlerEquations.
Import CommitQueue.

(** Run the primitives of a handler on the world at hand. *)

Ltac run_handler :=
  unfold db_run_INSERT_issue, db_run_UPDATE_issue, db_run_INSERT_comment,
    db_run_TOUCH_issue, db_get_issue, db_get_comment, db_all_comments,
    io_emit, timestamp, commitQueue_push, res_status_json, object, record,
    with_db, h_ret, throw, h_bind;
  cbn [fst snd db clock commitQueue disk commands journal].

Lemma truthy_str (s : string) : s <> "" -> truthy (str s) = true.
Proof.
  intros Hs. simpl. destruct (String.eqb_spec s ""); [contradiction|reflexivity].
Qed.

Lemma truthy_inv (v : JsVal) :
  truthy v = true -> exists s, v = str s /\ s <> "".
Proof.
  destruct v as [| |s]; simpl; try discriminate.
  destruct (String.eqb_spec s ""); [discriminate|eauto].
Qed.

Lemma post_issues_rejected (body : Body) (w : World) :
  truthy (body_title body) = false ->
  handle (post_issues body) w =
    {| db := db w; clock := clock w; commitQueue := commitQueue w;
       disk := disk w; commands := commands w;
       journal := journal w ++ [Respond 400 (error_json "title required")] |}.
Proof. intros Ht. unfold handle, post_issues. rewrite Ht. reflexivity. Qed.

Lemma post_issues_ok (body : Body) (w : World) (s : string) :
  body_title body = str s -> s <> "" ->
  let i := (issues_seq (db w) + 1)%Z in
  let row :=
    {| id := i; title := s;
       description := sql_param (js_or (body_description body) (str ""));
       status := "open";
       assignee := sql_param (js_or (body_assignee body) null);
       created_at := datetime (clock w); updated_at := datetime (clock w) |} in
  let issue := issue_json row [] in
  let task :=
    makeCommitTask
      (create_filename i (replace_colon_dot (toISOString (clock w))))
      (JObj [("action", JStr "create"); ("issue", issue)])
      ("Create issue #" +:+ pretty i +:+ ": " +:+ s) in
  handle (post_issues body) w =
    {| db := {| issues := <[ i := row ]> (issues (db w)); issues_seq := i;
                comments := comments (db w);
                comments_seq := comments_seq (db w) |};
       clock := clock w;
       commitQueue := push call_task task (commitQueue w);
       disk := disk w; commands := commands w;
       journal := journal w ++
                  [DbRun INSERT_issue; DbGet SELECT_issue;
                   Emit "issue:created" issue; Enqueue task;
                   Respond 201 issue] |}.
Proof.
  intros Ht Hs i row issue task.
  unfold handle, post_issues. rewrite Ht, (truthy_str s Hs). cbv [negb].
  run_handler. unfold insert_issue. cbn [sql_param]. run_handler.
  cbn [issues]. rewrite lookup_insert_eq. run_handler.
  rewrite <- !app_assoc. reflexivity.
Qed.

Lemma put_issue_missing (id_ : Z) (body : Body) (w : World) :
  issues (db w) !! id_ = None ->
  handle (put_issue id_ body) w =
    {| db := db w; clock := clock w; commitQueue := commitQueue w;
       disk := disk w; commands := commands w;
       journal := journal w ++
                  [DbGet SELECT_issue;
                   Respond 404 (error_json "Issue not found")] |}.
Proof.
  intros Hm. unfold handle, put_issue. run_handler. rewrite Hm. run_handler.
  rewrite <- !app_assoc. reflexivity.
Qed.

Lemma put_issue_ok (id_ : Z) (body : Body) (w : World) (existing : Issue) :
  issues (db w) !! id_ = Some existing ->
  let row :=
    {| id := id existing;
       title := COALESCE_text (sql_param (body_title body)) (title existing);
       description :=
         COALESCE (sql_param (body_description body)) (description existing);
       status := COALESCE_text (sql_param (body_status body)) (status existing);
       assignee := COALESCE (sql_param (body_assignee body)) (assignee existing);
       created_at := created_at existing;
       updated_at := datetime (clock w) |} in
  let updated := issue_json row (select_comments id_ (db w)) in
  let task :=
    makeCommitTask
      (update_filename id_ (replace_colon_dot (toISOString (clock w))))
      (JObj [("action", JStr "update"); ("before", row_json existing);
             ("after", updated)])
      ("Update issue #" +:+ pretty id_ +:+ ": set "
       +:+ template (js_or (body_status body) (str "no-status-change"))) in
  handle (put_issue id_ body) w =
    {| db := {| issues := <[ id_ := row ]> (issues (db w));
                issues_seq := issues_seq (db w);
                comments := comments (db w);
                comments_seq := comments_seq (db w) |};
       clock := clock w;
       commitQueue := push call_task task (commitQueue w);
       disk := disk w; commands := commands w;
       journal := journal w ++
                  [DbGet SELECT_issue; DbRun UPDATE_issue; DbGet SELECT_issue;
                   DbAll SELECT_comments; Emit "issue:updated" updated;
                   Enqueue task; Respond 200 updated] |}.
Proof.
  intros He row updated task.
  unfold handle, put_issue. run_handler. rewrite He. run_handler.
  unfold update_issue. rewrite He. cbn [issues].
  rewrite lookup_insert_eq. run_handler.
  rewrite <- !app_assoc. reflexivity.
Qed.

Lemma post_comments_no_text (id_ : Z) (body : Body) (w : World) :
  truthy (body_text body) = false ->
  handle (post_comments id_ body) w =
    {| db := db w; clock := clock w; commitQueue := commitQueue w;
       disk := disk w; commands := commands w;
       journal := journal w ++ [Respond 400 (error_json "text required")] |}.
Proof. intros Ht. unfold handle, post_comments. rewrite Ht. reflexivity. Qed.

Lemma post_comments_missing (id_ : Z) (body : Body) (w : World) :
  truthy (body_text body) = true ->
  issues (db w) !! id_ = None ->
  handle (post_comments id_ body) w =
    {| db := db w; clock := clock w; commitQueue := commitQueue w;
       disk := disk w; commands := commands w;
       journal := journal w ++
                  [DbGet SELECT_issue;
                   Respond 404 (error_json "Issue not found")] |}.
Proof.
  intros Ht Hm. unfold handle, post_comments. rewrite Ht. cbv [negb].
  run_handler. rewrite Hm. run_handler.
  rewrite <- !app_assoc. reflexivity.
Qed.

Lemma find_fresh_comment (cs : list Comment) (c : Comment) (n : Z) :
  Forall (fun x => (c_id x <= n)%Z) cs -> c_id c = (n + 1)%Z ->
  List.find (fun x => Z.eqb (c_id x) (n + 1)) (cs ++ [c]) = Some c.
Proof.
  intros Hall Hc. induction Hall as [|x cs Hx _ IH]; simpl.
  - rewrite Hc, Z.eqb_refl. reflexivity.
  - destruct (Z.eqb_spec (c_id x) (n + 1)); [lia|exact IH].
Qed.

Lemma post_comments_ok (id_ : Z) (body : Body) (w : World) (s : string)
    (issue : Issue) :
  body_text body = str s -> s <> "" ->
  issues (db w) !! id_ = Some issue ->
  db_ok (db w) ->
  let c := (comments_seq (db w) + 1)%Z in
  let comment :=
    {| c_id := c; c_issue_id := id_;
       c_author := sql_param (js_or (body_author body) (str "anonymous"));
       c_text := Some s; c_created_at := datetime (clock w) |} in
  let row :=
    {| id := id issue; title := title issue; description := description issue;
       status := status issue; assignee := assignee issue;
       created_at := created_at issue; updated_at := datetime (clock w) |} in
  let d' :=
    {| issues := <[ id_ := row ]> (issues (db w));
       issues_seq := issues_seq (db w);
       comments := comments (db w) ++ [comment]; comments_seq := c |} in
  let updatedIssue := issue_json row (select_comments id_ d') in
  let task :=
    makeCommitTask
      (comment_filename id_ c (replace_colon_dot (toISOString (clock w))))
      (JObj [("action", JStr "comment"); ("issue", updatedIssue);
             ("comment", comment_json comment)])
      ("Comment on issue #" +:+ pretty id_ +:+ " by "
       +:+ template (js_or (js_of_sql (c_author comment)) (str "anon"))) in
  handle (post_comments id_ body) w =
    {| db := d'; clock := clock w;
       commitQueue := push call_task task (commitQueue w);
       disk := disk w; commands := commands w;
       journal := journal w ++
                  [DbGet SELECT_issue; DbRun INSERT_comment;
                   DbGet SELECT_comment; DbRun TOUCH_issue;
                   DbGet SELECT_issue; DbAll SELECT_comments;
                   Emit "issue:comment"
                     (JObj [("issue", updatedIssue);
                            ("comment", comment_json comment)]);
                   Enqueue task; Respond 201 (comment_json comment)] |}.
Proof.
  intros Ht Hs Hi [_ Hok] c comment row d' updatedIssue task.
  unfold handle, post_comments. rewrite Ht, (truthy_str s Hs). cbv [negb].
  run_handler. rewrite Hi. run_handler.
  unfold insert_comment. run_handler.
  unfold select_comment. cbn [comments sql_param].
  subst c comment.
  rewrite (find_fresh_comment (comments (db w)) _ (comments_seq (db w)));
    [| eapply Forall_impl; [exact Hok|]; simpl; tauto | reflexivity].
  unfold touch_issue, update_issue. cbn [issues]. rewrite Hi.
  cbn [issues COALESCE COALESCE_text]. rewrite lookup_insert_eq.
  run_handler. cbn [optional_prop issues_seq comments comments_seq].
  rewrite <- !app_assoc. subst task updatedIssue d' row. f_equal.
Qed.


End HandlerEquations.

(** * The worker on the server *)

Section ServerTheorems.
Import CommitQueue.







End ServerTheorems.

(** * File names *)

Section FileNames.

Lemma digit_inj (a b : N) : digit a = digit b -> (a mod 10 = b mod 10)%N.
Proof.
  unfold digit. intros H. apply (f_equal N_of_ascii) in H.
  pose proof (N.mod_upper_bound a 10). pose proof (N.mod_upper_bound b 10).
  rewrite !N_ascii_embedding in H by lia. lia.
Qed.

Lemma dash_digit (n : N) : dash (digit n) = digit n.
Proof.
  unfold digit. pose proof (N.mod_upper_bound n 10) as Hlt.
  set (m := (n mod 10)%N) in *.
  assert (m = 0 \/ m = 1 \/ m = 2 \/ m = 3 \/ m = 4 \/ m = 5 \/ m = 6 \/
          m = 7 \/ m = 8 \/ m = 9)%N as Hm by lia.
  repeat (destruct Hm as [->|Hm]; [reflexivity|]). subst m. rewrite Hm. reflexivity.
Qed.

Lemma last_digit (a b : N) :
  (a / 10 = b / 10 -> a mod 10 = b mod 10 -> a = b)%N.
Proof.
  intros Hd Hm. rewrite (N.div_mod' a 10), (N.div_mod' b 10), Hd, Hm.
  reflexivity.
Qed.

Lemma leading_digit (a b k : N) :
  (a < 10 * k -> b < 10 * k -> k <> 0 ->
   (a / k) mod 10 = (b / k) mod 10 -> a / k = b / k)%N.
Proof.
  intros Ha Hb Hk H.
  rewrite !N.mod_small in H; [exact H| |];
    apply N.Div0.div_lt_upper_bound; lia.
Qed.

Lemma next_digit (a k : N) : (a / k / 10 = a / (k * 10))%N.
Proof. apply N.Div0.div_div. Qed.

Lemma two_digits (a b : N) :
  (a < 100 -> b < 100 ->
   (a / 10) mod 10 = (b / 10) mod 10 -> a mod 10 = b mod 10 -> a = b)%N.
Proof.
  intros Ha Hb H1 H0. apply last_digit; [|exact H0].
  apply leading_digit; [lia|lia|discriminate|exact H1].
Qed.

Lemma three_digits (a b : N) :
  (a < 1000 -> b < 1000 ->
   (a / 100) mod 10 = (b / 100) mod 10 ->
   (a / 10) mod 10 = (b / 10) mod 10 -> a mod 10 = b mod 10 -> a = b)%N.
Proof.
  intros Ha Hb H2 H1 H0. apply last_digit; [|exact H0].
  apply last_digit; [|exact H1]. rewrite !next_digit.
  apply leading_digit; [lia|lia|discriminate|exact H2].
Qed.

Lemma four_digits (a b : N) :
  (a <= 9999 -> b <= 9999 ->
   (a / 1000) mod 10 = (b / 1000) mod 10 ->
   (a / 100) mod 10 = (b / 100) mod 10 ->
   (a / 10) mod 10 = (b / 10) mod 10 -> a mod 10 = b mod 10 -> a = b)%N.
Proof.
  intros Ha Hb H3 H2 H1 H0. apply last_digit; [|exact H0].
  apply last_digit; [|exact H1]. rewrite !next_digit.
  apply last_digit; [|exact H2]. rewrite !next_digit.
  apply leading_digit; [lia|lia|discriminate|exact H3].
Qed.

Lemma timestamp_inj (d1 d2 : Date) (sfx1 sfx2 : string) :
  valid_date d1 -> valid_date d2 ->
  replace_colon_dot (toISOString d1) +:+ sfx1
  = replace_colon_dot (toISOString d2) +:+ sfx2 ->
  d1 = d2 /\ sfx1 = sfx2.
Proof.
  destruct d1 as [y1 mo1 dd1 h1 mi1 s1 ms1], d2 as [y2 mo2 dd2 h2 mi2 s2 ms2].
  unfold valid_date, toISOString. cbn [year month day hours minutes seconds milliseconds].
  intros (Hy1 & [_ Hmo1] & [_ Hd1] & Hh1 & Hmi1 & Hs1 & Hms1)
         (Hy2 & [_ Hmo2] & [_ Hd2] & Hh2 & Hmi2 & Hs2 & Hms2).
  rewrite (proj2 (N.leb_le y1 9999) Hy1), (proj2 (N.leb_le y2 9999) Hy2).
  unfold pad4, pad3, pad2. cbn [replace_colon_dot append].
  rewrite !dash_digit.
  intros E. injection E as Ey3 Ey2 Ey1 Ey0 Emo1 Emo0 Ed1 Ed0 Eh1 Eh0
    Emi1 Emi0 Es1 Es0 Ems2 Ems1 Ems0 Esfx.
  apply digit_inj in Ey3, Ey2, Ey1, Ey0, Emo1, Emo0, Ed1, Ed0, Eh1, Eh0,
    Emi1, Emi0, Es1, Es0, Ems2, Ems1, Ems0.
  split; [|exact Esfx].
  f_equal;
    first [ apply four_digits; assumption
          | apply three_digits; assumption
          | apply two_digits; solve [assumption | lia] ].
Qed.

Lemma append_cancel_l (p x y : string) : p +:+ x = p +:+ y -> x = y.
Proof.
  induction p as [|c p IH]; [auto|].
  change (String c (p +:+ x) = String c (p +:+ y) -> x = y).
  intros E. injection E as E. auto.
Qed.

Lemma length_append (a s : string) :
  String.length (a +:+ s) = String.length a + String.length s.
Proof.
  induction a as [|c a IH]; [reflexivity|].
  change (S (String.length (a +:+ s)) = S (String.length a + String.length s)).
  now rewrite IH.
Qed.

(** Two strings that end in suffixes of one length. *)
Lemma append_same_length (a b s t : string) :
  String.length s = String.length t -> a +:+ s = b +:+ t -> a = b /\ s = t.
Proof.
  revert b. induction a as [|c a IH]; intros [|c' b] Hl E.
  - auto.
  - change (s = String c' (b +:+ t)) in E.
    apply (f_equal String.length) in E.
    change (String.length s = S (String.length (b +:+ t))) in E.
    rewrite (length_append b t) in E. lia.
  - change (String c (a +:+ s) = t) in E.
    apply (f_equal String.length) in E.
    change (S (String.length (a +:+ s)) = String.length t) in E.
    rewrite (length_append a s) in E. lia.
  - change (String c (a +:+ s) = String c' (b +:+ t)) in E.
    injection E as -> E. destruct (IH b Hl E) as [-> ->]. auto.
Qed.

(** C4, as the code has it. The name of a log file carries the kind, the
    id of the issue (and of the comment) and the time of the event to the
    millisecond, and nothing else. For two events of one kind on one issue
    (and one comment id), at times that are real instants, the names are
    equal exactly when the two times agree in every field down to the
    millisecond: events a millisecond or more apart never collide, events
    within one millisecond always do. The builder is a total function: it
    never fails. *)
Theorem names_collide_within_a_millisecond (d1 d2 : Date) (id_ commentId : Z) :
  valid_date d1 -> valid_date d2 ->
  let ts1 := replace_colon_dot (toISOString d1) in
  let ts2 := replace_colon_dot (toISOString d2) in
  (create_filename id_ ts1 = create_filename id_ ts2 <-> d1 = d2) /\
  (update_filename id_ ts1 = update_filename id_ ts2 <-> d1 = d2) /\
  (comment_filename id_ commentId ts1 = comment_filename id_ commentId ts2
   <-> d1 = d2).
Proof.
  intros H1 H2 ts1 ts2.
  unfold create_filename, update_filename, comment_filename.
  repeat split; try (intros ->; reflexivity); intros E;
    repeat (apply append_cancel_l in E);
    apply (timestamp_inj d1 d2 _ _ H1 H2 E).
Qed.

End FileNames.

(** * The handlers *)

Section Handlers.
Import CommitQueue.

Lemma enqueued_app (j1 j2 : list Effect) :
  enqueued (j1 ++ j2) = enqueued j1 ++ enqueued j2.
Proof.
  induction j1 as [|e j1 IH]; simpl; [reflexivity|].
  destruct e; simpl; congruence.
Qed.

(** An issue that was never created has no comments. *)
Lemma no_comments_yet (d d' : Db) :
  db_ok d -> comments d' = comments d ->
  select_comments (issues_seq d + 1) d' = [].
Proof.
  intros [_ Hok] Hc. unfold select_comments. rewrite Hc. clear Hc.
  induction Hok as [|c cs [_ Hc'] _ IH]; simpl; [reflexivity|].
  destruct (Z.eqb_spec (c_issue_id c) (issues_seq d + 1)); [lia|exact IH].
Qed.

(** C6, as the code has it. The entry of a create or update event is named
    [{kind}-issue-{issueId}-{timestamp}.json], the scheme of the
    specification with the kinds [create-issue] and [update-issue]; the
    entry of a comment event is named
    [comment-issue-{issueId}-{commentId}-{timestamp}.json], with the id of
    the comment between the id of the issue and the timestamp. The
    timestamp is the ISO time with colons and dot replaced by dashes. The
    record handed to the task is [{action, ...fields}], and a task whose
    file write is accepted leaves its JSON serialization in the file of
    that name under the log directory. *)
Theorem entry_names_and_bodies (w : World) (id_ : Z) (body : Body) (s : string)
    (existing : Issue) :
  let ts := replace_colon_dot (toISOString (clock w)) in
  (body_title body = str s -> s <> "" ->
   exists issue message_,
     enqueued (journal (handle (post_issues body) w))
     = enqueued (journal w) ++
       [makeCommitTask
          (spec_entry_name "create-issue" (issues_seq (db w) + 1) ts)
          (JObj [("action", JStr "create"); ("issue", issue)]) message_]) /\
  (issues (db w) !! id_ = Some existing ->
   exists before after message_,
     enqueued (journal (handle (put_issue id_ body) w))
     = enqueued (journal w) ++
       [makeCommitTask
          (spec_entry_name "update-issue" id_ ts)
          (JObj [("action", JStr "update"); ("before", before);
                 ("after", after)]) message_]) /\
  (body_text body = str s -> s <> "" ->
   issues (db w) !! id_ = Some existing -> db_ok (db w) ->
   exists issue comment message_,
     enqueued (journal (handle (post_comments id_ body) w))
     = enqueued (journal w) ++
       [makeCommitTask
          ("comment-issue-" +:+ pretty id_ +:+ "-"
           +:+ pretty (comments_seq (db w) + 1)%Z +:+ "-" +:+ ts +:+ ".json")
          (JObj [("action", JStr "comment"); ("issue", issue);
                 ("comment", comment)]) message_]) /\
  (forall (t : CommitTask) (f : Faults) (r : Repo),
      fs_fault f (path_join LOGS_DIR (task_filename t)) = None ->
      files (snd (task_body t f r)) !! path_join LOGS_DIR (task_filename t)
      = Some (JSON_stringify (task_content t))).
Proof.
  intros ts. split; [|split; [|split]].
  - intros Ht Hs. rewrite (post_issues_ok body w s Ht Hs). cbn [journal].
    rewrite enqueued_app. simpl. eauto.
  - intros He. rewrite (put_issue_ok id_ body w existing He). cbn [journal].
    rewrite enqueued_app. simpl. eauto.
  - intros Ht Hs He Hok.
    rewrite (post_comments_ok id_ body w s existing Ht Hs He Hok).
    cbn [journal]. rewrite enqueued_app. simpl. eauto.
  - intros t f r Hf. rewrite task_body_cases. rewrite Hf.
    destruct (exec_fault f _) as [e|];
      [|destruct (exec_fault f _) as [e|]]; simpl; apply lookup_insert_eq.
Qed.

(** A request served with no other request in flight. For each of the three
    handlers on a request it accepts, what the handler adds to the journal
    is, in this order: its database calls, the last of them the reads of
    the issue after the change; one emit; one push; the response. With
    nothing run between its awaits, the value emitted and the record in the
    pushed task both hold the snapshot of the issue as the database has it
    once the handler is done. *)
Theorem mutation_then_broadcast_then_enqueue (w : World) (id_ : Z) (body : Body)
    (s : string) (existing : Issue) :
  db_ok (db w) ->
  (body_title body = str s -> s <> "" ->
   let w' := handle (post_issues body) w in
   exists i snap task,
     snapshot (db w') i = Some snap /\
     journal w' = journal w ++
                  [DbRun INSERT_issue; DbGet SELECT_issue;
                   Emit "issue:created" snap; Enqueue task; Respond 201 snap] /\
     task_content task = JObj [("action", JStr "create"); ("issue", snap)] /\
     commitQueue w' = push call_task task (commitQueue w)) /\
  (issues (db w) !! id_ = Some existing ->
   let w' := handle (put_issue id_ body) w in
   exists snap task,
     snapshot (db w') id_ = Some snap /\
     journal w' = journal w ++
                  [DbGet SELECT_issue; DbRun UPDATE_issue; DbGet SELECT_issue;
                   DbAll SELECT_comments; Emit "issue:updated" snap;
                   Enqueue task; Respond 200 snap] /\
     task_content task = JObj [("action", JStr "update");
                               ("before", row_json existing); ("after", snap)] /\
     commitQueue w' = push call_task task (commitQueue w)) /\
  (body_text body = str s -> s <> "" -> issues (db w) !! id_ = Some existing ->
   let w' := handle (post_comments id_ body) w in
   exists snap c task,
     snapshot (db w') id_ = Some snap /\
     select_comment (comments_seq (db w')) (db w') = Some c /\
     journal w' = journal w ++
                  [DbGet SELECT_issue; DbRun INSERT_comment;
                   DbGet SELECT_comment; DbRun TOUCH_issue;
                   DbGet SELECT_issue; DbAll SELECT_comments;
                   Emit "issue:comment"
                     (JObj [("issue", snap); ("comment", comment_json c)]);
                   Enqueue task; Respond 201 (comment_json c)] /\
     task_content task = JObj [("action", JStr "comment"); ("issue", snap);
                               ("comment", comment_json c)] /\
     commitQueue w' = push call_task task (commitQueue w)).
Proof.
  intros Hok. split; [|split].
  - intros Ht Hs w'. subst w'. rewrite (post_issues_ok body w s Ht Hs).
    cbn [db journal commitQueue].
    eexists _, _, _. split; [|split; [reflexivity|split; reflexivity]].
    unfold snapshot. cbn [issues]. rewrite lookup_insert_eq.
    rewrite (no_comments_yet (db w)); [reflexivity|exact Hok|reflexivity].
  - intros He w'. subst w'. rewrite (put_issue_ok id_ body w existing He).
    cbn [db journal commitQueue].
    eexists _, _. split; [|split; [reflexivity|split; reflexivity]].
    unfold snapshot. cbn [issues]. rewrite lookup_insert_eq. reflexivity.
  - intros Ht Hs He w'. subst w'.
    rewrite (post_comments_ok id_ body w s existing Ht Hs He Hok).
    cbn [db journal commitQueue comments_seq].
    eexists _, _, _.
    split; [|split; [|split; [reflexivity|split; reflexivity]]].
    + unfold snapshot. cbn [issues]. rewrite lookup_insert_eq. reflexivity.
    + unfold select_comment. cbn [comments].
      apply find_fresh_comment; [|reflexivity].
      destruct Hok as [_ Hok]. eapply Forall_impl; [exact Hok|]. simpl; tauto.
Qed.

(** C9. A request that is rejected has no effect. A create without a
    title (absent, [null] or empty) is answered 400, an update of an id
    that is no issue's is answered 404, a comment without text is answered
    400 and a comment with text on an id that is no issue's is answered
    404; in each case nothing but the response (and the one lookup of the
    issue, where there is one) is added to the journal: no statement that
    writes, no emit, no push; and the database, the queue and the files
    are as before. *)
Theorem rejected_request_has_no_effect (w : World) (id_ : Z) (body : Body) :
  let answered (log : list Effect) : World :=
    {| db := db w; clock := clock w; commitQueue := commitQueue w;
       disk := disk w; commands := commands w;
       journal := journal w ++ log |} in
  (truthy (body_title body) = false ->
   serve w (POST_issues body)
   = answered [Respond 400 (error_json "title required")]) /\
  (issues (db w) !! id_ = None ->
   serve w (PUT_issue id_ body)
   = answered [DbGet SELECT_issue; Respond 404 (error_json "Issue not found")]) /\
  (truthy (body_text body) = false ->
   serve w (POST_comments id_ body)
   = answered [Respond 400 (error_json "text required")]) /\
  (truthy (body_text body) = true -> issues (db w) !! id_ = None ->
   serve w (POST_comments id_ body)
   = answered [DbGet SELECT_issue; Respond 404 (error_json "Issue not found")]).
Proof.
  intros answered. unfold serve.
  split; [|split; [|split]].
  - apply post_issues_rejected.
  - apply put_issue_missing.
  - apply post_comments_no_text.
  - apply post_comments_missing.
Qed.

(** C10. An update changes only the fields it supplies. After an update of
    an existing issue, each of title, description, status and assignee is
    the string the body supplied, or what it was when the body has the
    field absent or [null]; [updated_at] is the time of the update; the id
    and [created_at] of the row, every other row, the comments and the two
    counters are as before. *)
Theorem update_changes_only_supplied_fields (w : World) (id_ : Z) (body : Body)
    (r : Issue) :
  issues (db w) !! id_ = Some r ->
  let d' := db (serve w (PUT_issue id_ body)) in
  (exists r',
      issues d' !! id_ = Some r' /\
      title r' = match body_title body with str s => s | _ => title r end /\
      description r' = match body_description body with
                       | str s => Some s
                       | _ => description r
                       end /\
      status r' = match body_status body with str s => s | _ => status r end /\
      assignee r' = match body_assignee body with
                    | str s => Some s
                    | _ => assignee r
                    end /\
      updated_at r' = datetime (clock w) /\
      id r' = id r /\ created_at r' = created_at r) /\
  (forall j, j <> id_ -> issues d' !! j = issues (db w) !! j) /\
  comments d' = comments (db w) /\
  issues_seq d' = issues_seq (db w) /\
  comments_seq d' = comments_seq (db w).
Proof.
  intros Hr d'. subst d'. unfold serve.
  rewrite (put_issue_ok id_ body w r Hr).
  cbn [db issues comments issues_seq comments_seq].
  split; [|split; [|auto]].
  - eexists. split; [apply lookup_insert_eq|].
    cbn [title description status assignee updated_at id created_at].
    destruct (body_title body), (body_description body), (body_status body),
      (body_assignee body); simpl; auto 10.
  - intros j Hj. apply lookup_insert_ne. congruence.
Qed.

End Handlers.

(** * The tables stay well formed *)

Section Tables.

Lemma db_ok_boot (d : Date) : db_ok (db (boot d)).
Proof.
  split; [|constructor]. intros i r H. cbn in H.
  rewrite lookup_empty in H. discriminate.
Qed.

Lemma db_ok_insert_issue (d : Db) (row : Issue) :
  db_ok d ->
  db_ok {| issues := <[ (issues_seq d + 1)%Z := row ]> (issues d);
           issues_seq := issues_seq d + 1;
           comments := comments d; comments_seq := comments_seq d |}.
Proof.
  intros [Hi Hc]. split; cbn [issues issues_seq comments comments_seq].
  - intros i r H. destruct (decide (i = (issues_seq d + 1)%Z)) as [->|Hne]; [lia|].
    rewrite lookup_insert_ne in H by congruence. apply Hi in H. lia.
  - eapply Forall_impl; [exact Hc|]. simpl. intros c [? ?]. lia.
Qed.

Lemma db_ok_update_issue (d : Db) (i : Z) (row old : Issue) :
  db_ok d -> issues d !! i = Some old ->
  db_ok {| issues := <[ i := row ]> (issues d); issues_seq := issues_seq d;
           comments := comments d; comments_seq := comments_seq d |}.
Proof.
  intros [Hi Hc] Hold. split; cbn [issues issues_seq comments comments_seq].
  - intros j r H. destruct (decide (j = i)) as [->|Hne]; [eapply Hi, Hold|].
    rewrite lookup_insert_ne in H by congruence. eapply Hi, H.
  - exact Hc.
Qed.

Lemma db_ok_insert_comment (d : Db) (i : Z) (row old : Issue) (c : Comment) :
  db_ok d -> issues d !! i = Some old ->
  c_id c = (comments_seq d + 1)%Z -> c_issue_id c = i ->
  db_ok {| issues := <[ i := row ]> (issues d); issues_seq := issues_seq d;
           comments := comments d ++ [c];
           comments_seq := comments_seq d + 1 |}.
Proof.
  intros Hok Hold Hc Hci.
  destruct (db_ok_update_issue d i row old Hok Hold) as [Hi _].
  destruct Hok as [Hi0 Hcs].
  split; [exact Hi|]. cbn [issues issues_seq comments comments_seq] in *.
  apply Forall_app. split.
  - eapply Forall_impl; [exact Hcs|]. simpl. intros x [? ?]. lia.
  - constructor; [|constructor]. apply Hi0 in Hold. lia.
Qed.

(** Whatever happens to the server, the tables stay well formed. *)
Lemma db_ok_serve (w : World) (i : Input) :
  db_ok (db w) -> db_ok (db (serve w i)).
Proof.
  intros Hok. destruct i as [body|id_ body|id_ body|d|k f]; unfold serve.
  - destruct (truthy (body_title body)) eqn:Ht.
    + destruct (truthy_inv _ Ht) as (s & Hs & Hne).
      rewrite (post_issues_ok body w s Hs Hne). cbn [db].
      apply db_ok_insert_issue, Hok.
    + rewrite post_issues_rejected by assumption. exact Hok.
  - destruct (issues (db w) !! id_) as [r|] eqn:Hr.
    + rewrite (put_issue_ok id_ body w r Hr). cbn [db].
      eapply db_ok_update_issue; eauto.
    + rewrite put_issue_missing by assumption. exact Hok.
  - destruct (truthy (body_text body)) eqn:Ht.
    + destruct (issues (db w) !! id_) as [r|] eqn:Hr.
      * destruct (truthy_inv _ Ht) as (s & Hs & Hne).
        rewrite (post_comments_ok id_ body w s r Hs Hne Hr Hok). cbn [db].
        eapply db_ok_insert_comment; eauto.
      * rewrite post_comments_missing by assumption. exact Hok.
    + rewrite post_comments_no_text by assumption. exact Hok.
  - exact Hok.
  - unfold task_settles. destruct (_ !! k); [|exact Hok].
    destruct (task_body _ _ _). exact Hok.
Qed.

Lemma db_ok_serve_all (inputs : list Input) : forall w,
  db_ok (db w) -> db_ok (db (serve_all w inputs)).
Proof.
  induction inputs as [|i inputs IH]; intros w Hok; simpl; [exact Hok|].
  apply IH, db_ok_serve, Hok.
Qed.

End Tables.

(** * The theorems on the sample run *)

Section Examples.
Import CommitQueue.

(** Two tasks pushed, the first one rejected: the second is called after
    the first has settled. *)
Lemma tasks_run_one_at_a_time_witness :
  trace (run (with_ticket (fun _ : string => Returns)) init
             (number 0 [Push "A"; Push "B"; Settle 0 (Rejected Sample.disk_full)]))
  = [Started (0, "A"); Finished (0, "A") (Rejected Sample.disk_full)]
    ++ Started (1, "B") :: [] /\
  ((@nil (Obs (nat * string)) = [] \/
    exists o post', [] = Finished (1, "B") o :: post') /\
   forall a, a < fst (1, "B") ->
     exists x o p1 p2,
       [Started (0, "A"); Finished (0, "A") (Rejected Sample.disk_full)]
       = p1 ++ Started (a, x) :: Finished (a, x) o :: p2).
Proof.
  split; [reflexivity|].
  apply (tasks_run_one_at_a_time (fun _ : string => Returns)
           [Push "A"; Push "B"; Settle 0 (Rejected Sample.disk_full)]).
  reflexivity.
Defined.

(** Task B waits for task A only: once A has settled, B has been called. *)
Lemma every_task_attempted_once_witness :
  1 < pushes [Push "A"; Push "B"] /\
  1 - length (finished (run (with_ticket (fun _ : string => Returns)) init
                            (number 0 [Push "A"; Push "B"])))
  <= settles [@Settle string 0 (Rejected Sample.disk_full)] /\
  let s' :=
    run (with_ticket (fun _ : string => Returns))
        (run (with_ticket (fun _ : string => Returns)) init
             (number 0 [Push "A"; Push "B"]))
        (number (pushes [Push "A"; Push "B"])
                [Settle 0 (Rejected Sample.disk_full)]) in
  (exists k, map fst (started s') = seq 0 k /\ 1 < k) /\
  count_occ Nat.eq_dec (map fst (started s')) 1 = 1 /\
  ~ In 1 (map fst (queue s')).
Proof.
  split; [simpl; lia|]. split; [simpl; lia|].
  apply (every_task_attempted_once (fun _ : string => Returns)
           [Push "A"; Push "B"] [Settle 0 (Rejected Sample.disk_full)] 1);
    simpl; lia.
Defined.


(** Two updates of one issue, one millisecond apart and in one
    millisecond. *)
Lemma names_collide_within_a_millisecond_witness :
  valid_date Sample.t0 /\ valid_date Sample.t1 /\
  let ts1 := replace_colon_dot (toISOString Sample.t0) in
  let ts2 := replace_colon_dot (toISOString Sample.t1) in
  (create_filename 1 ts1 = create_filename 1 ts2 <-> Sample.t0 = Sample.t1) /\
  (update_filename 1 ts1 = update_filename 1 ts2 <-> Sample.t0 = Sample.t1) /\
  (comment_filename 1 2 ts1 = comment_filename 1 2 ts2
   <-> Sample.t0 = Sample.t1).
Proof.
  assert (H0 : valid_date Sample.t0) by (unfold valid_date; simpl; lia).
  assert (H1 : valid_date Sample.t1) by (unfold valid_date; simpl; lia).
  split; [exact H0|]. split; [exact H1|].
  apply (names_collide_within_a_millisecond Sample.t0 Sample.t1 1 2 H0 H1).
Defined.

(** C4 fails as stated: two different updates of issue 1 handled within one
    millisecond are both accepted and both queued, under one file name. *)
Lemma same_millisecond_updates_collide :
  exists t1 t2,
    queue (commitQueue Sample.two_updates) = [t1; t2] /\
    task_content t1 <> task_content t2 /\
    task_filename t1 = task_filename t2.
Proof.
  eexists _, _. split; [vm_compute; reflexivity|].
  split; [|reflexivity]. cbn. congruence.
Qed.



(** C6 fails as stated: the entry of the second comment on issue 1 is not
    named [{kind}-1-{timestamp}.json], whatever the kind. *)
Lemma comment_entry_name_is_not_of_the_scheme :
  exists t1 t2 t3,
    enqueued (journal Sample.two_comments) = [t1; t2; t3] /\
    forall kind,
      task_filename t3
      <> spec_entry_name kind 1 (replace_colon_dot (toISOString Sample.t0)).
Proof.
  eexists _, _, _. split; [vm_compute; reflexivity|].
  intros kind E.
  assert (E' : "comment-issue-1" +:+ "-2-2024-03-09T07-05-59-042Z.json"
               = kind +:+ "-1-2024-03-09T07-05-59-042Z.json") by exact E.
  apply append_same_length in E'; [|reflexivity].
  destruct E' as [_ E']. discriminate E'.
Qed.

(** The three handlers on a server that holds one issue. *)
Lemma mutation_then_broadcast_then_enqueue_witness :
  db_ok (db Sample.created) /\
  (body_title Sample.full = str "hi" -> "hi" <> "" ->
   let w' := handle (post_issues Sample.full) Sample.created in
   exists i snap task,
     snapshot (db w') i = Some snap /\
     journal w' = journal Sample.created ++
                  [DbRun INSERT_issue; DbGet SELECT_issue;
                   Emit "issue:created" snap; Enqueue task; Respond 201 snap] /\
     task_content task = JObj [("action", JStr "create"); ("issue", snap)] /\
     commitQueue w' = push call_task task (commitQueue Sample.created)) /\
  (issues (db Sample.created) !! 1%Z = Some Sample.issue1 ->
   let w' := handle (put_issue 1 Sample.full) Sample.created in
   exists snap task,
     snapshot (db w') 1 = Some snap /\
     journal w' = journal Sample.created ++
                  [DbGet SELECT_issue; DbRun UPDATE_issue; DbGet SELECT_issue;
                   DbAll SELECT_comments; Emit "issue:updated" snap;
                   Enqueue task; Respond 200 snap] /\
     task_content task = JObj [("action", JStr "update");
                               ("before", row_json Sample.issue1);
                               ("after", snap)] /\
     commitQueue w' = push call_task task (commitQueue Sample.created)) /\
  (body_text Sample.full = str "hi" -> "hi" <> "" ->
   issues (db Sample.created) !! 1%Z = Some Sample.issue1 ->
   let w' := handle (post_comments 1 Sample.full) Sample.created in
   exists snap c task,
     snapshot (db w') 1 = Some snap /\
     select_comment (comments_seq (db w')) (db w') = Some c /\
     journal w' = journal Sample.created ++
                  [DbGet SELECT_issue; DbRun INSERT_comment;
                   DbGet SELECT_comment; DbRun TOUCH_issue;
                   DbGet SELECT_issue; DbAll SELECT_comments;
                   Emit "issue:comment"
                     (JObj [("issue", snap); ("comment", comment_json c)]);
                   Enqueue task; Respond 201 (comment_json c)] /\
     task_content task = JObj [("action", JStr "comment"); ("issue", snap);
                               ("comment", comment_json c)] /\
     commitQueue w' = push call_task task (commitQueue Sample.created)).
Proof.
  assert (Hok : db_ok (db Sample.created)) by apply db_ok_serve, db_ok_boot.
  split; [exact Hok|].
  apply (mutation_then_broadcast_then_enqueue Sample.created 1 Sample.full "hi"
           Sample.issue1 Hok).
Defined.

(** Issue 1 is closed: only its status and [updated_at] change. *)
Lemma update_changes_only_supplied_fields_witness :
  issues (db Sample.created) !! 1%Z = Some Sample.issue1 /\
  let d' := db (serve Sample.created (PUT_issue 1 Sample.close)) in
  (exists r',
      issues d' !! 1%Z = Some r' /\
      title r' = "x" /\ description r' = Some "" /\ status r' = "closed" /\
      assignee r' = None /\
      updated_at r' = datetime (clock Sample.created) /\
      id r' = 1%Z /\ created_at r' = "2024-03-09 07:05:59") /\
  (forall j, j <> 1%Z -> issues d' !! j = issues (db Sample.created) !! j) /\
  comments d' = comments (db Sample.created) /\
  issues_seq d' = issues_seq (db Sample.created) /\
  comments_seq d' = comments_seq (db Sample.created).
Proof.
  split; [vm_compute; reflexivity|].
  apply (update_changes_only_supplied_fields Sample.created 1 Sample.close
           Sample.issue1).
  vm_compute; reflexivity.
Defined.

(** The log entry of the new issue, as the task leaves it on the disk. *)
Example create_entry_on_disk :
  disk (serve Sample.created (TaskDone 0 no_faults))
  !! "issue_logs/create-issue-1-2024-03-09T07-05-59-042Z.json"
  = Some (JSON_stringify
            (JObj [("action", JStr "create");
                   ("issue", issue_json Sample.issue1 [])])) /\
  commands (serve Sample.created (TaskDone 0 no_faults))
  = [git_add "issue_logs/create-issue-1-2024-03-09T07-05-59-042Z.json";
     git_commit "Create issue #1: x"].
Proof. split; vm_compute; reflexivity. Qed.

(** Git is down: the entry is written, nothing is committed, the failure
    goes to the console and the task's promise resolves. *)
Example git_failure_is_swallowed :
  let w' := serve Sample.created (TaskDone 0 Sample.git_down) in
  commands w' = [] /\
  console (commitQueue w')
  = [Error [AStr "Git error:"; AStr "fatal: index.lock exists"]] /\
  finished (commitQueue w') = [(Sample.create_task, Fulfilled)] /\
  running (commitQueue w') = false.
Proof. repeat split; vm_compute; reflexivity. Qed.

(** Three pushes in a row enter the worker loop once: the first task is
    awaited, the other two wait in the queue. *)
Example three_pushes_one_worker :
  let s := run (fun _ : string => Returns) init [Push "A"; Push "B"; Push "C"] in
  entries s = 1 /\ awaiting s = ["A"] /\ queue s = ["B"; "C"] /\
  running s = true.
Proof. repeat split; reflexivity. Qed.

(** A task that throws at the call is logged and the loop goes on in the
    same turn. *)
Example thrown_at_the_call :
  let call (t : string) :=
    if String.eqb t "bad" then Throws Sample.disk_full else Returns in
  let s := run call init [Push "bad"; Push "A"; Push "bad"; Settle 0 Fulfilled] in
  trace s = [Started "bad"; Finished "bad" (Rejected Sample.disk_full);
             Started "A"; Finished "A" Fulfilled;
             Started "bad"; Finished "bad" (Rejected Sample.disk_full)] /\
  console s = [caught Sample.disk_full; caught Sample.disk_full] /\
  running s = false /\ entries s = 2.
Proof. repeat split; reflexivity. Qed.

(** Requests the handlers reject, on a server that holds issue 1 only. *)
Example rejected_requests_on_the_sample :
  enqueued (journal (serve_all Sample.created
                       [POST_issues Sample.no_body; PUT_issue 7 Sample.close;
                        POST_comments 1 Sample.no_body;
                        POST_comments 7 Sample.hello]))
  = enqueued (journal Sample.created) /\
  db (serve_all Sample.created
        [POST_issues Sample.no_body; PUT_issue 7 Sample.close;
         POST_comments 1 Sample.no_body; POST_comments 7 Sample.hello])
  = db Sample.created.
Proof. split; vm_compute; reflexivity. Qed.

End Examples.

(** * More about the queue *)

Section QueueOrder.
Import CommitQueue.
Context {T : Type}.
Variable call : T -> Called.


(** One pass of the loop: the tasks that threw at the call are settled, the
    first that did not is awaited, the rest stays queued; each throw is
    printed. *)
Lemma loop_passes q (s : State T) done :
  awaiting s = [] -> trace s = one_by_one done ->
  exists extra,
    trace (loop call q s)
    = one_by_one (done ++ extra) ++ map Started (awaiting (loop call q s)) /\
    map fst extra ++ awaiting (loop call q s) ++ queue (loop call q s) = q /\
    console (loop call q s) = console s ++ logged extra.
Proof.
  revert s done; induction q as [|t q IH]; intros s done Ha Htr; simpl.
  - exists []. rewrite Ha, Htr. simpl. rewrite !app_nil_r. auto.
  - destruct (call t) as [err|].
    + destruct (IH {| queue := q; running := running s; awaiting := awaiting s;
                      console := console s ++ [caught err];
                      trace := trace s ++ [Started t; Finished t (Rejected err)];
                      entries := entries s |} (done ++ [(t, Rejected err)]))
        as (extra & H1 & H2 & H3); simpl; [assumption | |].
      * rewrite Htr, one_by_one_app. reflexivity.
      * exists ((t, Rejected err) :: extra). simpl in H3.
        rewrite <- app_assoc in H1. split; [exact H1|]. split.
        -- simpl. now rewrite H2.
        -- rewrite H3, <- app_assoc. reflexivity.
    + exists []. simpl. rewrite Ha, Htr. simpl. rewrite !app_nil_r. auto.
Qed.

Lemma orderly_init : orderly (@init T) [].
Proof. exists []. split; [reflexivity|]. split; [reflexivity|apply stable_init]. Qed.

Lemma orderly_push task (s : State T) ps :
  orderly s ps -> orderly (push call task s) (ps ++ [task]).
Proof.
  intros (done & Htr & Hps & Hs). pose proof (stable_push call task s Hs) as Hs'.
  destruct (running s) eqn:Hr.
  - rewrite push_busy in * by assumption. exists done.
    cbn [trace awaiting queue]. split; [exact Htr|]. split; [|exact Hs'].
    rewrite <- Hps, <- !app_assoc. reflexivity.
  - destruct (stable_idle s Hs Hr) as [Ha Hq].
    rewrite push_idle in * by assumption. rewrite Ha, Hq in *.
    simpl in Htr, Hps. rewrite app_nil_r in Htr, Hps. simpl app in *.
    set (s0 := {| queue := [task]; running := true; awaiting := [];
                  console := console s; trace := trace s;
                  entries := S (entries s) |}) in *.
    destruct (loop_passes [task] s0 done eq_refl Htr) as (extra & H1 & H2 & _).
    exists (done ++ extra). split; [exact H1|]. split; [|exact Hs'].
    rewrite map_app, <- app_assoc, H2, Hps. reflexivity.
Qed.

Lemma orderly_settle i o (s : State T) ps :
  orderly s ps -> orderly (settle call i o s) ps.
Proof.
  intros (done & Htr & Hps & Hs). pose proof (stable_settle call i o s Hs) as Hs'.
  unfold settle in *. destruct (awaiting s !! i) as [t|] eqn:E.
  2:{ exists done; auto. }
  destruct (stable_awaiting s Hs) as [Ha|[u Ha]]; rewrite Ha in E; [discriminate|].
  destruct i as [|i]; [|discriminate]. simpl in E. injection E as ->.
  rewrite Ha in *. simpl in Htr, Hps. simpl take in *. simpl drop in *.
  simpl app in *.
  set (s0 := {| queue := queue s; running := running s; awaiting := [];
                console := match o with
                           | Fulfilled => console s
                           | Rejected err => console s ++ [caught err]
                           end;
                trace := trace s ++ [Finished t o];
                entries := entries s |}) in *.
  assert (Htr0 : trace s0 = one_by_one (done ++ [(t, o)])).
  { simpl. rewrite Htr, <- app_assoc, one_by_one_app. reflexivity. }
  destruct (loop_passes (queue s) s0 _ eq_refl Htr0) as (extra & H1 & H2 & _).
  exists ((done ++ [(t, o)]) ++ extra). split; [exact H1|]. split; [|exact Hs'].
  rewrite !map_app, <- !app_assoc, H2. exact Hps.
Qed.

Lemma orderly_run evs : forall (s : State T) ps,
  orderly s ps -> orderly (run call s evs) (ps ++ pushed evs).
Proof.
  induction evs as [|[task|i o] evs IH]; intros s ps Hs; simpl.
  - now rewrite app_nil_r.
  - replace (ps ++ task :: pushed evs) with ((ps ++ [task]) ++ pushed evs)
      by (rewrite <- app_assoc; reflexivity).
    apply IH, orderly_push, Hs.
  - apply IH, orderly_settle, Hs.
Qed.

Lemma orderly_all_tasks (s : State T) ps : orderly s ps -> all_tasks s = ps.
Proof.
  intros (done & Htr & Hps & _). unfold all_tasks.
  destruct (trace_one_by_one s done Htr) as [_ ->]. exact Hps.
Qed.

(** X1. No task is lost, doubled or moved. After any history of pushes and
    settlements, the tasks settled so far, then the task awaited, then the
    tasks waiting are exactly the tasks handed to [push], in the order of the
    calls. *)
Theorem queue_keeps_every_task (evs : list (Event T)) :
  all_tasks (run call init evs) = pushed evs.
Proof.
  apply orderly_all_tasks.
  apply (orderly_run evs init [] orderly_init).
Qed.





Lemma loop_lengths q (s : State T) :
  awaiting s = [] ->
  length (awaiting (loop call q s)) + length (queue (loop call q s)) <= length q.
Proof.
  revert s; induction q as [|t q IH]; intros s Ha; simpl.
  - rewrite Ha. simpl. lia.
  - destruct (call t) as [err|].
    + etransitivity; [apply IH; exact Ha|]. lia.
    + simpl. rewrite Ha. simpl. lia.
Qed.

Lemma stable_nothing_awaited (s : State T) :
  stable s -> awaiting s = [] -> running s = false /\ queue s = [].
Proof.
  intros Hs Ha. assert (Hr : running s = false).
  { destruct Hs as (_ & Hr & _). destruct (running s); [|reflexivity].
    destruct (proj1 Hr eq_refl). exact Ha. }
  split; [exact Hr|]. apply (stable_idle s Hs Hr).
Qed.

Lemma orderly_drains outcomes : forall (s : State T) ps,
  orderly s ps ->
  length (awaiting s ++ queue s) <= length outcomes ->
  let s' := run call s (map (Settle 0) outcomes) in
  running s' = false /\ awaiting s' = [] /\ queue s' = [] /\
  map fst (finished s') = ps.
Proof.
  induction outcomes as [|o outcomes IH]; intros s ps Hord Hlen; simpl in *.
  - destruct (awaiting s) as [|t aw] eqn:Ha; [|simpl in Hlen; lia].
    destruct (queue s) as [|t q] eqn:Hq; [|simpl in Hlen; lia].
    pose proof (orderly_all_tasks s ps Hord) as Hall. unfold all_tasks in Hall.
    rewrite Ha, Hq, !app_nil_r in Hall.
    destruct Hord as (_ & _ & _ & Hs).
    destruct (stable_nothing_awaited s Hs Ha) as [Hr _]. auto.
  - apply IH; [apply orderly_settle, Hord|].
    destruct Hord as (done & Htr & Hps & Hs).
    destruct (stable_awaiting s Hs) as [Ha|[t Ha]].
    + destruct (stable_nothing_awaited s Hs Ha) as [_ Hq].
      unfold settle. rewrite Ha. simpl. rewrite Ha, Hq. simpl. lia.
    + unfold settle. rewrite Ha. simpl lookup. cbv iota. rewrite length_app.
      match goal with |- context [loop call ?q ?s0] =>
        pose proof (loop_lengths q s0 eq_refl) as Hl end.
      rewrite Ha, length_app in Hlen. simpl in Hlen. lia.
Qed.

(** X3. The queue drains and goes idle. From the state after any history,
    let the awaited promise settle, with any outcomes, at least as many
    times as there are tasks awaited or waiting. Then the worker has
    returned: [running] is false, nothing is awaited, the queue is empty,
    and the tasks settled are all the tasks pushed, in push order. *)
Theorem queue_drains_to_idle (evs : list (Event T)) (outcomes : list Outcome) :
  length (awaiting (run call init evs) ++ queue (run call init evs))
  <= length outcomes ->
  let s' := run call (run call init evs) (map (Settle 0) outcomes) in
  running s' = false /\ awaiting s' = [] /\ queue s' = [] /\
  map fst (finished s') = pushed evs.
Proof.
  intros Hlen.
  apply (orderly_drains outcomes (run call init evs) (pushed evs)); [|exact Hlen].
  apply (orderly_run evs init [] orderly_init).
Qed.

End QueueOrder.

(** * More about commit tasks *)

Section TaskFacts.


Lemma escape_dq_head (s : string) c rest :
  escape_dq s = String c rest -> c <> dq.
Proof.
  destruct s as [|c' s]; simpl; [discriminate|].
  destruct (Ascii.eqb_spec c' dq) as [->|Hne]; intros E; injection E as <- _.
  - discriminate.
  - exact Hne.
Qed.

Lemma never_bare (s : string) : forall b, has_bare_quote b (escape_dq s) = false.
Proof.
  induction s as [|c s IH]; intros b; simpl; [reflexivity|].
  destruct (Ascii.eqb_spec c dq) as [->|Hne]; simpl.
  - apply IH.
  - destruct (Ascii.eqb_spec c dq); [contradiction|]. apply IH.
Qed.

(** X5. Every double quote of a commit message is escaped. In the text put
    between the quotes of [git commit -m "..."], no double quote stands
    without a backslash right before it; a message without double quotes is
    passed as it is. *)
Theorem message_quotes_are_escaped (s : string) :
  has_bare_quote false (escape_dq s) = false /\
  (holds dq s = false -> escape_dq s = s).
Proof.
  split; [apply never_bare|].
  induction s as [|c s IH]; simpl; [reflexivity|].
  destruct (Ascii.eqb c dq); simpl; [discriminate|].
  intros H. now rewrite IH.
Qed.

Lemma escape_dq_inj (a : string) : forall b, escape_dq a = escape_dq b -> a = b.
Proof.
  induction a as [|c a IH]; intros [|c' b]; simpl.
  - reflexivity.
  - destruct (Ascii.eqb c' dq); discriminate.
  - destruct (Ascii.eqb c dq); discriminate.
  - destruct (Ascii.eqb_spec c dq) as [->|Hc], (Ascii.eqb_spec c' dq) as [->|Hc'];
      intros E.
    + injection E as E. f_equal. apply IH, E.
    + injection E as _ E. symmetry in E. apply escape_dq_head in E. contradiction.
    + injection E as _ E. apply escape_dq_head in E. contradiction.
    + injection E as -> E. f_equal. apply IH, E.
Qed.

(** X6. Different messages give different command lines: escaping the
    double quotes loses nothing. *)
Theorem escaping_is_injective (s1 s2 : string) :
  git_commit s1 = git_commit s2 <-> s1 = s2.
Proof.
  split; [|intros ->; reflexivity].
  unfold git_commit. intros E. apply append_cancel_l in E.
  change (String dq (escape_dq s1 +:+ String dq " --no-verify")
          = String dq (escape_dq s2 +:+ String dq " --no-verify")) in E.
  injection E as E. apply append_same_length in E; [|reflexivity].
  apply escape_dq_inj, E.
Qed.

End TaskFacts.

(** * More about file names *)

Section MoreFileNames.

(** X7. The timestamp of a file name has no colon and no dot.
    [replace(/[:.]/g,'-')] leaves a string of the same length in which
    neither character occurs. *)
Theorem timestamp_has_no_colon_or_dot (s : string) :
  holds ":" (replace_colon_dot s) = false /\
  holds "." (replace_colon_dot s) = false /\
  String.length (replace_colon_dot s) = String.length s.
Proof.
  induction s as [|c s (IH1 & IH2 & IH3)]; simpl; [auto|].
  rewrite IH1, IH2, IH3, !orb_false_r. unfold dash.
  destruct (Ascii.eqb_spec c ":") as [->|H1]; [auto|].
  destruct (Ascii.eqb_spec c ".") as [->|H2]; [auto|]. simpl.
  destruct (Ascii.eqb_spec c ":"), (Ascii.eqb_spec c "."); try contradiction.
  auto.
Qed.

Lemma pretty_N_go_dashless (x : N) : forall s,
  holds "-" s = false -> holds "-" (pretty_N_go x s) = false.
Proof.
  induction (N.lt_wf_0 x) as [x _ IH]; intros s Hs.
  destruct (decide (x = 0%N)) as [->|Hx]; [rewrite pretty_N_go_0; exact Hs|].
  rewrite pretty_N_go_step by lia. apply IH; [apply N.div_lt; lia|].
  simpl. rewrite Hs, orb_false_r.
  unfold pretty_N_char. repeat case_match; reflexivity.
Qed.

Lemma pretty_Z_dashless (i : Z) : (0 <= i)%Z -> holds "-" (pretty i) = false.
Proof.
  destruct i as [|p|p]; intros Hi; [reflexivity| |lia].
  change (holds "-" (pretty (N.pos p)) = false). unfold pretty, pretty_N.
  destruct (decide (N.pos p = 0%N)); [reflexivity|].
  apply pretty_N_go_dashless. reflexivity.
Qed.

Lemma split_at_dash (a : string) : forall b x y,
  holds "-" a = false -> holds "-" b = false ->
  a +:+ String "-" x = b +:+ String "-" y -> a = b /\ x = y.
Proof.
  induction a as [|c a IH]; intros [|c' b] x y Ha Hb E.
  - change (String "-" x = String "-" y) in E. injection E as ->. auto.
  - change (String "-" x = String c' (b +:+ String "-" y)) in E.
    injection E as <- _. discriminate Hb.
  - change (String c (a +:+ String "-" x) = String "-" y) in E.
    injection E as -> _. discriminate Ha.
  - change (String c (a +:+ String "-" x) = String c' (b +:+ String "-" y)) in E.
    injection E as -> E. simpl in Ha, Hb.
    apply orb_false_iff in Ha as [_ Ha]. apply orb_false_iff in Hb as [_ Hb].
    destruct (IH b x y Ha Hb E) as [-> ->]. auto.
Qed.

Lemma timestamp_length (d : Date) :
  valid_date d -> String.length (replace_colon_dot (toISOString d)) = 24.
Proof.
  intros (Hy & _). unfold toISOString.
  rewrite (proj2 (N.leb_le _ 9999) Hy). reflexivity.
Qed.

(** The end of a file name: a dash, the timestamp, [.json]. *)
Lemma name_tail (d1 d2 : Date) (a b : string) :
  valid_date d1 -> valid_date d2 ->
  a +:+ "-" +:+ replace_colon_dot (toISOString d1) +:+ ".json"
  = b +:+ "-" +:+ replace_colon_dot (toISOString d2) +:+ ".json" ->
  a = b /\ d1 = d2.
Proof.
  intros H1 H2 E. apply append_same_length in E.
  - destruct E as [-> E]. split; [reflexivity|].
    change (String "-" (replace_colon_dot (toISOString d1) +:+ ".json")
            = String "-" (replace_colon_dot (toISOString d2) +:+ ".json")) in E.
    injection E as E. apply (timestamp_inj d1 d2 _ _ H1 H2 E).
  - change (S (String.length (replace_colon_dot (toISOString d1) +:+ ".json"))
            = S (String.length (replace_colon_dot (toISOString d2) +:+ ".json"))).
    rewrite !length_append, !timestamp_length by assumption. reflexivity.
Qed.

(** X8. A file name tells its event. For times that are real instants, the
    name of a create or update entry determines the id of the issue and the
    time to the millisecond, and the name of a comment entry on issues with
    ids from 0 up determines the id of the issue, the id of the comment and
    the time. Entries of different kinds never share a name. So two entries
    collide only when kind, ids and millisecond all agree. *)
Theorem file_name_tells_its_event (d1 d2 : Date) (i1 i2 c1 c2 : Z) :
  valid_date d1 -> valid_date d2 ->
  let ts1 := replace_colon_dot (toISOString d1) in
  let ts2 := replace_colon_dot (toISOString d2) in
  (create_filename i1 ts1 = create_filename i2 ts2 -> i1 = i2 /\ d1 = d2) /\
  (update_filename i1 ts1 = update_filename i2 ts2 -> i1 = i2 /\ d1 = d2) /\
  ((0 <= i1)%Z -> (0 <= i2)%Z ->
   comment_filename i1 c1 ts1 = comment_filename i2 c2 ts2 ->
   i1 = i2 /\ c1 = c2 /\ d1 = d2) /\
  create_filename i1 ts1 <> update_filename i2 ts2 /\
  create_filename i1 ts1 <> comment_filename i2 c2 ts2 /\
  update_filename i1 ts1 <> comment_filename i2 c2 ts2.
Proof.
  intros H1 H2 ts1 ts2. subst ts1 ts2.
  unfold create_filename, update_filename, comment_filename.
  split; [|split; [|split; [|split; [|split]]]].
  - intros E. apply append_cancel_l in E.
    destruct (name_tail d1 d2 _ _ H1 H2 E) as [Ei ->].
    apply pretty_Z_inj in Ei. auto.
  - intros E. apply append_cancel_l in E.
    destruct (name_tail d1 d2 _ _ H1 H2 E) as [Ei ->].
    apply pretty_Z_inj in Ei. auto.
  - intros Hi1 Hi2 E. apply append_cancel_l in E.
    change (pretty i1 +:+ String "-" (pretty c1 +:+ "-"
              +:+ replace_colon_dot (toISOString d1) +:+ ".json")
            = pretty i2 +:+ String "-" (pretty c2 +:+ "-"
              +:+ replace_colon_dot (toISOString d2) +:+ ".json")) in E.
    apply split_at_dash in E; [|apply pretty_Z_dashless; assumption..].
    destruct E as [Ei E]. destruct (name_tail d1 d2 _ _ H1 H2 E) as [Ec ->].
    apply pretty_Z_inj in Ei, Ec. auto.
  - intros E. apply (f_equal (String.get 0)) in E. discriminate E.
  - intros E. apply (f_equal (String.get 1)) in E. discriminate E.
  - intros E. apply (f_equal (String.get 0)) in E. discriminate E.
Qed.

End MoreFileNames.

(** * More about the server *)

Section ServerRuns.
Import CommitQueue.

Lemma responses_app (j1 j2 : list Effect) :
  responses (j1 ++ j2) = responses j1 ++ responses j2.
Proof.
  induction j1 as [|e j1 IH]; simpl; [reflexivity|].
  destruct e; simpl; congruence.
Qed.

Lemma unhandled_app (j1 j2 : list Effect) :
  unhandled (j1 ++ j2) = unhandled j1 ++ unhandled j2.
Proof.
  induction j1 as [|e j1 IH]; simpl; [reflexivity|].
  destruct e; simpl; congruence.
Qed.

(** What one request does, on well-formed tables: it is turned down and
    changes nothing, or it is carried out and pushes one task. *)
Lemma serve_request (w : World) (i : Input) :
  db_ok (db w) -> is_request i = true ->
  exists code ops,
    journal (serve w i) = journal w ++ ops /\
    responses ops = [code] /\ unhandled ops = [] /\
    disk (serve w i) = disk w /\ commands (serve w i) = commands w /\
    ((code = 400 \/ code = 404) /\ enqueued ops = [] /\
     commitQueue (serve w i) = commitQueue w /\ db (serve w i) = db w \/
     (code = 200 \/ code = 201) /\
     exists task, enqueued ops = [task] /\
                  commitQueue (serve w i) = push call_task task (commitQueue w)).
Proof.
  intros Hok Hreq.
  destruct i as [body|id_ body|id_ body|d|k f]; try discriminate; unfold serve.
  - destruct (truthy (body_title body)) eqn:Ht.
    + destruct (truthy_inv _ Ht) as (s & Hs & Hne).
      rewrite (post_issues_ok body w s Hs Hne). cbn [journal disk commands].
      eexists 201, _. split; [reflexivity|]. repeat split. right. eauto.
    + rewrite post_issues_rejected by assumption. cbn [journal disk commands].
      eexists 400, _. split; [reflexivity|]. repeat split. left. auto.
  - destruct (issues (db w) !! id_) as [r|] eqn:Hr.
    + rewrite (put_issue_ok id_ body w r Hr). cbn [journal disk commands].
      eexists 200, _. split; [reflexivity|]. repeat split. right. eauto.
    + rewrite put_issue_missing by assumption. cbn [journal disk commands].
      eexists 404, _. split; [reflexivity|]. repeat split. left. auto.
  - destruct (truthy (body_text body)) eqn:Ht.
    + destruct (issues (db w) !! id_) as [r|] eqn:Hr.
      * destruct (truthy_inv _ Ht) as (s & Hs & Hne).
        rewrite (post_comments_ok id_ body w s r Hs Hne Hr Hok).
        cbn [journal disk commands].
        eexists 201, _. split; [reflexivity|]. repeat split. right. eauto.
      * rewrite post_comments_missing by assumption. cbn [journal disk commands].
        eexists 404, _. split; [reflexivity|]. repeat split. left. auto.
    + rewrite post_comments_no_text by assumption. cbn [journal disk commands].
      eexists 400, _. split; [reflexivity|]. repeat split. left. auto.
Qed.

Lemma serve_other (w : World) (i : Input) :
  is_request i = false -> journal (serve w i) = journal w.
Proof.
  destruct i as [body|id_ body|id_ body|d|k f]; try discriminate; intros _.
  - reflexivity.
  - unfold serve, task_settles. destruct (_ !! k); [|reflexivity].
    destruct (task_body _ _ _). reflexivity.
Qed.

Lemma orderly_serve (w : World) (i : Input) :
  db_ok (db w) ->
  orderly (commitQueue w) (enqueued (journal w)) ->
  orderly (commitQueue (serve w i)) (enqueued (journal (serve w i))).
Proof.
  intros Hok Hord. destruct (is_request i) eqn:Hreq.
  - destruct (serve_request w i Hok Hreq)
      as (code & ops & Hj & _ & _ & _ & _ & Hcase).
    rewrite Hj, enqueued_app.
    destruct Hcase as [(_ & -> & -> & _)|(_ & task & -> & ->)].
    + rewrite app_nil_r. exact Hord.
    + apply orderly_push, Hord.
  - rewrite (serve_other w i Hreq).
    destruct i as [body|id_ body|id_ body|d|k f]; try discriminate.
    + exact Hord.
    + unfold serve, task_settles. destruct (_ !! k); [|exact Hord].
      destruct (task_body _ _ _). cbn [commitQueue].
      apply orderly_settle. exact Hord.
Qed.

End ServerRuns.

(** * More about the handlers *)

Section MoreHandlers.
Import CommitQueue.

(** X12. A created issue reads back as it was sent. On well-formed tables, a
    create with a title takes the next id, which no row had; the new row
    holds the title, status [open], the description sent or the empty
    string when none or an empty one was sent, the assignee sent or NULL
    when none or an empty one was sent, and the time of the request in both
    timestamps. No other row and no comment changes, and the table has one
    row more. *)
Theorem created_issue_reads_back (w : World) (body : Body) (s : string) :
  db_ok (db w) -> body_title body = str s -> s <> "" ->
  let i := (issues_seq (db w) + 1)%Z in
  let d' := db (serve w (POST_issues body)) in
  issues (db w) !! i = None /\
  (exists r,
      issues d' !! i = Some r /\ id r = i /\ title r = s /\ status r = "open" /\
      description r = Some match body_description body with
                           | str t => t
                           | _ => ""
                           end /\
      assignee r = match body_assignee body with
                   | str a => if String.eqb a "" then None else Some a
                   | _ => None
                   end /\
      created_at r = datetime (clock w) /\ updated_at r = datetime (clock w)) /\
  (forall j, j <> i -> issues d' !! j = issues (db w) !! j) /\
  comments d' = comments (db w) /\
  issues_seq d' = i /\
  size (issues d') = S (size (issues (db w))).
Proof.
  intros [Hok _] Ht Hs i d'. subst d'. unfold serve.
  rewrite (post_issues_ok body w s Ht Hs).
  cbn [db issues comments issues_seq]. fold i.
  assert (Hfresh : issues (db w) !! i = None).
  { destruct (issues (db w) !! i) as [r|] eqn:E; [|reflexivity].
    apply Hok in E. subst i. lia. }
  split; [exact Hfresh|]. split; [|split; [|split; [|split]]].
  - eexists. split; [apply lookup_insert_eq|].
    cbn [id title status description assignee created_at updated_at].
    repeat split.
    + destruct (body_description body) as [| |t]; try reflexivity.
      unfold js_or. simpl. destruct (String.eqb_spec t ""); subst; reflexivity.
    + destruct (body_assignee body) as [| |a]; try reflexivity.
      unfold js_or. simpl. destruct (String.eqb a ""); reflexivity.
  - intros j Hj. apply lookup_insert_ne. congruence.
  - reflexivity.
  - reflexivity.
  - apply map_size_insert_None, Hfresh.
Qed.

Lemma in_insert_by_created_at (c x : Comment) (l : list Comment) :
  In x (insert_by_created_at c l) <-> x = c \/ In x l.
Proof.
  induction l as [|y l IH]; simpl; [intuition|].
  destruct (String.ltb _ _); simpl; rewrite ?IH; intuition.
Qed.

Lemma in_order_by_created_at (x : Comment) (l : list Comment) :
  In x (order_by_created_at l) <-> In x l.
Proof.
  induction l as [|y l IH]; simpl; [reflexivity|].
  rewrite in_insert_by_created_at, IH. intuition.
Qed.

(** A comment is among the comments of an issue exactly when it is a row of
    the table with that issue's id. *)
Lemma in_select_comments (x : Comment) (i : Z) (d : Db) :
  In x (select_comments i d) <-> In x (comments d) /\ c_issue_id x = i.
Proof.
  unfold select_comments. rewrite in_order_by_created_at, filter_In.
  rewrite Z.eqb_eq. reflexivity.
Qed.

(** X13. A comment is added to its issue and to nothing else. On
    well-formed tables, a comment with a text on an existing issue appends
    one row to the comments, with the next comment id (which no comment
    had), the id of the issue, the text, and the author sent or [anonymous]
    when none or an empty one was sent. The comment is then among the
    comments of that issue, the comments of every other issue are as before,
    and of the issues only [updated_at] of the commented one changes. *)
Theorem comment_is_added_to_its_issue (w : World) (id_ : Z) (body : Body)
    (s : string) (issue : Issue) :
  db_ok (db w) -> body_text body = str s -> s <> "" ->
  issues (db w) !! id_ = Some issue ->
  let d' := db (serve w (POST_comments id_ body)) in
  let c :=
    {| c_id := comments_seq (db w) + 1; c_issue_id := id_;
       c_author := Some match body_author body with
                        | str a => if String.eqb a "" then "anonymous" else a
                        | _ => "anonymous"
                        end;
       c_text := Some s; c_created_at := datetime (clock w) |} in
  comments d' = comments (db w) ++ [c] /\
  Forall (fun x => c_id x <> c_id c) (comments (db w)) /\
  comments_seq d' = c_id c /\
  In c (select_comments id_ d') /\
  (forall j, j <> id_ -> select_comments j d' = select_comments j (db w)) /\
  issues d' !! id_
  = Some {| id := id issue; title := title issue;
            description := description issue; status := status issue;
            assignee := assignee issue; created_at := created_at issue;
            updated_at := datetime (clock w) |} /\
  (forall j, j <> id_ -> issues d' !! j = issues (db w) !! j).
Proof.
  intros Hok Ht Hs Hi d' c. subst d'. unfold serve.
  rewrite (post_comments_ok id_ body w s issue Ht Hs Hi Hok).
  cbn [db comments comments_seq issues].
  assert (Hc : {| c_id := comments_seq (db w) + 1; c_issue_id := id_;
                  c_author := sql_param (js_or (body_author body)
                                               (str "anonymous"));
                  c_text := Some s; c_created_at := datetime (clock w) |} = c).
  { subst c. f_equal. destruct (body_author body) as [| |a]; try reflexivity.
    unfold js_or. simpl. destruct (String.eqb a ""); reflexivity. }
  rewrite Hc. split; [reflexivity|]. split; [|split; [reflexivity|]].
  { destruct Hok as [_ Hok]. eapply Forall_impl; [exact Hok|]. simpl.
    intros x [Hx _]. lia. }
  split; [|split; [|split]].
  - apply in_select_comments. cbn [comments]. split; [|reflexivity].
    apply in_or_app. right. left. reflexivity.
  - intros j Hj. unfold select_comments. cbn [comments].
    rewrite List.filter_app. simpl.
    destruct (Z.eqb_spec id_ j) as [E|_]; [congruence|]. now rewrite app_nil_r.
  - apply lookup_insert_eq.
  - intros j Hj. apply lookup_insert_ne. congruence.
Qed.

(** X14. The message of an update names the new status unless it is empty.
    An update of an existing issue sets the status to any string sent, the
    empty string too; its commit message ends in that string, but reads
    [no-status-change] when the string is empty, as it does when no status
    was sent and the stored status stays. *)
Theorem update_message_and_status (w : World) (id_ : Z) (body : Body) (r : Issue) :
  issues (db w) !! id_ = Some r ->
  let w' := serve w (PUT_issue id_ body) in
  exists task r',
    enqueued (journal w') = enqueued (journal w) ++ [task] /\
    issues (db w') !! id_ = Some r' /\
    match body_status body with
    | str s =>
        status r' = s /\
        task_message task
        = "Update issue #" +:+ pretty id_ +:+ ": set "
          +:+ (if String.eqb s "" then "no-status-change" else s)
    | _ =>
        status r' = status r /\
        task_message task
        = "Update issue #" +:+ pretty id_ +:+ ": set no-status-change"
    end.
Proof.
  intros Hr w'. subst w'. unfold serve. rewrite (put_issue_ok id_ body w r Hr).
  cbn [journal db issues]. rewrite enqueued_app. simpl enqueued.
  eexists _, _. split; [reflexivity|]. split; [apply lookup_insert_eq|].
  cbn [status task_message makeCommitTask].
  destruct (body_status body) as [| |s]; simpl; [auto..|].
  split; [reflexivity|]. unfold js_or. simpl.
  destruct (String.eqb s ""); reflexivity.
Qed.

End MoreHandlers.

(** * The tables from start-up on *)

Section Intact.

Lemma intact_boot (d : Date) : intact (db (boot d)).
Proof.
  unfold intact. cbn [db boot issues issues_seq comments comments_seq].
  split; [intros i r H; rewrite lookup_empty in H; discriminate|].
  split; [lia|]. split.
  - intros i. split; [|lia]. intros [r H]. rewrite lookup_empty in H.
    discriminate.
  - split; [reflexivity|]. split; [reflexivity|constructor].
Qed.

Lemma intact_db_ok (d : Db) : intact d -> db_ok d.
Proof.
  intros (Hid & H0 & Hdom & Hcid & Hcseq & Href). split.
  - intros i r H. apply (Hdom i). eauto.
  - apply List.Forall_forall. intros c Hc. split.
    + assert (Hin : In (c_id c) (map c_id (comments d))) by apply in_map, Hc.
      rewrite Hcid in Hin. apply in_map_iff in Hin as (k & <- & Hk).
      apply in_seq in Hk. lia.
    + rewrite List.Forall_forall in Href. apply Hdom, Href, Hc.
Qed.

Lemma intact_insert_issue (d : Db) (row : Issue) :
  intact d -> id row = (issues_seq d + 1)%Z ->
  intact {| issues := <[ (issues_seq d + 1)%Z := row ]> (issues d);
            issues_seq := issues_seq d + 1;
            comments := comments d; comments_seq := comments_seq d |}.
Proof.
  intros (Hid & H0 & Hdom & Hcid & Hcseq & Href) Hrow.
  unfold intact. cbn [issues issues_seq comments comments_seq].
  split; [|split; [lia|split; [|split; [exact Hcid|split; [exact Hcseq|]]]]].
  - intros i r H. destruct (decide (i = (issues_seq d + 1)%Z)) as [->|Hne].
    + rewrite lookup_insert_eq in H. congruence.
    + rewrite lookup_insert_ne in H by congruence. apply Hid, H.
  - intros i. rewrite lookup_insert_is_Some, Hdom. split; [|intros ?].
    + intros [<-|[_ ?]]; lia.
    + destruct (decide ((issues_seq d + 1)%Z = i)); [auto|right; split; [auto|lia]].
  - eapply Forall_impl; [exact Href|]. simpl. intros c Hc.
    apply lookup_insert_is_Some'. auto.
Qed.

Lemma intact_update_issue (d : Db) (i : Z) (row old : Issue) :
  intact d -> issues d !! i = Some old -> id row = id old ->
  intact {| issues := <[ i := row ]> (issues d); issues_seq := issues_seq d;
            comments := comments d; comments_seq := comments_seq d |}.
Proof.
  intros (Hid & H0 & Hdom & Hcid & Hcseq & Href) Hold Hrow.
  unfold intact. cbn [issues issues_seq comments comments_seq].
  split; [|split; [lia|split; [|split; [exact Hcid|split; [exact Hcseq|]]]]].
  - intros j r H. destruct (decide (j = i)) as [->|Hne].
    + rewrite lookup_insert_eq in H. injection H as <-.
      rewrite Hrow. apply Hid, Hold.
    + rewrite lookup_insert_ne in H by congruence. apply Hid, H.
  - intros j. rewrite lookup_insert_is_Some, <- Hdom. split.
    + intros [<-|[_ ?]]; eauto.
    + intros ?. destruct (decide (i = j)); auto.
  - eapply Forall_impl; [exact Href|]. simpl. intros c Hc.
    apply lookup_insert_is_Some'. auto.
Qed.

Lemma intact_insert_comment (d : Db) (c : Comment) :
  intact d -> c_id c = (comments_seq d + 1)%Z ->
  is_Some (issues d !! c_issue_id c) ->
  intact {| issues := issues d; issues_seq := issues_seq d;
            comments := comments d ++ [c];
            comments_seq := comments_seq d + 1 |}.
Proof.
  intros (Hid & H0 & Hdom & Hcid & Hcseq & Href) Hc Hi.
  unfold intact. cbn [issues issues_seq comments comments_seq].
  split; [exact Hid|]. split; [exact H0|]. split; [exact Hdom|].
  rewrite length_app, Nat.add_1_r, seq_S, !map_app, <- Hcid. simpl.
  split; [rewrite Hc; f_equal; f_equal; lia|]. split; [lia|].
  apply Forall_app. split; [exact Href|]. constructor; [exact Hi|constructor].
Qed.

Lemma intact_serve (w : World) (i : Input) :
  intact (db w) -> intact (db (serve w i)).
Proof.
  intros Hin. pose proof (intact_db_ok _ Hin) as Hok.
  destruct i as [body|id_ body|id_ body|d|k f]; unfold serve.
  - destruct (truthy (body_title body)) eqn:Ht.
    + destruct (truthy_inv _ Ht) as (s & Hs & Hne).
      rewrite (post_issues_ok body w s Hs Hne). cbn [db].
      apply intact_insert_issue; [exact Hin|reflexivity].
    + rewrite post_issues_rejected by assumption. exact Hin.
  - destruct (issues (db w) !! id_) as [r|] eqn:Hr.
    + rewrite (put_issue_ok id_ body w r Hr). cbn [db].
      eapply intact_update_issue; eauto.
    + rewrite put_issue_missing by assumption. exact Hin.
  - destruct (truthy (body_text body)) eqn:Ht.
    + destruct (issues (db w) !! id_) as [r|] eqn:Hr.
      * destruct (truthy_inv _ Ht) as (s & Hs & Hne).
        rewrite (post_comments_ok id_ body w s r Hs Hne Hr Hok). cbn [db].
        match goal with
        | |- intact {| issues := <[ _ := ?row ]> _; issues_seq := _;
                       comments := _ ++ [?c]; comments_seq := _ |} =>
            apply (intact_update_issue
                     {| issues := issues (db w); issues_seq := issues_seq (db w);
                        comments := comments (db w) ++ [c];
                        comments_seq := comments_seq (db w) + 1 |}
                     id_ row r)
        end; [|exact Hr|reflexivity].
        apply (intact_insert_comment (db w)); [exact Hin|reflexivity|].
        cbn [c_issue_id]. rewrite Hr. eauto.
      * rewrite post_comments_missing by assumption. exact Hin.
    + rewrite post_comments_no_text by assumption. exact Hin.
  - exact Hin.
  - unfold task_settles. destruct (_ !! k); [|exact Hin].
    destruct (task_body _ _ _). exact Hin.
Qed.

(** X15. Ids are never skipped or reused and no comment is left without its
    issue. In any run of the server from start-up, a row of [issues] carries
    the id it is stored under, the issues are exactly those numbered 1 to the
    last id handed out, the comments are numbered 1, 2, ... in the order of
    the table up to the last comment id handed out, and the issue of every
    comment is in the table. *)
Theorem tables_stay_intact (d : Date) (inputs : list Input) :
  intact (db (serve_all (boot d) inputs)).
Proof.
  assert (H : forall w, intact (db w) -> intact (db (serve_all w inputs))).
  { induction inputs as [|i inputs IH]; intros w Hw; simpl; [exact Hw|].
    apply IH, intact_serve, Hw. }
  apply H, intact_boot.
Qed.

End Intact.

(** * GET /api/issues *)

Section GetIssues.

Lemma insert_by_updated_at_perm (r : Issue) (l : list Issue) :
  Permutation (insert_by_updated_at r l) (r :: l).
Proof.
  induction l as [|x l IH]; simpl; [reflexivity|].
  destruct (String.ltb _ _); [|reflexivity].
  rewrite IH. apply perm_swap.
Qed.

Lemma order_by_updated_at_perm (l : list Issue) :
  Permutation (order_by_updated_at_desc l) l.
Proof.
  induction l as [|x l IH]; simpl; [reflexivity|].
  rewrite insert_by_updated_at_perm, IH. reflexivity.
Qed.

Lemma ltb_asym (a b : string) : String.ltb a b = true -> String.ltb b a = false.
Proof.
  unfold String.ltb. rewrite (String.compare_antisym a b).
  destruct (String.compare b a); simpl; congruence.
Qed.

Lemma insert_by_updated_at_sorted (r : Issue) (l : list Issue) :
  Sorted not_older l -> Sorted not_older (insert_by_updated_at r l).
Proof.
  induction l as [|x l IH]; intros Hs; simpl; [repeat constructor|].
  destruct (String.ltb (updated_at r) (updated_at x)) eqn:E.
  - apply Sorted_inv in Hs as [Hs Hhd]. constructor; [apply IH, Hs|].
    destruct l as [|y l]; simpl.
    + constructor. apply ltb_asym, E.
    + destruct (String.ltb (updated_at r) (updated_at y)); constructor.
      * apply HdRel_inv in Hhd. exact Hhd.
      * apply ltb_asym, E.
  - constructor; [exact Hs|]. constructor. exact E.
Qed.

Lemma order_by_updated_at_sorted (l : list Issue) :
  Sorted not_older (order_by_updated_at_desc l).
Proof.
  induction l as [|x l IH]; simpl; [constructor|].
  apply insert_by_updated_at_sorted, IH.
Qed.

Lemma attach_comments_run (rows : list Issue) : forall w,
  attach_comments rows w =
    (Some (map (fun r => issue_json r (select_comments (id r) (db w))) rows),
     {| db := db w; clock := clock w; commitQueue := commitQueue w;
        disk := disk w; commands := commands w;
        journal := journal w
                   ++ repeat (DbAll SELECT_comments) (length rows) |}).
Proof.
  induction rows as [|r rows IH]; intros w; simpl.
  - unfold h_ret. rewrite app_nil_r. destruct w; reflexivity.
  - unfold db_all_comments, record, h_ret, h_bind. cbn [fst snd].
    rewrite IH. cbn [db clock commitQueue disk commands journal].
    rewrite <- app_assoc. reflexivity.
Qed.

(** X16. Listing the issues changes nothing and leaves none out. The
    handler of [GET /api/issues] leaves the database, the queue and the files
    as they are and emits and pushes nothing: it runs one query for the
    issues and one for the comments of each, and answers 200 with every
    issue of the table exactly once, each with the comments of its own id,
    no issue placed before one updated later. *)
Theorem get_issues_lists_every_issue (w : World) :
  let rows := select_issues (db w) in
  handle get_issues w =
    {| db := db w; clock := clock w; commitQueue := commitQueue w;
       disk := disk w; commands := commands w;
       journal :=
         journal w ++
         DbAll SELECT_issues
         :: repeat (DbAll SELECT_comments) (size (issues (db w)))
         ++ [Respond 200
               (JArr (map (fun r => issue_json r (select_comments (id r) (db w)))
                          rows))] |} /\
  Permutation rows (map snd (map_to_list (issues (db w)))) /\
  Sorted not_older rows.
Proof.
  intros rows.
  assert (Hperm : Permutation rows (map snd (map_to_list (issues (db w)))))
    by apply order_by_updated_at_perm.
  split; [|split; [exact Hperm|apply order_by_updated_at_sorted]].
  assert (Hlen : length rows = size (issues (db w))).
  { rewrite (Permutation_length Hperm), length_map. apply length_map_to_list. }
  unfold handle, get_issues, db_all_issues, res_status_json, record, h_bind.
  cbn [fst snd db clock commitQueue disk commands journal].
  fold rows. rewrite attach_comments_run.
  cbn [fst snd db clock commitQueue disk commands journal].
  rewrite Hlen, <- !app_assoc. reflexivity.
Qed.

End GetIssues.

(** * The worker catches up *)

Section CatchUp.
Import CommitQueue.



End CatchUp.

(** * The further theorems on the sample run *)

Section MoreExamples.
Import CommitQueue.

(** Two tasks, settled twice: the queue is idle and both are done. *)
Lemma queue_drains_to_idle_witness :
  length (awaiting (run (fun _ : string => Returns) init [Push "A"; Push "B"])
          ++ queue (run (fun _ : string => Returns) init [Push "A"; Push "B"]))
  <= length [Rejected Sample.disk_full; Fulfilled] /\
  let s' :=
    run (fun _ : string => Returns)
        (run (fun _ : string => Returns) init [Push "A"; Push "B"])
        (map (Settle 0) [Rejected Sample.disk_full; Fulfilled]) in
  running s' = false /\ awaiting s' = [] /\ queue s' = [] /\
  map fst (finished s') = pushed [Push "A"; Push "B"].
Proof.
  split; [simpl; lia|].
  apply (queue_drains_to_idle (fun _ : string => Returns) [Push "A"; Push "B"]
           [Rejected Sample.disk_full; Fulfilled]).
  simpl; lia.
Defined.

(** Entries of issue 1 written one millisecond apart. *)
Lemma file_name_tells_its_event_witness :
  valid_date Sample.t0 /\ valid_date Sample.t1 /\
  let ts1 := replace_colon_dot (toISOString Sample.t0) in
  let ts2 := replace_colon_dot (toISOString Sample.t1) in
  (create_filename 1 ts1 = create_filename 1 ts2 ->
   1%Z = 1%Z /\ Sample.t0 = Sample.t1) /\
  (update_filename 1 ts1 = update_filename 1 ts2 ->
   1%Z = 1%Z /\ Sample.t0 = Sample.t1) /\
  ((0 <= 1)%Z -> (0 <= 1)%Z ->
   comment_filename 1 2 ts1 = comment_filename 1 3 ts2 ->
   1%Z = 1%Z /\ 2%Z = 3%Z /\ Sample.t0 = Sample.t1) /\
  create_filename 1 ts1 <> update_filename 1 ts2 /\
  create_filename 1 ts1 <> comment_filename 1 3 ts2 /\
  update_filename 1 ts1 <> comment_filename 1 3 ts2.
Proof.
  assert (H0 : valid_date Sample.t0) by (unfold valid_date; simpl; lia).
  assert (H1 : valid_date Sample.t1) by (unfold valid_date; simpl; lia).
  split; [exact H0|]. split; [exact H1|].
  apply (file_name_tells_its_event Sample.t0 Sample.t1 1 1 2 3 H0 H1).
Defined.

(** A second issue is created on the server that holds issue 1. *)
Lemma created_issue_reads_back_witness :
  db_ok (db Sample.created) /\ body_title Sample.full = str "hi" /\ "hi" <> "" /\
  let i := (issues_seq (db Sample.created) + 1)%Z in
  let d' := db (serve Sample.created (POST_issues Sample.full)) in
  issues (db Sample.created) !! i = None /\
  (exists r,
      issues d' !! i = Some r /\ id r = i /\ title r = "hi" /\
      status r = "open" /\ description r = Some "" /\ assignee r = None /\
      created_at r = datetime (clock Sample.created) /\
      updated_at r = datetime (clock Sample.created)) /\
  (forall j, j <> i -> issues d' !! j = issues (db Sample.created) !! j) /\
  comments d' = comments (db Sample.created) /\
  issues_seq d' = i /\
  size (issues d') = S (size (issues (db Sample.created))).
Proof.
  assert (Hok : db_ok (db Sample.created)) by apply db_ok_serve, db_ok_boot.
  assert (Hne : "hi" <> "") by discriminate.
  split; [exact Hok|]. split; [reflexivity|]. split; [exact Hne|].
  apply (created_issue_reads_back Sample.created Sample.full "hi" Hok eq_refl Hne).
Defined.

(** Issue 1 gets its first comment. *)
Lemma comment_is_added_to_its_issue_witness :
  db_ok (db Sample.created) /\ body_text Sample.hello = str "hi" /\ "hi" <> "" /\
  issues (db Sample.created) !! 1%Z = Some Sample.issue1 /\
  let d' := db (serve Sample.created (POST_comments 1 Sample.hello)) in
  comments d' = comments (db Sample.created) ++ [MoreSamples.first_comment] /\
  Forall (fun x => c_id x <> c_id MoreSamples.first_comment)
         (comments (db Sample.created)) /\
  comments_seq d' = c_id MoreSamples.first_comment /\
  In MoreSamples.first_comment (select_comments 1 d') /\
  (forall j, j <> 1%Z ->
             select_comments j d' = select_comments j (db Sample.created)) /\
  issues d' !! 1%Z
  = Some {| id := 1; title := "x"; description := Some ""; status := "open";
            assignee := None; created_at := "2024-03-09 07:05:59";
            updated_at := datetime (clock Sample.created) |} /\
  (forall j, j <> 1%Z -> issues d' !! j = issues (db Sample.created) !! j).
Proof.
  assert (Hok : db_ok (db Sample.created)) by apply db_ok_serve, db_ok_boot.
  assert (Hne : "hi" <> "") by discriminate.
  assert (Hi : issues (db Sample.created) !! 1%Z = Some Sample.issue1)
    by (vm_compute; reflexivity).
  split; [exact Hok|]. split; [reflexivity|]. split; [exact Hne|].
  split; [exact Hi|].
  apply (comment_is_added_to_its_issue Sample.created 1 Sample.hello "hi"
           Sample.issue1 Hok eq_refl Hne Hi).
Defined.

(** Issue 1 is updated with an empty status. *)
Lemma update_message_and_status_witness :
  issues (db Sample.created) !! 1%Z = Some Sample.issue1 /\
  let w' := serve Sample.created (PUT_issue 1 MoreSamples.blank_status) in
  exists task r',
    enqueued (journal w') = enqueued (journal Sample.created) ++ [task] /\
    issues (db w') !! 1%Z = Some r' /\
    status r' = "" /\
    task_message task = "Update issue #1: set no-status-change".
Proof.
  assert (Hi : issues (db Sample.created) !! 1%Z = Some Sample.issue1)
    by (vm_compute; reflexivity).
  split; [exact Hi|].
  apply (update_message_and_status Sample.created 1 MoreSamples.blank_status
           Sample.issue1 Hi).
Defined.

End MoreExamples.

(** * Handlers in flight *)

Section Turns.
Import CommitQueue.

Ltac run_turn :=
  unfold await, finally, resume, req_body,
    db_run_INSERT_issue, db_run_UPDATE_issue, db_run_INSERT_comment,
    db_run_TOUCH_issue, db_get_issue, db_get_comment, db_all_comments,
    io_emit, timestamp, commitQueue_push, res_status_json, object, record,
    with_db, h_ret, throw, h_bind;
  cbn [fst snd db clock commitQueue disk commands journal].

Lemma await_get_issue (i : Z) (rest : option Issue -> Async) (w : World) :
  resume (await (db_get_issue i) rest) w
  = (Some (rest (issues (db w) !! i)), after w (db w) [DbGet SELECT_issue]).
Proof. reflexivity. Qed.

Lemma await_all_comments (i : Z) (rest : list Comment -> Async) (w : World) :
  resume (await (db_all_comments i) rest) w
  = (Some (rest (select_comments i (db w))),
     after w (db w) [DbAll SELECT_comments]).
Proof. reflexivity. Qed.

Lemma await_get_comment (c : Z) (rest : option Comment -> Async) (w : World) :
  resume (await (db_get_comment c) rest) w
  = (Some (rest (select_comment c (db w))),
     after w (db w) [DbGet SELECT_comment]).
Proof. reflexivity. Qed.

Lemma await_UPDATE_issue (t d s a : JsVal) (i : Z) (rest : unit -> Async)
    (w : World) :
  resume (await (db_run_UPDATE_issue t d s a i) rest) w
  = (Some (rest tt),
     after w (update_issue (clock w) (sql_param t) (sql_param d) (sql_param s)
                           (sql_param a) i (db w))
           [DbRun UPDATE_issue]).
Proof. reflexivity. Qed.

Lemma await_TOUCH_issue (i : Z) (rest : unit -> Async) (w : World) :
  resume (await (db_run_TOUCH_issue i) rest) w
  = (Some (rest tt), after w (touch_issue (clock w) i (db w)) [DbRun TOUCH_issue]).
Proof. reflexivity. Qed.

Lemma await_INSERT_comment (i : Z) (a t : JsVal) (rest : Z -> Async) (w : World) :
  resume (await (db_run_INSERT_comment i a t) rest) w
  = (Some (rest (comments_seq (db w) + 1)%Z),
     after w (snd (insert_comment (clock w) i (sql_param a) (sql_param t) (db w)))
           [DbRun INSERT_comment]).
Proof. reflexivity. Qed.

Lemma await_INSERT_issue (s : string) (d a : JsVal) (rest : Z -> Async) (w : World) :
  exists d',
    insert_issue (clock w) (Some s) (sql_param d) (sql_param a) (db w)
    = Some ((issues_seq (db w) + 1)%Z, d') /\
    resume (await (db_run_INSERT_issue (str s) d a) rest) w
    = (Some (rest (issues_seq (db w) + 1)%Z), after w d' [DbRun INSERT_issue]).
Proof. eexists. split; reflexivity. Qed.

Lemma after_after (w : World) (d : Db) (e1 e2 e3 : Effect) :
  enqueued [e1] = [] -> enqueued [e3] = [] ->
  forall task, e2 = Enqueue task ->
  {| db := d; clock := clock w;
     commitQueue := push call_task task (commitQueue w);
     disk := disk w; commands := commands w;
     journal := ((journal w ++ [e1]) ++ [e2]) ++ [e3] |}
  = after w d [e1; e2; e3].
Proof.
  intros H1 H3 task ->. unfold after. f_equal.
  - destruct e1; try discriminate H1; destruct e3; try discriminate H3;
      reflexivity.
  - rewrite <- !app_assoc. reflexivity.
Qed.

(** The last turn of a create. *)
Lemma created_turn (issueId : Z) (row : Issue) (w : World) :
  let issue := issue_json row [] in
  let task :=
    makeCommitTask
      (create_filename issueId (replace_colon_dot (toISOString (clock w))))
      (JObj [("action", JStr "create"); ("issue", issue)])
      ("Create issue #" +:+ pretty issueId +:+ ": " +:+ title row) in
  forall p,
    p = finally
          (row <- object (Some row) ;;
           let issue := issue_json row [] in
           io_emit "issue:created" issue ;;
           ts <- timestamp ;;
           let filename := create_filename issueId ts in
           let message_ :=
             "Create issue #" +:+ pretty issueId +:+ ": " +:+ title row in
           commitQueue_push
             (makeCommitTask filename
                (JObj [("action", JStr "create"); ("issue", issue)]) message_) ;;
           res_status_json 201 issue)%handler ->
    resume p w
    = (Some Ended,
       after w (db w) [Emit "issue:created" issue; Enqueue task; Respond 201 issue]).
Proof.
  intros issue task p ->. run_turn. f_equal.
  apply (after_after w (db w)); reflexivity.
Qed.

(** The last turn of an update. *)
Lemma updated_turn (id_ : Z) (status_ : JsVal) (existing row : Issue)
    (cs : list Comment) (w : World) :
  let updated := issue_json row cs in
  let task :=
    makeCommitTask
      (update_filename id_ (replace_colon_dot (toISOString (clock w))))
      (JObj [("action", JStr "update"); ("before", row_json existing);
             ("after", updated)])
      ("Update issue #" +:+ pretty id_ +:+ ": set "
       +:+ template (js_or status_ (str "no-status-change"))) in
  forall p,
    p = finally
          (row <- object (Some row) ;;
           let updated := issue_json row cs in
           io_emit "issue:updated" updated ;;
           ts <- timestamp ;;
           let filename := update_filename id_ ts in
           let message_ :=
             "Update issue #" +:+ pretty id_ +:+ ": set "
             +:+ template (js_or status_ (str "no-status-change")) in
           commitQueue_push
             (makeCommitTask filename
                (JObj [("action", JStr "update"); ("before", row_json existing);
                       ("after", updated)]) message_) ;;
           res_status_json 200 updated)%handler ->
    resume p w
    = (Some Ended,
       after w (db w) [Emit "issue:updated" updated; Enqueue task;
                       Respond 200 updated]).
Proof.
  intros updated task p ->. run_turn. f_equal.
  apply (after_after w (db w)); reflexivity.
Qed.

(** The last turn of a comment. *)
Lemma commented_turn (id_ commentId : Z) (row : Issue) (c : Comment)
    (cs : list Comment) (w : World) :
  let updatedIssue := issue_json row cs in
  let task :=
    makeCommitTask
      (comment_filename id_ commentId (replace_colon_dot (toISOString (clock w))))
      (JObj [("action", JStr "comment"); ("issue", updatedIssue);
             ("comment", comment_json c)])
      ("Comment on issue #" +:+ pretty id_ +:+ " by "
       +:+ template (js_or (js_of_sql (c_author c)) (str "anon"))) in
  forall p,
    p = finally
          (row <- object (Some row) ;;
           let updatedIssue := issue_json row cs in
           io_emit "issue:comment"
             (JObj (("issue", updatedIssue) :: optional_prop "comment" (Some c))) ;;
           ts <- timestamp ;;
           let filename := comment_filename id_ commentId ts in
           c <- object (Some c) ;;
           let message_ :=
             "Comment on issue #" +:+ pretty id_ +:+ " by "
             +:+ template (js_or (js_of_sql (c_author c)) (str "anon")) in
           commitQueue_push
             (makeCommitTask filename
                (JObj [("action", JStr "comment"); ("issue", updatedIssue);
                       ("comment", comment_json c)]) message_) ;;
           res_status_json 201 (comment_json c))%handler ->
    resume p w
    = (Some Ended,
       after w (db w)
             [Emit "issue:comment"
                (JObj [("issue", updatedIssue); ("comment", comment_json c)]);
              Enqueue task; Respond 201 (comment_json c)]).
Proof.
  intros updatedIssue task p ->. run_turn. f_equal.
  apply (after_after w (db w)); reflexivity.
Qed.

(** The turn that turns a request down. *)
Lemma refused_turn (code : nat) (text : string) (w : World) :
  resume (finally (res_status_json code (error_json text))) w
  = (Some Ended, after w (db w) [Respond code (error_json text)]).
Proof. reflexivity. Qed.

End Turns.

(** * What a handler in flight reads, broadcasts and records *)

Section ReadBack.
Import CommitQueue.

(** C7. An accepted mutation is applied, read back, broadcast and enqueued
    in this order, whatever happens between the turns of its handler. The
    worlds [w0], [w1], ... are those in which the handler starts and is
    resumed: each is what the other handlers and the worker made of the
    process by then. The handler starts without an effect; each of its next
    turns is one database call, the mutation before the reads of the issue
    (and, for an update and a comment, of its comments); in its last turn it
    emits the value read back, pushes one task and responds. The value
    emitted and the value in the record of the task are the same: the row as
    the table held it at the read, with the comments as they were at theirs.
    The record of an update also holds as [before] the row read in the turn
    before the UPDATE. *)
Theorem read_back_then_broadcast_then_enqueue (id_ : Z) (body : Body)
    (s : string) (existing row : Issue) (c : Comment)
    (w0 w1 w2 w3 w4 w5 w6 w7 : World) :
  (body_title body = str s -> s <> "" ->
   issues (db w2) !! (issues_seq (db w1) + 1)%Z = Some row ->
   let snap := issue_json row [] in
   exists p0 p1 p2 d1 task,
     route POST_api_issues (Some body) w0 = (Some p0, w0) /\
     insert_issue (clock w1) (Some s)
       (sql_param (js_or (body_description body) (str "")))
       (sql_param (js_or (body_assignee body) null)) (db w1)
     = Some ((issues_seq (db w1) + 1)%Z, d1) /\
     resume p0 w1 = (Some p1, after w1 d1 [DbRun INSERT_issue]) /\
     resume p1 w2 = (Some p2, after w2 (db w2) [DbGet SELECT_issue]) /\
     resume p2 w3
     = (Some Ended,
        after w3 (db w3)
              [Emit "issue:created" snap; Enqueue task; Respond 201 snap]) /\
     task_content task = JObj [("action", JStr "create"); ("issue", snap)]) /\
  (issues (db w1) !! id_ = Some existing ->
   issues (db w3) !! id_ = Some row ->
   let snap := issue_json row (select_comments id_ (db w4)) in
   exists p0 p1 p2 p3 p4 task,
     route (PUT_api_issues_id id_) (Some body) w0 = (Some p0, w0) /\
     resume p0 w1 = (Some p1, after w1 (db w1) [DbGet SELECT_issue]) /\
     resume p1 w2
     = (Some p2,
        after w2 (update_issue (clock w2) (sql_param (body_title body))
                               (sql_param (body_description body))
                               (sql_param (body_status body))
                               (sql_param (body_assignee body)) id_ (db w2))
              [DbRun UPDATE_issue]) /\
     resume p2 w3 = (Some p3, after w3 (db w3) [DbGet SELECT_issue]) /\
     resume p3 w4 = (Some p4, after w4 (db w4) [DbAll SELECT_comments]) /\
     resume p4 w5
     = (Some Ended,
        after w5 (db w5)
              [Emit "issue:updated" snap; Enqueue task; Respond 200 snap]) /\
     task_content task = JObj [("action", JStr "update");
                               ("before", row_json existing); ("after", snap)]) /\
  (body_text body = str s -> s <> "" ->
   issues (db w1) !! id_ = Some existing ->
   select_comment (comments_seq (db w2) + 1) (db w3) = Some c ->
   issues (db w5) !! id_ = Some row ->
   let snap := issue_json row (select_comments id_ (db w6)) in
   exists p0 p1 p2 p3 p4 p5 p6 task,
     route (POST_api_issues_id_comments id_) (Some body) w0 = (Some p0, w0) /\
     resume p0 w1 = (Some p1, after w1 (db w1) [DbGet SELECT_issue]) /\
     resume p1 w2
     = (Some p2,
        after w2 (snd (insert_comment (clock w2) id_
                         (sql_param (js_or (body_author body) (str "anonymous")))
                         (Some s) (db w2)))
              [DbRun INSERT_comment]) /\
     resume p2 w3 = (Some p3, after w3 (db w3) [DbGet SELECT_comment]) /\
     resume p3 w4
     = (Some p4, after w4 (touch_issue (clock w4) id_ (db w4)) [DbRun TOUCH_issue]) /\
     resume p4 w5 = (Some p5, after w5 (db w5) [DbGet SELECT_issue]) /\
     resume p5 w6 = (Some p6, after w6 (db w6) [DbAll SELECT_comments]) /\
     resume p6 w7
     = (Some Ended,
        after w7 (db w7)
              [Emit "issue:comment"
                 (JObj [("issue", snap); ("comment", comment_json c)]);
               Enqueue task; Respond 201 (comment_json c)]) /\
     task_content task = JObj [("action", JStr "comment"); ("issue", snap);
                               ("comment", comment_json c)]).
Proof.
  split; [|split].
  - intros Ht Hs Hrow snap.
    destruct (await_INSERT_issue s (js_or (body_description body) (str ""))
                (js_or (body_assignee body) null)
                (fun issueId =>
                   await (db_get_issue issueId) (fun got =>
                   finally
                     (row <- object got ;;
                      let issue := issue_json row [] in
                      io_emit "issue:created" issue ;;
                      ts <- timestamp ;;
                      let filename := create_filename issueId ts in
                      let message_ :=
                        "Create issue #" +:+ pretty issueId +:+ ": " +:+ title row in
                      commitQueue_push
                        (makeCommitTask filename
                           (JObj [("action", JStr "create"); ("issue", issue)])
                           message_) ;;
                      res_status_json 201 issue)%handler)) w1)
      as (d1 & Hd1 & Hturn).
    eexists _, _, _, d1, _.
    split; [unfold route, post_issues_async, req_body, h_bind, h_ret;
            rewrite Ht, (truthy_str s Hs); reflexivity|].
    split; [exact Hd1|]. split; [exact Hturn|].
    split; [apply await_get_issue|]. rewrite Hrow.
    split; [apply created_turn; reflexivity|reflexivity].
  - intros He Hrow snap. eexists _, _, _, _, _, _.
    split; [reflexivity|]. split; [apply await_get_issue|]. rewrite He.
    split; [apply await_UPDATE_issue|]. split; [apply await_get_issue|].
    rewrite Hrow. split; [apply await_all_comments|].
    split; [apply updated_turn; reflexivity|reflexivity].
  - intros Ht Hs He Hc Hrow snap. eexists _, _, _, _, _, _, _, _.
    split; [unfold route, post_comments_async, req_body, h_bind, h_ret;
            rewrite Ht, (truthy_str s Hs); reflexivity|].
    split; [apply await_get_issue|]. rewrite He.
    split; [apply await_INSERT_comment|].
    split; [apply await_get_comment|]. rewrite Hc.
    split; [apply await_TOUCH_issue|]. split; [apply await_get_issue|].
    rewrite Hrow. split; [apply await_all_comments|].
    split; [apply (commented_turn id_ (comments_seq (db w2) + 1) row c); reflexivity
           |reflexivity].
Qed.

End ReadBack.

(** * Handlers in flight never throw *)

Section Sound.
Import CommitQueue.

Lemma grows_refl (d : Db) : grows d d.
Proof. split; auto. Qed.

Lemma grows_trans (d1 d2 d3 : Db) : grows d1 d2 -> grows d2 d3 -> grows d1 d3.
Proof. intros [H1 H2] [H3 H4]. split; auto. Qed.

Lemma find_is_Some {A} (f : A -> bool) (l : list A) (x : A) :
  In x l -> f x = true -> is_Some (List.find f l).
Proof.
  intros Hin Hf. destruct (List.find f l) as [y|] eqn:E; [eauto|].
  rewrite (List.find_none f l E x Hin) in Hf. discriminate.
Qed.

Lemma grows_update_issue (now : Date) (t de s a : option string) (i : Z) (d : Db) :
  grows d (update_issue now t de s a i d).
Proof.
  unfold update_issue. destruct (issues d !! i) as [r|]; [|apply grows_refl].
  split; cbn [issues]; [|auto].
  intros j Hj. apply lookup_insert_is_Some'. auto.
Qed.

Lemma intact_after_update (now : Date) (t de s a : option string) (i : Z) (d : Db) :
  intact d -> intact (update_issue now t de s a i d).
Proof.
  intros Hin. unfold update_issue.
  destruct (issues d !! i) as [r|] eqn:Hr; [|exact Hin].
  eapply intact_update_issue; eauto.
Qed.

Lemma grows_insert_issue (now : Date) (t : string) (de a : option string)
    (d d' : Db) (i : Z) :
  insert_issue now (Some t) de a d = Some (i, d') ->
  grows d d' /\ is_Some (issues d' !! i) /\ (intact d -> intact d').
Proof.
  unfold insert_issue. intros E. injection E as <- <-. cbn [issues].
  split; [split; cbn [issues]; [|auto]|split].
  - intros j Hj. apply lookup_insert_is_Some'. auto.
  - rewrite lookup_insert_eq. eauto.
  - intros Hin. apply intact_insert_issue; [exact Hin|reflexivity].
Qed.

Lemma grows_insert_comment (now : Date) (i : Z) (a t : option string) (d : Db) :
  let d' := snd (insert_comment now i a t d) in
  grows d d' /\ is_Some (select_comment (comments_seq d + 1) d') /\
  (is_Some (issues d !! i) -> intact d -> intact d').
Proof.
  unfold insert_comment. cbn [snd]. split; [split; cbn [issues]; [auto|]|split].
  - intros c [x Hx]. unfold select_comment in *. cbn [comments].
    apply List.find_some in Hx as [Hin Hx].
    apply (find_is_Some _ _ x); [apply in_or_app; auto|exact Hx].
  - unfold select_comment. cbn [comments].
    eapply find_is_Some; [apply in_or_app; right; left; reflexivity|].
    cbn [c_id]. apply Z.eqb_refl.
  - intros Hi Hin. apply (intact_insert_comment d); [exact Hin|reflexivity|exact Hi].
Qed.

(** What a handler knows stays true while the tables only grow. *)
Lemma sound_grows (d d' : Db) (p : Async) : sound d p -> grows d d' -> sound d' p.
Proof.
  intros Hs Hg. inversion Hs as [|next Hnext]; subst; [constructor|].
  constructor. intros w Hw. apply Hnext. eapply grows_trans; eauto.
Qed.

(** A turn that is a read. *)
Lemma sound_read {A} (op : H A) (result : Db -> A) (e : Effect)
    (rest : A -> Async) (d : Db) :
  (forall w, op w = (Some (result (db w)), after w (db w) [e])) ->
  quiet [e] ->
  (forall d', grows d d' ->
              suspended (rest (result d')) = true /\ sound d' (rest (result d'))) ->
  sound d (await op rest).
Proof.
  intros Hop Hq Hrest. constructor. intros w Hg.
  exists (rest (result (db w))), (db w), [e].
  split; [unfold h_bind, h_ret; rewrite Hop; reflexivity|].
  split; [apply grows_refl|]. split; [auto|]. left.
  split; [exact Hq|]. apply Hrest, Hg.
Qed.

(** A turn that is a write. *)
Lemma sound_write {A} (op : H A) (result : Db -> A) (change : World -> Db)
    (e : Effect) (rest : A -> Async) (d : Db) :
  (forall w, op w = (Some (result (db w)), after w (change w) [e])) ->
  quiet [e] ->
  (forall w, grows d (db w) ->
             grows (db w) (change w) /\ (intact (db w) -> intact (change w)) /\
             suspended (rest (result (db w))) = true /\
             sound (change w) (rest (result (db w)))) ->
  sound d (await op rest).
Proof.
  intros Hop Hq Hrest. constructor. intros w Hg.
  destruct (Hrest w Hg) as (H1 & H2 & H3 & H4).
  exists (rest (result (db w))), (change w), [e].
  split; [unfold h_bind, h_ret; rewrite Hop; reflexivity|].
  split; [exact H1|]. split; [exact H2|]. left. auto.
Qed.

(** The last turn. *)
Lemma sound_last (h : H unit) (es : World -> list Effect) (d : Db) :
  (forall w, resume (finally h) w = (Some Ended, after w (db w) (es w))) ->
  (forall w, answer (es w)) ->
  sound d (finally h).
Proof.
  intros Hh Ha. constructor. intros w Hg.
  exists Ended, (db w), (es w). split; [apply Hh|].
  split; [apply grows_refl|]. split; [auto|]. right. auto.
Qed.

Lemma sound_refused (code : nat) (text : string) (d : Db) :
  code = 400 \/ code = 404 ->
  sound d (finally (res_status_json code (error_json text))).
Proof.
  intros Hc.
  apply (sound_last _ (fun _ => [Respond code (error_json text)]));
    [reflexivity|]. intros _. constructor. exact Hc.
Qed.

Lemma is_Some_grows (d d' : Db) (i : Z) :
  grows d d' -> is_Some (issues d !! i) -> is_Some (issues d' !! i).
Proof. intros [H _]. apply H. Qed.

Lemma sound_create (s : string) (de a : JsVal) (d : Db) :
  sound d
    (await (db_run_INSERT_issue (str s) de a) (fun issueId =>
     await (db_get_issue issueId) (fun got =>
     finally
       (row <- object got ;;
        let issue := issue_json row [] in
        io_emit "issue:created" issue ;;
        ts <- timestamp ;;
        let filename := create_filename issueId ts in
        let message_ :=
          "Create issue #" +:+ pretty issueId +:+ ": " +:+ title row in
        commitQueue_push
          (makeCommitTask filename
             (JObj [("action", JStr "create"); ("issue", issue)]) message_) ;;
        res_status_json 201 issue)%handler))).
Proof.
  apply (sound_write _ (fun d => (issues_seq d + 1)%Z)
           (fun w => match insert_issue (clock w) (Some s) (sql_param de)
                             (sql_param a) (db w) with
                     | Some (_, d') => d'
                     | None => db w
                     end) (DbRun INSERT_issue));
    [reflexivity|constructor|].
  intros w _.
  destruct (grows_insert_issue (clock w) s (sql_param de) (sql_param a) (db w)
              _ _ eq_refl) as (Hg & Hi & Hin).
  split; [exact Hg|]. split; [exact Hin|]. split; [reflexivity|].
  apply (sound_read _ (fun d => issues d !! (issues_seq (db w) + 1)%Z)
           (DbGet SELECT_issue)); [reflexivity|constructor|].
  intros d' Hd'. split; [reflexivity|].
  destruct (is_Some_grows _ _ _ Hd' Hi) as [row ->].
  eapply (sound_last _ (fun w' => _)).
  - intros w'. apply created_turn. reflexivity.
  - intros w'. constructor. auto.
Qed.

Lemma sound_update (id_ : Z) (t de st a : JsVal) (d : Db) :
  sound d
    (await (db_get_issue id_) (fun existing =>
     match existing with
     | None => finally (res_status_json 404 (error_json "Issue not found"))
     | Some existing =>
         await (db_run_UPDATE_issue t de st a id_) (fun _ =>
         await (db_get_issue id_) (fun got =>
         await (db_all_comments id_) (fun cs =>
         finally
           (row <- object got ;;
            let updated := issue_json row cs in
            io_emit "issue:updated" updated ;;
            ts <- timestamp ;;
            let filename := update_filename id_ ts in
            let message_ :=
              "Update issue #" +:+ pretty id_ +:+ ": set "
              +:+ template (js_or st (str "no-status-change")) in
            commitQueue_push
              (makeCommitTask filename
                 (JObj [("action", JStr "update"); ("before", row_json existing);
                        ("after", updated)]) message_) ;;
            res_status_json 200 updated)%handler)))
     end)).
Proof.
  apply (sound_read _ (fun d => issues d !! id_) (DbGet SELECT_issue));
    [reflexivity|constructor|].
  intros d1 _. destruct (issues d1 !! id_) as [existing|] eqn:He;
    (split; [reflexivity|]); [|apply sound_refused; auto].
  apply (sound_write _ (fun _ => tt)
           (fun w => update_issue (clock w) (sql_param t) (sql_param de)
                                  (sql_param st) (sql_param a) id_ (db w))
           (DbRun UPDATE_issue)); [reflexivity|constructor|].
  intros w Hw. split; [apply grows_update_issue|].
  split; [apply intact_after_update|]. split; [reflexivity|].
  assert (Hi : is_Some (issues (update_issue (clock w) (sql_param t) (sql_param de)
                                  (sql_param st) (sql_param a) id_ (db w)) !! id_)).
  { eapply is_Some_grows; [apply grows_update_issue|].
    eapply is_Some_grows; [exact Hw|]. rewrite He. eauto. }
  apply (sound_read _ (fun d => issues d !! id_) (DbGet SELECT_issue));
    [reflexivity|constructor|].
  intros d2 Hd2. split; [reflexivity|].
  destruct (is_Some_grows _ _ _ Hd2 Hi) as [row ->].
  apply (sound_read _ (fun d => select_comments id_ d) (DbAll SELECT_comments));
    [reflexivity|constructor|].
  intros d3 _. split; [reflexivity|].
  eapply (sound_last _ (fun w' => _)).
  - intros w'. apply updated_turn. reflexivity.
  - intros w'. constructor. auto.
Qed.

Lemma sound_comment (id_ : Z) (au tx : JsVal) (d : Db) :
  sound d
    (await (db_get_issue id_) (fun issue =>
     match issue with
     | None => finally (res_status_json 404 (error_json "Issue not found"))
     | Some _ =>
         await (db_run_INSERT_comment id_ au tx) (fun commentId =>
         await (db_get_comment commentId) (fun comment =>
         await (db_run_TOUCH_issue id_) (fun _ =>
         await (db_get_issue id_) (fun got =>
         await (db_all_comments id_) (fun cs =>
         finally
           (row <- object got ;;
            let updatedIssue := issue_json row cs in
            io_emit "issue:comment"
              (JObj (("issue", updatedIssue) :: optional_prop "comment" comment)) ;;
            ts <- timestamp ;;
            let filename := comment_filename id_ commentId ts in
            c <- object comment ;;
            let message_ :=
              "Comment on issue #" +:+ pretty id_ +:+ " by "
              +:+ template (js_or (js_of_sql (c_author c)) (str "anon")) in
            commitQueue_push
              (makeCommitTask filename
                 (JObj [("action", JStr "comment"); ("issue", updatedIssue);
                        ("comment", comment_json c)]) message_) ;;
            res_status_json 201 (comment_json c))%handler)))))
     end)).
Proof.
  apply (sound_read _ (fun d => issues d !! id_) (DbGet SELECT_issue));
    [reflexivity|constructor|].
  intros d1 _. destruct (issues d1 !! id_) as [existing|] eqn:He;
    (split; [reflexivity|]); [|apply sound_refused; auto].
  apply (sound_write _ (fun d => (comments_seq d + 1)%Z)
           (fun w => snd (insert_comment (clock w) id_ (sql_param au)
                                         (sql_param tx) (db w)))
           (DbRun INSERT_comment)); [reflexivity|constructor|].
  intros w Hw.
  assert (Hi : is_Some (issues (db w) !! id_)).
  { eapply is_Some_grows; [exact Hw|]. rewrite He. eauto. }
  destruct (grows_insert_comment (clock w) id_ (sql_param au) (sql_param tx) (db w))
    as (Hg & Hc & Hin).
  split; [exact Hg|]. split; [exact (Hin Hi)|]. split; [reflexivity|].
  apply (sound_read _ (fun d => select_comment (comments_seq (db w) + 1) d)
           (DbGet SELECT_comment)); [reflexivity|constructor|].
  intros d2 Hd2. split; [reflexivity|].
  destruct Hd2 as [Hd2i Hd2c]. destruct (Hd2c _ Hc) as [c ->].
  apply (sound_write _ (fun _ => tt) (fun w' => touch_issue (clock w') id_ (db w'))
           (DbRun TOUCH_issue)); [reflexivity|constructor|].
  intros w' Hw'.
  assert (Hi' : is_Some (issues (db w') !! id_)).
  { eapply is_Some_grows; [exact Hw'|]. apply Hd2i.
    eapply is_Some_grows; [exact Hg|exact Hi]. }
  split; [apply grows_update_issue|]. split; [apply intact_after_update|].
  split; [reflexivity|].
  apply (sound_read _ (fun d => issues d !! id_) (DbGet SELECT_issue));
    [reflexivity|constructor|].
  intros d3 Hd3. split; [reflexivity|].
  assert (Hi3 : is_Some (issues d3 !! id_)).
  { eapply is_Some_grows; [exact Hd3|].
    eapply is_Some_grows; [apply grows_update_issue|exact Hi']. }
  destruct Hi3 as [row ->].
  apply (sound_read _ (fun d => select_comments id_ d) (DbAll SELECT_comments));
    [reflexivity|constructor|].
  intros d4 _. split; [reflexivity|].
  eapply (sound_last _ (fun w'' => _)).
  - intros w''. apply (commented_turn id_ (comments_seq (db w) + 1) row c).
    reflexivity.
  - intros w''. constructor. auto.
Qed.

(** A request with a body is turned down on arrival, or its handler is
    suspended and will answer. *)
Lemma route_started (r : Route) (body : Body) (w : World) :
  (exists p, route r (Some body) w = (Some p, w) /\ suspended p = true /\
             forall d, sound d p) \/
  (exists es, route r (Some body) w = (Some Ended, after w (db w) es) /\
              answer es).
Proof.
  destruct r as [|id_|id_]; unfold route.
  - unfold post_issues_async, req_body.
    destruct (truthy (body_title body)) eqn:Ht.
    + destruct (truthy_inv _ Ht) as (s & Hs & Hne). left. eexists.
      split; [unfold h_bind at 1, h_ret at 1; rewrite Ht; reflexivity|].
      split; [reflexivity|]. intros d. rewrite Hs. apply sound_create.
    + right. exists [Respond 400 (error_json "title required")].
      split; [unfold h_bind at 1, h_ret at 1; rewrite Ht; reflexivity|].
      constructor. auto.
  - left. eexists. split; [reflexivity|]. split; [reflexivity|].
    intros d. apply sound_update.
  - unfold post_comments_async, req_body.
    destruct (truthy (body_text body)) eqn:Ht.
    + left. eexists.
      split; [unfold h_bind at 1, h_ret at 1; rewrite Ht; reflexivity|].
      split; [reflexivity|]. intros d. apply sound_comment.
    + right. exists [Respond 400 (error_json "text required")].
      split; [unfold h_bind at 1, h_ret at 1; rewrite Ht; reflexivity|].
      constructor. auto.
Qed.

(** A request without a body throws at the destructuring, before any other
    effect. *)
Lemma route_no_body (r : Route) (w : World) :
  exists what, route r None w = (None, after w (db w) [Unhandled what]).
Proof. destruct r; eexists; reflexivity. Qed.

End Sound.

(** * Any interleaving of the handlers *)

Section Interleaved.
Import CommitQueue.

Lemma pending_app (l1 l2 : list Async) : pending (l1 ++ l2) = pending l1 + pending l2.
Proof. unfold pending. rewrite List.filter_app, length_app. reflexivity. Qed.

Lemma pending_insert (p' : Async) (l : list Async) : forall n p,
  l !! n = Some p ->
  pending (<[ n := p' ]> l) + (if suspended p then 1 else 0)
  = pending l + (if suspended p' then 1 else 0).
Proof.
  induction l as [|x l IH]; intros [|n] p E; try discriminate.
  - injection E as ->. unfold pending. simpl.
    destruct (suspended p), (suspended p'); simpl; lia.
  - specialize (IH n p E). unfold pending in *. simpl.
    destruct (suspended x); simpl; lia.
Qed.

Lemma parsed_app (ts1 ts2 : list Turn) : parsed (ts1 ++ ts2) = parsed ts1 + parsed ts2.
Proof.
  induction ts1 as [|t ts1 IH]; simpl; [reflexivity|].
  destruct t as [r [b|]|n|d|i f]; simpl; lia.
Qed.

Lemma unparsed_app (ts1 ts2 : list Turn) :
  unparsed (ts1 ++ ts2) = unparsed ts1 + unparsed ts2.
Proof.
  induction ts1 as [|t ts1 IH]; simpl; [reflexivity|].
  destruct t as [r [b|]|n|d|i f]; simpl; lia.
Qed.

Lemma orderly_pushes (tasks : list CommitTask) : forall q ps,
  orderly q ps ->
  orderly (fold_left (fun q task => push call_task task q) tasks q) (ps ++ tasks).
Proof.
  induction tasks as [|t tasks IH]; intros q ps Hq; simpl.
  - rewrite app_nil_r. exact Hq.
  - rewrite (app_assoc ps [t] tasks : ps ++ t :: tasks = (ps ++ [t]) ++ tasks).
    apply IH, orderly_push, Hq.
Qed.

(** What the journal and the queue gain in a turn of a handler. *)
Lemma steady_after (w : World) (d : Db) (es : list Effect) :
  orderly (commitQueue w) (enqueued (journal w)) ->
  orderly (commitQueue (after w d es)) (enqueued (journal (after w d es))).
Proof.
  intros Hq. unfold after. cbn [commitQueue journal]. rewrite enqueued_app.
  apply orderly_pushes, Hq.
Qed.

Lemma quiet_counts (es : list Effect) :
  quiet es -> unhandled es = [] /\ responses es = [] /\ enqueued es = [].
Proof. intros []; auto. Qed.

Lemma answer_counts (es : list Effect) :
  answer es ->
  unhandled es = [] /\
  exists code, responses es = [code] /\
    (code = 200 \/ code = 201 \/ code = 400 \/ code = 404) /\
    length (enqueued es) = length (List.filter success [code]).
Proof.
  intros [code body Hc|event payload task code body Hc]; (split; [reflexivity|]);
    exists code; (split; [reflexivity|]); (split; [tauto|]);
    destruct Hc as [-> | ->]; reflexivity.
Qed.

Lemma steady_listening (d : Date) : steady (listening d) 0 0.
Proof.
  unfold steady, listening. cbn [world handlers].
  split; [constructor|]. split; [apply intact_boot|].
  split; [apply orderly_init|]. repeat split; constructor.
Qed.

(** The worker and the clock leave the handlers' business alone. *)
Lemma steady_serve (s : Server) (i : Input) (u a : nat) :
  is_request i = false -> steady s u a ->
  steady {| world := serve (world s) i; handlers := handlers s |} u a.
Proof.
  intros Hi (Hs & Hin & Hq & Hu & Hr & He & Hc).
  assert (Hj : journal (serve (world s) i) = journal (world s))
    by apply serve_other, Hi.
  assert (Hd : db (serve (world s) i) = db (world s)).
  { destruct i as [body|id_ body|id_ body|d|k f]; try discriminate; [reflexivity|].
    unfold serve, task_settles. destruct (_ !! k); [|reflexivity].
    destruct (task_body _ _ _). reflexivity. }
  unfold steady. cbn [world handlers]. rewrite Hj, Hd.
  split; [exact Hs|]. split; [exact Hin|]. split; [|auto].
  rewrite <- Hj. apply orderly_serve; [apply intact_db_ok, Hin|exact Hq].
Qed.

Lemma steady_turn (s : Server) (t : Turn) (u a : nat) :
  steady s u a -> steady (turn s t) (u + unparsed [t]) (a + parsed [t]).
Proof.
  intros Hst. pose proof Hst as (Hs & Hin & Hq & Hu & Hr & He & Hc).
  cbv zeta in *. destruct t as [r [body|]|n|d|i f]; simpl.
  - (* a request with a body arrives *)
    destruct (route_started r body (world s))
      as [(p & -> & Hp & Hsound)|(es & -> & Hans)].
    + unfold steady. cbn [world handlers after_turn].
      split; [apply Forall_app; split; [exact Hs|constructor; [apply Hsound|constructor]]|].
      split; [exact Hin|]. split; [exact Hq|]. split; [lia|].
      rewrite pending_app. unfold pending at 2. simpl. rewrite Hp. simpl.
      split; [lia|]. auto.
    + destruct (answer_counts es Hans) as (Hu' & code & Hr' & Hcode & He').
      unfold steady. cbn [world handlers after_turn].
      split; [cbn [after db]; apply Forall_app; split;
              [exact Hs|constructor; constructor]|].
      split; [exact Hin|]. split; [apply steady_after, Hq|].
      cbn [after journal].
      rewrite unhandled_app, responses_app, enqueued_app, !length_app, Hu', Hr'.
      rewrite List.filter_app, length_app, pending_app.
      change (pending [Ended]) with 0. simpl in He'. simpl length.
      split; [lia|]. split; [lia|]. split; [lia|].
      apply Forall_app. split; [exact Hc|constructor; [exact Hcode|constructor]].
  - (* a request without a body arrives *)
    destruct (route_no_body r (world s)) as (what & ->).
    unfold steady. cbn [world handlers after_turn after db journal commitQueue].
    split; [apply Forall_app; split; [exact Hs|constructor; constructor]|].
    split; [exact Hin|].
    rewrite unhandled_app, responses_app, enqueued_app, !length_app, pending_app.
    change (pending [Ended]) with 0. simpl. rewrite !app_nil_r.
    split; [exact Hq|]. split; [lia|]. split; [lia|].
    split; [lia|exact Hc].
  - (* a handler is resumed *)
    rewrite !Nat.add_0_r.
    destruct (handlers s !! n) as [p|] eqn:Hn; [|exact Hst].
    assert (Hp : sound (db (world s)) p).
    { rewrite List.Forall_forall in Hs. apply Hs.
      apply list_elem_of_In. eapply list_elem_of_lookup_2, Hn. }
    inversion Hp as [E|next Hnext E]; subst p.
    + cbn [resume after_turn]. rewrite list_insert_id by exact Hn.
      destruct s; exact Hst.
    + cbn [resume].
      destruct (Hnext (world s) (grows_refl _))
        as (p & d' & es & -> & Hg & Hin' & Hcase).
      pose proof (pending_insert p _ _ _ Hn) as Hpend. simpl in Hpend.
      unfold steady. cbn [world handlers after_turn].
      assert (Hall : forall q, sound d' q ->
                Forall (sound (db (after (world s) d' es)))
                       (<[ n := q ]> (handlers s))).
      { intros q Hq'. apply Forall_insert; [|exact Hq'].
        eapply Forall_impl; [exact Hs|]. intros x Hx.
        eapply sound_grows; [exact Hx|exact Hg]. }
      split; [apply Hall; destruct Hcase as [(_ & _ & Hp')|(_ & ->)];
              [exact Hp'|constructor]|].
      split; [apply Hin', Hin|]. split; [apply steady_after, Hq|].
      cbn [after journal].
      rewrite unhandled_app, responses_app, enqueued_app, !length_app.
      rewrite List.filter_app, length_app.
      destruct Hcase as [(Hquiet & Hp' & _)|(Hans & ->)].
      * destruct (quiet_counts es Hquiet) as (-> & -> & ->).
        rewrite Hp' in Hpend. simpl. rewrite !app_nil_r.
        split; [lia|]. split; [lia|]. split; [lia|exact Hc].
      * destruct (answer_counts es Hans) as (-> & code & -> & Hcode & He').
        simpl in Hpend. simpl.
        split; [lia|]. split; [lia|]. split; [simpl in He'; lia|].
        apply Forall_app. split; [exact Hc|constructor; [exact Hcode|constructor]].
  - rewrite !Nat.add_0_r. apply (steady_serve s (Tick d)); [reflexivity|exact Hst].
  - rewrite !Nat.add_0_r.
    apply (steady_serve s (TaskDone i f)); [reflexivity|exact Hst].
Qed.

Lemma steady_play (ts : list Turn) : forall s u a,
  steady s u a -> steady (play s ts) (u + unparsed ts) (a + parsed ts).
Proof.
  induction ts as [|t ts IH]; intros s u a Hst.
  - simpl. rewrite !Nat.add_0_r. exact Hst.
  - pose proof (IH _ _ _ (steady_turn s t u a Hst)) as H.
    change (play s (t :: ts)) with (play (turn s t) ts).
    change (t :: ts) with ([t] ++ ts).
    rewrite unparsed_app, parsed_app, !Nat.add_assoc. exact H.
Qed.

End Interleaved.

Section Alone.
Import CommitQueue.

Lemma resumed_ended (k : nat) (w : World) : resumed k Ended w = (Ended, w).
Proof. induction k as [|k IH]; simpl; [reflexivity|exact IH]. Qed.

Lemma play_resumes (k : nat) : forall (s : Server) (n : nat) (p : Async),
  handlers s !! n = Some p ->
  play s (repeat (Resumes n) k)
  = {| world := snd (resumed k p (world s));
       handlers := <[ n := fst (resumed k p (world s)) ]> (handlers s) |}.
Proof.
  induction k as [|k IH]; intros s n p Hn.
  - simpl. rewrite list_insert_id by exact Hn. destruct s; reflexivity.
  - change (play s (repeat (Resumes n) (S k)))
      with (play (turn s (Resumes n)) (repeat (Resumes n) k)).
    cbn [turn resumed]. rewrite Hn.
    destruct (resume p (world s)) as [p' w'].
    rewrite (IH _ n (after_turn p')); cbn [world handlers].
    + rewrite list_insert_insert_eq. reflexivity.
    + apply list_lookup_insert_eq. eapply lookup_lt_Some, Hn.
Qed.

Ltac run_alone :=
  unfold await, finally, req_body,
    db_run_INSERT_issue, db_run_UPDATE_issue, db_run_INSERT_comment,
    db_run_TOUCH_issue, db_get_issue, db_get_comment, db_all_comments,
    io_emit, timestamp, commitQueue_push, res_status_json, object, record,
    with_db, h_ret, throw, h_bind;
  cbn [fst snd db clock commitQueue disk commands journal resumed after_turn
       resume Nat.add negb sql_param insert_issue insert_comment].

(** A handler that starts and is resumed until it is over, with nothing in
    between, does what the handler run in one piece does. *)
Lemma resumed_alone (r : Route) (body : Body) (w : World) (k : nat) :
  resumed (7 + k) (after_turn (fst (route r (Some body) w)))
          (snd (route r (Some body) w))
  = (Ended, serve w (alone r body)).
Proof.
  destruct r as [|id_|id_]; unfold route, alone, serve, handle.
  - unfold post_issues_async, post_issues.
    destruct (truthy (body_title body)) eqn:Ht.
    + destruct (truthy_inv _ Ht) as (s & Hs & Hne). run_alone.
      rewrite Hs in *. rewrite Ht. run_alone.
      cbn [issues]. rewrite lookup_insert_eq. run_alone.
      rewrite resumed_ended. reflexivity.
    + run_alone. rewrite Ht. run_alone. rewrite resumed_ended. reflexivity.
  - unfold put_issue_async, put_issue. run_alone.
    destruct (issues (db w) !! id_) as [existing|] eqn:He.
    + run_alone.
      match goal with
      | |- context [issues (update_issue ?a ?b ?c ?d ?e ?f ?g) !! id_] =>
          destruct (issues (update_issue a b c d e f g) !! id_) as [row|]
      end; run_alone; rewrite resumed_ended; reflexivity.
    + run_alone. rewrite resumed_ended. reflexivity.
  - unfold post_comments_async, post_comments.
    destruct (truthy (body_text body)) eqn:Ht.
    + run_alone. rewrite Ht. run_alone.
      destruct (issues (db w) !! id_) as [existing|] eqn:He.
      * run_alone.
        match goal with
        | |- context [select_comment ?a ?b] =>
            destruct (select_comment a b) as [c|]
        end;
          match goal with
          | |- context [issues (touch_issue ?a ?b ?c) !! id_] =>
              destruct (issues (touch_issue a b c) !! id_) as [row|]
          end;
          run_alone; try rewrite resumed_ended; reflexivity.
      * run_alone. rewrite resumed_ended. reflexivity.
    + run_alone. rewrite Ht. run_alone. rewrite resumed_ended. reflexivity.
Qed.

End Alone.

(** * The server with requests in flight *)

Section InFlight.
Import CommitQueue.




(** X18. A request served alone is served as in one piece. When a request
    with a body arrives and its handler is resumed until it is over, with no
    other turn in between, the process ends up as after the handler run from
    its first line to its last, and the handler is over. *)
Theorem served_alone (s : Server) (r : Route) (body : Body) (k : nat) :
  play s (Arrives r (Some body) :: repeat (Resumes (length (handlers s))) (7 + k))
  = {| world := serve (world s) (alone r body);
       handlers := handlers s ++ [Ended] |}.
Proof.
  change (play s (Arrives r (Some body) :: ?ts))
    with (play (turn s (Arrives r (Some body))) ts).
  pose proof (resumed_alone r body (world s) k) as Hres.
  cbn [turn]. destruct (route r (Some body) (world s)) as [p w'].
  cbn [fst snd] in Hres.
  rewrite (play_resumes _ _ _ (after_turn p)); cbn [world handlers].
  - rewrite Hres. cbn [fst snd]. f_equal.
    rewrite insert_app_r_alt by lia. rewrite Nat.sub_diag. reflexivity.
  - rewrite lookup_app_r by lia. rewrite Nat.sub_diag. reflexivity.
Qed.

(** X19. The tables stay intact whatever the interleaving. In any run of the
    server from start-up with requests in flight, a row of [issues] carries
    the id it is stored under, the issues are those numbered 1 to the last
    id handed out, the comments are numbered 1, 2, ... in the order of the
    table, and the issue of every comment is in the table. *)
Theorem tables_stay_intact_in_flight (d : Date) (ts : list Turn) :
  intact (db (world (play (listening d) ts))).
Proof.
  destruct (steady_play ts _ _ _ (steady_listening d)) as (_ & Hin & _).
  exact Hin.
Qed.

End InFlight.

(** * The run with two updates in flight *)

Section OverlapRun.
Import CommitQueue.

(** The second update of [Overlap.schedule], whose turns are those of
    number 7, 9, 11, 13 and 15: the row it reads back holds the status the
    other update set. *)
Lemma read_back_then_broadcast_then_enqueue_witness :
  issues (db (Overlap.at_turn 7)) !! 1%Z = Some Sample.issue1 /\
  issues (db (Overlap.at_turn 11)) !! 1%Z = Some Overlap.both /\
  let snap := issue_json Overlap.both
                (select_comments 1 (db (Overlap.at_turn 13))) in
  exists p0 p1 p2 p3 p4 task,
    route (PUT_api_issues_id 1) (Some Overlap.retitle) (Overlap.at_turn 5)
    = (Some p0, Overlap.at_turn 5) /\
    resume p0 (Overlap.at_turn 7)
    = (Some p1, after (Overlap.at_turn 7) (db (Overlap.at_turn 7))
                      [DbGet SELECT_issue]) /\
    resume p1 (Overlap.at_turn 9)
    = (Some p2,
       after (Overlap.at_turn 9)
             (update_issue (clock (Overlap.at_turn 9)) (Some "new") None None None
                           1 (db (Overlap.at_turn 9)))
             [DbRun UPDATE_issue]) /\
    resume p2 (Overlap.at_turn 11)
    = (Some p3, after (Overlap.at_turn 11) (db (Overlap.at_turn 11))
                      [DbGet SELECT_issue]) /\
    resume p3 (Overlap.at_turn 13)
    = (Some p4, after (Overlap.at_turn 13) (db (Overlap.at_turn 13))
                      [DbAll SELECT_comments]) /\
    resume p4 (Overlap.at_turn 15)
    = (Some Ended,
       after (Overlap.at_turn 15) (db (Overlap.at_turn 15))
             [Emit "issue:updated" snap; Enqueue task; Respond 200 snap]) /\
    task_content task = JObj [("action", JStr "update");
                              ("before", row_json Sample.issue1);
                              ("after", snap)].
Proof.
  assert (H1 : issues (db (Overlap.at_turn 7)) !! 1%Z = Some Sample.issue1)
    by (vm_compute; reflexivity).
  assert (H3 : issues (db (Overlap.at_turn 11)) !! 1%Z = Some Overlap.both)
    by (vm_compute; reflexivity).
  split; [exact H1|]. split; [exact H3|].
  exact (proj1 (proj2
           (read_back_then_broadcast_then_enqueue 1 Overlap.retitle ""
              Sample.issue1 Overlap.both MoreSamples.first_comment
              (Overlap.at_turn 5) (Overlap.at_turn 7) (Overlap.at_turn 9)
              (Overlap.at_turn 11) (Overlap.at_turn 13) (Overlap.at_turn 15)
              (Overlap.at_turn 15) (Overlap.at_turn 15))) H1 H3).
Defined.

(** C7 fails as stated: with two updates in flight the record of the second
    is built from a stale read. When its UPDATE runs (turn 9) the row is
    closed already, but the record holds as [before] the open row read at
    turn 7, and as [after] a row with a status this request did not set. *)
Lemma updates_in_flight_record_a_stale_read :
  exists task,
    last (enqueued (journal (world (play (listening Sample.t0) Overlap.schedule))))
    = Some task /\
    task_message task = "Update issue #1: set no-status-change" /\
    task_content task
    = JObj [("action", JStr "update"); ("before", row_json Sample.issue1);
            ("after", issue_json Overlap.both [])] /\
    issues (db (Overlap.at_turn 9)) !! 1%Z = Some Overlap.closed /\
    row_json Sample.issue1 <> row_json Overlap.closed /\
    status Sample.issue1 = "open" /\ status Overlap.both = "closed".
Proof.
  eexists. split; [vm_compute; reflexivity|].
  split; [reflexivity|]. split; [reflexivity|].
  split; [vm_compute; reflexivity|]. split; [discriminate|]. split; reflexivity.
Qed.


End OverlapRun.
